(** * CSVFRONTEND: the occupation taxonomy builder and the search engine

    A shallow embedding of the two pieces of logic of the repository:
    - [lib/occupations.ts]: [organizeOccupations], [sortChildren] and the
      group-name tables;
    - [lib/search.ts]: the class [EnhancedSearchEngine] ([search],
      [getFilteredOccupations], [matchesFilters], [generateBreadcrumb],
      [boostRelevance], [getAvailableFilters]).

    JavaScript strings are modelled as [string]: sequences of 8-bit
    characters that stand for the code units U+0000 to U+00FF, with the case
    mapping and the white space of that range.  Numbers that hold scores are
    binary64 floats ([PrimFloat]), numbers that count are [nat].  The
    comparison of the host's locale ([localeCompare]) is a parameter: a
    collation, given by its sort keys. *)

From Stdlib Require Import Bool Arith NArith Lia List String Ascii PrimFloat.
From Stdlib Require Import Permutation Sorted OrderedTypeEx.
Import ListNotations.

Set Warnings "-inexact-float,-register-all".
Local Open Scope string_scope.
Local Open Scope list_scope.

(* ================================================================== *)
(** ** JavaScript built-ins used by the sources *)

Module JS.

(** [s.split(sep)[0]]: the part of [s] before the first [sep]. *)
Fixpoint split_first (sep : ascii) (s : string) : string :=
  match s with
  | EmptyString => EmptyString
  | String c r => if Ascii.eqb c sep then EmptyString else String c (split_first sep r)
  end.

(** [s[0]]: the first character as a string, [None] for [undefined]. *)
Definition char0 (s : string) : option string :=
  match s with
  | EmptyString => None
  | String c _ => Some (String c EmptyString)
  end.

(** [s.substring(0, n)]. *)
Definition substring0 (n : nat) (s : string) : string := substring 0 n s.

(** [String.prototype.toLowerCase] on one code unit below U+0100: the
    capitals are A to Z (U+0041 to U+005A) and the Latin-1 capitals U+00C0
    to U+00DE but for the sign U+00D7; each has its small letter 32 places
    further. *)
Definition is_capital (n : nat) : bool :=
  (((65 <=? n) && (n <=? 90))
   || ((192 <=? n) && (n <=? 222) && negb (n =? 215)))%nat.

Definition lower_char (c : ascii) : ascii :=
  let n := nat_of_ascii c in
  if is_capital n then ascii_of_nat (n + 32) else c.

Fixpoint toLowerCase (s : string) : string :=
  match s with
  | EmptyString => EmptyString
  | String c r => String (lower_char c) (toLowerCase r)
  end.

(** [s.includes(t)]. *)
Fixpoint includes (s t : string) : bool :=
  prefix t s ||
  match s with
  | EmptyString => false
  | String _ r => includes r t
  end.

(** White space and line terminators removed by [String.prototype.trim],
    among the code units below U+0100: TAB, LF, VT, FF, CR, SP and the
    no-break space U+00A0. *)
Definition is_space (c : ascii) : bool :=
  let n := nat_of_ascii c in
  (((9 <=? n) && (n <=? 13)) || (n =? 32) || (n =? 160))%nat.

Fixpoint trimStart (s : string) : string :=
  match s with
  | EmptyString => EmptyString
  | String c r => if is_space c then trimStart r else s
  end.

Fixpoint trimEnd (s : string) : string :=
  match s with
  | EmptyString => EmptyString
  | String c r =>
      match trimEnd r with
      | EmptyString => if is_space c then EmptyString else String c EmptyString
      | r' => String c r'
      end
  end.

Definition trim (s : string) : string := trimEnd (trimStart s).

(** Truthiness of a string: [!s] holds for the empty string only. *)
Definition truthy (s : string) : bool :=
  match s with EmptyString => false | _ => true end.

(** [a.localeCompare(b)], by its sign.  The order is that of the default
    locale of the host, not of the repository: ECMAScript leaves it to the
    implementation and asks for a total ordering of all strings, in which
    two different strings may compare as equal.  As in the Unicode collation
    algorithm, a collation is given by the sort key of each string, and
    strings compare as their keys do, unit by unit.  The order need not be
    the order of the code units: the usual collations put ["a"] before
    ["B"]. *)
Record Collation : Type := mkCollation {
  sortKey : string -> string
}.

Definition localeCompare (L : Collation) (a b : string) : comparison :=
  String.compare (sortKey L a) (sortKey L b).

(** [Array.prototype.sort(compareFn)]: a stable sort; [compareFn] is given by
    the sign of its result ([Lt] negative, [Eq] zero or NaN, [Gt] positive). *)
Section Sort.
Context {A : Type} (compareFn : A -> A -> comparison).

Fixpoint sort_insert (x : A) (l : list A) : list A :=
  match l with
  | [] => [x]
  | y :: l' =>
      match compareFn x y with
      | Gt => y :: sort_insert x l'
      | _ => x :: l
      end
  end.

Definition Array_sort (l : list A) : list A := fold_right sort_insert [] l.
End Sort.

(** [Array.prototype.slice(0, n)] for a count [n]. *)
Definition slice0 {A : Type} (n : nat) (l : list A) : list A := firstn n l.

(** [arr.includes(x)] on an array of strings. *)
Definition Array_includes (l : list string) (x : string) : bool :=
  existsb (String.eqb x) l.

(** [parts.join(sep)]. *)
Definition join (sep : string) (parts : list string) : string := String.concat sep parts.

(** [s.slice(start, end)] and [s.slice(start)], on indices that are counts. *)
Definition slice (s : string) (start stop : nat) : string :=
  substring start (stop - start) s.

Definition sliceFrom (s : string) (start : nat) : string :=
  substring start (String.length s - start) s.

End JS.

(* ================================================================== *)
(** ** lib/types.ts *)

Record Occupation : Type := mkOccupation {
  userLink : string;
  keyId : string;
  iscoGroupCode : string;
  code : string;
  preferredLabel : string;
  exampleAlternateDesignation : string;
  coreDescription : string;
  iscoTaxIncluded : string;
  definition : string;
  scopeNote : string;
  regulatedProfessionNote : string;
  occupationType : string;
  status : string
}.

(** [children: (OccupationGroup | Occupation)[]]: a child is a group, with
    its code, name and children, or an occupation; ['children' in child]
    tells them apart. *)
Inductive Child : Type :=
| GroupChild (gcode gname : string) (gchildren : list Child)
| OccChild (o : Occupation).

Record OccupationGroup : Type := mkGroup {
  group_code : string;
  group_name : string;
  children : list Child
}.

Definition asChild (g : OccupationGroup) : Child :=
  GroupChild (group_code g) (group_name g) (children g).

(** [child.code] of either kind of child: the sort key of [sortChildren]. *)
Definition childCode (c : Child) : string :=
  match c with
  | GroupChild gc _ _ => gc
  | OccChild o => code o
  end.

(** A record with the given code and label, every other field empty. *)
Definition occupationOf (c label : string) : Occupation :=
  mkOccupation "" "" "" c label "" "" "" "" "" "" "" "".

(** Look-up in a table of names: [names[code] || `Group ${code}`]. *)
Fixpoint lookup (table : list (string * string)) (key : string) : option string :=
  match table with
  | [] => None
  | (k, v) :: rest => if String.eqb k key then Some v else lookup rest key
  end.

Definition nameOr (table : list (string * string)) (c : string) : string :=
  match lookup table c with
  | Some n => if JS.truthy n then n else "Group " ++ c
  | None => "Group " ++ c
  end.

(* ================================================================== *)
(** ** lib/occupations.ts *)

Module Occupations.

(** The table of [getMajorGroupName] in lib/occupations.ts. *)
Definition getMajorGroupName_names : list (string * string) :=
  [
     ("0", "Armed forces occupations");
     ("1", "Managers");
     ("2", "Professionals");
     ("3", "Technicians and associate professionals");
     ("4", "Clerical support workers");
     ("5", "Service and sales workers");
     ("6", "Skilled agricultural, forestry and fishery workers");
     ("7", "Craft and related trades workers");
     ("8", "Plant and machine operators, and assemblers");
     ("9", "Elementary occupations")
  ].

Definition getMajorGroupName (c : string) : string := nameOr getMajorGroupName_names c.

(** The table of [getSubMajorGroupName] in lib/occupations.ts. *)
Definition getSubMajorGroupName_names : list (string * string) :=
  [
     ("11", "Chief executives, senior officials and legislators");
     ("12", "Administrative and commercial managers");
     ("13", "Production and specialised services managers");
     ("14", "Hospitality, retail and other services managers");
     ("21", "Science and engineering professionals");
     ("22", "Health professionals");
     ("23", "Teaching professionals");
     ("24", "Business and administration professionals");
     ("25", "Information and communications technology professionals");
     ("26", "Legal, social and cultural professionals");
     ("31", "Science and engineering associate professionals");
     ("32", "Health associate professionals");
     ("33", "Business and administration associate professionals");
     ("34", "Legal, social, cultural and related associate professionals");
     ("35", "Information and communications technicians");
     ("41", "General and keyboard clerks");
     ("42", "Customer services clerks");
     ("43", "Numerical and material recording clerks");
     ("44", "Other clerical support workers");
     ("51", "Personal service workers");
     ("52", "Sales workers");
     ("53", "Personal care workers");
     ("54", "Protective services workers");
     ("61", "Market-oriented skilled agricultural workers");
     ("62", "Market-oriented skilled forestry, fishery and hunting workers");
     ("63", "Subsistence farmers, fishers, hunters and gatherers");
     ("71", "Building and related trades workers, excluding electricians");
     ("72", "Metal, machinery and related trades workers");
     ("73", "Handicraft and printing workers");
     ("74", "Electrical and electronic trades workers");
     ("75", "Food processing, wood working, garment and other craft workers");
     ("81", "Stationary plant and machine operators");
     ("82", "Assemblers");
     ("83", "Drivers and mobile plant operators");
     ("91", "Cleaners and helpers");
     ("92", "Agricultural, forestry and fishery labourers");
     ("93", "Labourers in mining, construction, manufacturing and transport");
     ("94", "Food preparation assistants");
     ("95", "Street and related sales and service workers");
     ("96", "Refuse workers and other elementary workers")
  ].

Definition getSubMajorGroupName (c : string) : string := nameOr getSubMajorGroupName_names c.

(** The table of [getMinorGroupName] in lib/occupations.ts. *)
Definition getMinorGroupName_names : list (string * string) :=
  [
     ("111", "Legislators and senior officials");
     ("112", "Managing directors and chief executives");
     ("121", "Business services and administration managers");
     ("122", "Sales, marketing and development managers");
     ("131", "Production managers in agriculture, forestry and fisheries");
     ("132", "Manufacturing, mining, construction, and distribution managers");
     ("133", "Information and communications technology service managers");
     ("134", "Professional services managers");
     ("141", "Hotel and restaurant managers");
     ("142", "Retail and wholesale trade managers");
     ("143", "Other services managers");
     ("211", "Physical and earth science professionals");
     ("212", "Mathematicians, actuaries and statisticians");
     ("213", "Life science professionals");
     ("214", "Engineering professionals (excluding electrotechnology)");
     ("215", "Electrotechnology engineers");
     ("216", "Architects, planners, surveyors and designers");
     ("221", "Medical doctors");
     ("222", "Nursing and midwifery professionals");
     ("223", "Traditional and complementary medicine professionals");
     ("224", "Paramedical practitioners");
     ("225", "Veterinarians");
     ("226", "Other health professionals");
     ("231", "University and higher education teachers");
     ("232", "Vocational education teachers");
     ("233", "Secondary education teachers");
     ("234", "Primary school and early childhood teachers");
     ("235", "Other teaching professionals");
     ("241", "Finance professionals");
     ("242", "Administration professionals");
     ("243", "Sales, marketing and public relations professionals");
     ("251", "Software and applications developers and analysts");
     ("252", "Database and network professionals");
     ("261", "Legal professionals");
     ("262", "Librarians, archivists and curators");
     ("263", "Social and religious professionals");
     ("264", "Authors, journalists and linguists");
     ("265", "Creative and performing artists");
     ("311", "Physical and engineering science technicians");
     ("312", "Mining, manufacturing and construction supervisors");
     ("313", "Process control technicians");
     ("314", "Life science technicians and related associate professionals");
     ("315", "Ship and aircraft controllers and technicians");
     ("321", "Medical and pharmaceutical technicians");
     ("322", "Nursing and midwifery associate professionals");
     ("323", "Traditional and complementary medicine associate professionals");
     ("324", "Veterinary technicians and assistants");
     ("325", "Other health associate professionals");
     ("331", "Financial and mathematical associate professionals");
     ("332", "Sales and purchasing agents and brokers");
     ("333", "Business services agents");
     ("334", "Administrative and specialised secretaries");
     ("335", "Regulatory government associate professionals");
     ("341", "Legal, social and religious associate professionals");
     ("342", "Sports and fitness workers");
     ("343", "Artistic, cultural and culinary associate professionals");
     ("351", "Information and communications technology operations technicians");
     ("352", "Telecommunications and broadcasting technicians")
  ].

Definition getMinorGroupName (c : string) : string := nameOr getMinorGroupName_names c.

(** The table of [getUnitGroupName] in lib/occupations.ts. *)
Definition getUnitGroupName_names : list (string * string) :=
  [
     ("1111", "Legislators");
     ("1112", "Senior government officials");
     ("1113", "Traditional chiefs and heads of village");
     ("1114", "Senior officials of special-interest organisations");
     ("1120", "Managing directors and chief executives");
     ("1211", "Finance managers");
     ("1212", "Human resource managers");
     ("1213", "Policy and planning managers");
     ("1219", "Business services and administration managers not elsewhere classified");
     ("1221", "Sales and marketing managers");
     ("1222", "Advertising and public relations managers");
     ("1223", "Research and development managers");
     ("1311", "Agricultural and forestry production managers");
     ("1312", "Aquaculture and fisheries production managers");
     ("1321", "Manufacturing managers");
     ("1322", "Mining managers");
     ("1323", "Construction managers");
     ("1324", "Supply, distribution and related managers");
     ("1330", "Information and communications technology service managers");
     ("1341", "Child care services managers");
     ("1342", "Health services managers");
     ("1343", "Aged care services managers");
     ("1344", "Social welfare managers");
     ("1345", "Education managers");
     ("1346", "Financial and insurance services branch managers");
     ("1349", "Professional services managers not elsewhere classified");
     ("1411", "Hotel managers");
     ("1412", "Restaurant managers");
     ("1420", "Retail and wholesale trade managers");
     ("1431", "Sports, recreation and cultural centre managers");
     ("1439", "Services managers not elsewhere classified");
     ("2111", "Physicists and astronomers");
     ("2112", "Meteorologists");
     ("2113", "Chemists");
     ("2114", "Geologists and geophysicists");
     ("2120", "Mathematicians, actuaries and statisticians");
     ("2131", "Biologists, botanists, zoologists and related professionals");
     ("2132", "Farming, forestry and fisheries advisers");
     ("2133", "Environmental protection professionals");
     ("2141", "Industrial and production engineers");
     ("2142", "Civil engineers");
     ("2143", "Environmental engineers");
     ("2144", "Mechanical engineers");
     ("2145", "Chemical engineers");
     ("2146", "Mining engineers, metallurgists and related professionals");
     ("2149", "Engineering professionals not elsewhere classified");
     ("2151", "Electrical engineers");
     ("2152", "Electronics engineers");
     ("2153", "Telecommunications engineers");
     ("2161", "Building architects");
     ("2162", "Landscape architects");
     ("2163", "Product and garment designers");
     ("2164", "Town and traffic planners");
     ("2165", "Cartographers and surveyors");
     ("2166", "Graphic and multimedia designers")
  ].

Definition getUnitGroupName (c : string) : string := nameOr getUnitGroupName_names c.

(** [Map<string, OccupationGroup>]: the entries in insertion order. *)
Definition GroupMap : Type := list (string * OccupationGroup).

Definition Map_has (k : string) (m : GroupMap) : bool :=
  existsb (fun kv => String.eqb (fst kv) k) m.

Fixpoint Map_get (k : string) (m : GroupMap) : option OccupationGroup :=
  match m with
  | [] => None
  | (k', v) :: rest => if String.eqb k' k then Some v else Map_get k rest
  end.

(** [m.set(k, v)]: a new key goes last, a known key keeps its place. *)
Fixpoint Map_set (k : string) (v : OccupationGroup) (m : GroupMap) : GroupMap :=
  match m with
  | [] => [(k, v)]
  | (k', v') :: rest =>
      if String.eqb k' k then (k, v) :: rest else (k', v') :: Map_set k v rest
  end.

Definition Map_values (m : GroupMap) : list OccupationGroup := map snd m.

(** [children.find(child => 'children' in child && child.code === c)] finds
    a group. *)
Fixpoint hasGroup (c : string) (ch : list Child) : bool :=
  match ch with
  | [] => false
  | GroupChild gc _ _ :: rest => String.eqb gc c || hasGroup c rest
  | OccChild _ :: rest => hasGroup c rest
  end.

(** The group that [find] returns is changed in place: [f] is what the rest
    of the callback does to its [children]. *)
Fixpoint updateGroup (c : string) (f : list Child -> list Child) (ch : list Child)
  : list Child :=
  match ch with
  | [] => []
  | GroupChild gc gn k :: rest =>
      if String.eqb gc c then GroupChild gc gn (f k) :: rest
      else GroupChild gc gn k :: updateGroup c f rest
  | OccChild o :: rest => OccChild o :: updateGroup c f rest
  end.

(** The idiom of every level: find the group with code [c] among the
    children, push an empty one named [name] when there is none, and go on
    with the children of that group. *)
Definition withGroup (c name : string) (f : list Child -> list Child) (ch : list Child)
  : list Child :=
  let ch' := if hasGroup c ch then ch else ch ++ [GroupChild c name []] in
  updateGroup c f ch'.

Definition push (o : Occupation) (ch : list Child) : list Child := ch ++ [OccChild o].

(** The body of the callback below the major group: what it does to
    [majorGroupObj.children]. *)
Definition placeOccupation (occupation : Occupation) (mainCode : string)
  (majorChildren : list Child) : list Child :=
  let subMajorGroup := JS.substring0 2 mainCode in
  let minorGroup := JS.substring0 3 mainCode in
  let unitGroup := mainCode in
  if (String.length subMajorGroup =? 2)%nat then
    withGroup subMajorGroup (getSubMajorGroupName subMajorGroup) (fun subMajorChildren =>
      if (String.length minorGroup =? 3)%nat then
        withGroup minorGroup (getMinorGroupName minorGroup) (fun minorChildren =>
          if (String.length unitGroup =? 4)%nat then
            withGroup unitGroup (getUnitGroupName unitGroup) (push occupation) minorChildren
          else
            push occupation minorChildren) subMajorChildren
      else if (String.length unitGroup =? 4)%nat then
        (* "Handle 4-digit codes without 3-digit minor group" *)
        withGroup unitGroup (getUnitGroupName unitGroup) (push occupation) subMajorChildren
      else
        push occupation subMajorChildren) majorChildren
  else
    push occupation majorChildren.

(** The callback of [occupations.forEach], as a change of the map [groups]. *)
Definition addOccupation (groups : GroupMap) (occupation : Occupation) : GroupMap :=
  let code := code occupation in
  if negb (JS.truthy code) then groups else
  let mainCode := JS.split_first "." code in
  if negb (JS.truthy mainCode) || (String.length mainCode <? 1)%nat then groups else
  match JS.char0 mainCode with
  | None => groups
  | Some majorGroup =>
      let groups1 :=
        if Map_has majorGroup groups then groups
        else Map_set majorGroup
               (mkGroup majorGroup (getMajorGroupName majorGroup) []) groups in
      match Map_get majorGroup groups1 with
      | None => groups1
      | Some majorGroupObj =>
          Map_set majorGroup
            (mkGroup (group_code majorGroupObj) (group_name majorGroupObj)
               (placeOccupation occupation mainCode (children majorGroupObj)))
            groups1
      end
  end.

(** The comparators of the two sorts: [a.code.localeCompare(b.code)]. *)
Definition compareChildren (L : JS.Collation) (a b : Child) : comparison :=
  JS.localeCompare L (childCode a) (childCode b).

Definition compareGroups (L : JS.Collation) (a b : OccupationGroup) : comparison :=
  JS.localeCompare L (group_code a) (group_code b).

(** [sortChildren] on a child: an occupation is left alone, a group has its
    children sorted by code, at every depth.  The recursive calls are made
    before the sort of the list; [sortChildren_eq] shows that this is the
    order of the source, which sorts the list first. *)
Fixpoint sortChild (L : JS.Collation) (c : Child) : Child :=
  match c with
  | GroupChild gc gn k =>
      GroupChild gc gn (JS.Array_sort (compareChildren L) (map (sortChild L) k))
  | OccChild o => OccChild o
  end.

Definition sortChildren (L : JS.Collation) (group : OccupationGroup) : OccupationGroup :=
  mkGroup (group_code group) (group_name group)
    (JS.Array_sort (compareChildren L) (map (sortChild L) (children group))).

Definition organizeOccupations (L : JS.Collation) (occupations : list Occupation)
  : list OccupationGroup :=
  let groups := fold_left addOccupation occupations [] in
  let sortedGroups := JS.Array_sort (compareGroups L) (Map_values groups) in
  map (sortChildren L) sortedGroups.

End Occupations.

(* ================================================================== *)
(** ** The regular expressions of the host *)

Module RegExp.

(** What the constructor [new RegExp(source, 'i')] does with a source text:
    it returns a regular expression or throws a [SyntaxError].  The pattern
    grammar of ECMAScript (without the [u] flag, with the extensions of its
    Annex B) is modelled up to character classes, named groups, group
    modifiers and quantifier bounds too large for the engines; on a source
    that uses one of them the verdict is [Beyond] and the decision is left
    to the host. *)
Inductive Verdict : Type := Accepted | Rejected | Beyond.

(** The bounds of a quantifier [{n,m}]: in order, out of order, or out of
    order with both bounds at [2^31 - 1] or more.  The grammar compares the
    numbers that the digits spell; the engines keep a bound in a machine
    integer and replace a larger one by the largest ([2^31 - 1] at least),
    so that they agree with the grammar unless both bounds are that large:
    [a{2147483648,2147483647}] compiles in such an engine. *)
Inductive Bounds : Type := InOrder | OutOfOrder | Saturated.

Definition saturation : N := 2147483647%N.

Definition bounds (lo hi : N) : Bounds :=
  if (lo <=? hi)%N then InOrder
  else if (saturation <=? hi)%N then Saturated
  else OutOfOrder.

Definition is_digit (c : ascii) : bool :=
  let n := nat_of_ascii c in ((48 <=? n) && (n <=? 57))%nat.

(** [DecimalDigits] at the head of the text, as a number, and the rest. *)
Fixpoint digits (acc : N) (s : list ascii) : N * list ascii :=
  match s with
  | c :: r =>
      if is_digit c then digits (10 * acc + N.of_nat (nat_of_ascii c - 48))%N r
      else (acc, s)
  | [] => (acc, s)
  end.

(** The text after an opening brace, when the brace starts a quantifier
    [{n}], [{n,}] or [{n,m}]: how its bounds compare, and the text after the
    closing brace. *)
Definition braced (s : list ascii) : option (Bounds * list ascii) :=
  match s with
  | c :: _ =>
      if is_digit c then
        let (lo, r) := digits 0%N s in
        match r with
        | "}"%char :: r' => Some (InOrder, r')
        | ","%char :: "}"%char :: r' => Some (InOrder, r')
        | ","%char :: ((d :: _) as r1) =>
            if is_digit d then
              let (hi, r2) := digits 0%N r1 in
              match r2 with
              | "}"%char :: r' => Some (bounds lo hi, r')
              | _ => None
              end
            else None
        | _ => None
        end
      else None
  | [] => None
  end.

(** A quantifier may be followed by [?]. *)
Definition lazy_mark (s : list ascii) : list ascii :=
  match s with
  | "?"%char :: r => r
  | _ => s
  end.

(** One pass over the source.  [groups] holds one flag per open group,
    telling whether the group takes a quantifier once closed (a look-behind
    does not); [q] tells whether the term just read takes a quantifier. *)
Fixpoint scan (fuel : nat) (groups : list bool) (q : bool) (s : list ascii) : Verdict :=
  match fuel with
  | O => Beyond
  | S fuel' =>
      match s with
      | [] => match groups with [] => Accepted | _ :: _ => Rejected end
      | "\"%char :: [] => Rejected
      | "\"%char :: c :: r =>
          if Ascii.eqb c "b" || Ascii.eqb c "B" then scan fuel' groups false r
          else scan fuel' groups true r
      | "["%char :: _ => Beyond
      | "("%char :: "?"%char :: ":"%char :: r => scan fuel' (true :: groups) false r
      | "("%char :: "?"%char :: "="%char :: r => scan fuel' (true :: groups) false r
      | "("%char :: "?"%char :: "!"%char :: r => scan fuel' (true :: groups) false r
      | "("%char :: "?"%char :: "<"%char :: "="%char :: r => scan fuel' (false :: groups) false r
      | "("%char :: "?"%char :: "<"%char :: "!"%char :: r => scan fuel' (false :: groups) false r
      | "("%char :: "?"%char :: _ => Beyond
      | "("%char :: r => scan fuel' (true :: groups) false r
      | ")"%char :: r =>
          match groups with
          | [] => Rejected
          | g :: groups' => scan fuel' groups' g r
          end
      | "|"%char :: r => scan fuel' groups false r
      | "^"%char :: r => scan fuel' groups false r
      | "$"%char :: r => scan fuel' groups false r
      | "*"%char :: r => if q then scan fuel' groups false (lazy_mark r) else Rejected
      | "+"%char :: r => if q then scan fuel' groups false (lazy_mark r) else Rejected
      | "?"%char :: r => if q then scan fuel' groups false (lazy_mark r) else Rejected
      | "{"%char :: r =>
          match braced r with
          | Some (InOrder, r') =>
              if q then scan fuel' groups false (lazy_mark r') else Rejected
          | Some (OutOfOrder, _) => Rejected
          | Some (Saturated, _) => if q then Beyond else Rejected
          | None => scan fuel' groups true r
          end
      | _ :: r => scan fuel' groups true r
      end
  end.

Definition syntax (source : string) : Verdict :=
  let s := list_ascii_of_string source in
  scan (S (List.length s)) [] false s.

End RegExp.

(** The results of Fuse.js: [FuseResultMatch] and [FuseResult], with their
    optional fields. *)
Record FuseResultMatch : Type := mkFuseResultMatch {
  fm_key : option string;
  fm_value : option string;
  fm_indices : option (list (nat * nat))
}.

Record FuseResult : Type := mkFuseResult {
  item : Occupation;
  fr_score : option float;
  fr_matches : option (list FuseResultMatch)
}.

(** What the engine takes from outside the repository: the Fuse.js index
    ([new Fuse(occupations, options).search(query, { limit })]), and the
    regular expressions of the host: the test of a subject against an
    expression compiled with the flag [i], and the host's verdict on the
    sources that [RegExp.syntax] leaves open. *)
Record Host : Type := mkHost {
  Fuse_search : list Occupation -> string -> nat -> list FuseResult;
  RegExp_test : string -> string -> bool;
  RegExp_accepts : string -> bool
}.

(** The outcome of a call: a value, or a thrown [SyntaxError]. *)
Inductive Completion (A : Type) : Type :=
| Normal (a : A)
| Throw_SyntaxError.
Arguments Normal {A} a.
Arguments Throw_SyntaxError {A}.

Definition bind {A B : Type} (m : Completion A) (f : A -> Completion B) : Completion B :=
  match m with
  | Normal a => f a
  | Throw_SyntaxError => Throw_SyntaxError
  end.

(** [arr.map(f)] with a callback that may throw: the first throw ends it. *)
Fixpoint Array_map_throwing {A B : Type} (f : A -> Completion B) (l : list A)
  : Completion (list B) :=
  match l with
  | [] => Normal []
  | x :: r =>
      bind (f x) (fun y => bind (Array_map_throwing f r) (fun ys => Normal (y :: ys)))
  end.

(** [new RegExp(source, 'i')]: the source of the expression, or a throw. *)
Definition RegExp_new (h : Host) (source : string) : Completion string :=
  match RegExp.syntax source with
  | RegExp.Accepted => Normal source
  | RegExp.Rejected => Throw_SyntaxError
  | RegExp.Beyond => if RegExp_accepts h source then Normal source else Throw_SyntaxError
  end.

(* ================================================================== *)
(** ** lib/search.ts *)

Module EnhancedSearchEngine.

Record SearchMatch : Type := mkSearchMatch {
  key : string;
  value : string;
  indices : list (nat * nat)
}.

(** [SearchResult extends Occupation]: the fields of the occupation, and
    three more. *)
Record SearchResult : Type := mkSearchResult {
  occupation : Occupation;
  score : float;
  matches : list SearchMatch;
  breadcrumb : string
}.

Record SearchFilters : Type := mkSearchFilters {
  iscoMajorGroups : list string;
  occupationTypes : list string
}.

(** The object: its two private fields. *)
Record t : Type := mkEngine {
  fuse : string -> nat -> list FuseResult;
  occupations : list Occupation
}.

Definition constructor (h : Host) (occupations : list Occupation) : t :=
  mkEngine (Fuse_search h occupations) occupations.

(** The table of the method [getMajorGroupName] of the engine. *)
Definition getMajorGroupName_names : list (string * string) :=
  [
     ("0", "Armed forces occupations");
     ("1", "Managers");
     ("2", "Professionals");
     ("3", "Technicians and associate professionals");
     ("4", "Clerical support workers");
     ("5", "Service and sales workers");
     ("6", "Skilled agricultural, forestry and fishery workers");
     ("7", "Craft and related trades workers");
     ("8", "Plant and machine operators, and assemblers");
     ("9", "Elementary occupations")
  ].

Definition getMajorGroupName (c : string) : string := nameOr getMajorGroupName_names c.

(** The table of the method [getSubMajorGroupName] of the engine. *)
Definition getSubMajorGroupName_names : list (string * string) :=
  [
     ("11", "Chief executives, senior officials and legislators");
     ("12", "Administrative and commercial managers");
     ("13", "Production and specialised services managers");
     ("14", "Hospitality, retail and other services managers");
     ("21", "Science and engineering professionals");
     ("22", "Health professionals");
     ("23", "Teaching professionals");
     ("24", "Business and administration professionals");
     ("25", "Information and communications technology professionals");
     ("26", "Legal, social and cultural professionals")
  ].

Definition getSubMajorGroupName (c : string) : string := nameOr getSubMajorGroupName_names c.

(** The table of the method [getMinorGroupName] of the engine. *)
Definition getMinorGroupName_names : list (string * string) :=
  [
     ("111", "Legislators and senior officials");
     ("112", "Managing directors and chief executives");
     ("121", "Business services and administration managers");
     ("122", "Sales, marketing and development managers");
     ("211", "Physical and earth science professionals");
     ("212", "Mathematicians, actuaries and statisticians")
  ].

Definition getMinorGroupName (c : string) : string := nameOr getMinorGroupName_names c.

Definition matchesFilters (occupation : Occupation) (filters : SearchFilters) : bool :=
  if (0 <? List.length (iscoMajorGroups filters))%nat
     && match JS.char0 (code occupation) with
        | None => true
        | Some majorGroup => negb (JS.Array_includes (iscoMajorGroups filters) majorGroup)
        end
  then false
  else if (0 <? List.length (occupationTypes filters))%nat
          && (negb (JS.truthy (occupationType occupation))
              || negb (JS.Array_includes (occupationTypes filters) (occupationType occupation)))
  then false
  else true.

Definition generateBreadcrumb (occupation : Occupation) : string :=
  let code := code occupation in
  if negb (JS.truthy code) then "" else
  let parts : list string := [] in
  let parts :=
    match JS.char0 code with
    | Some majorCode => parts ++ [(majorCode ++ " - " ++ getMajorGroupName majorCode)%string]
    | None => parts
    end in
  let parts :=
    if (2 <=? String.length code)%nat then
      let subMajorCode := JS.substring0 2 code in
      parts ++ [(subMajorCode ++ " - " ++ getSubMajorGroupName subMajorCode)%string]
    else parts in
  let parts :=
    if (3 <=? String.length code)%nat then
      let minorCode := JS.substring0 3 code in
      parts ++ [(minorCode ++ " - " ++ getMinorGroupName minorCode)%string]
    else parts in
  JS.join " > " parts.

Definition applyFilters (results : list SearchResult) (filters : SearchFilters)
  : list SearchResult :=
  filter (fun result => matchesFilters (occupation result) filters) results.

Definition getFilteredOccupations (this : t) (filters : option SearchFilters)
  : list SearchResult :=
  let results := occupations this in
  let results :=
    match filters with
    | Some f => filter (fun occ => matchesFilters occ f) results
    | None => results
    end in
  map (fun occ => mkSearchResult occ 1%float [] (generateBreadcrumb occ)) results.

(** The sign of [b.score - a.score], the comparator of the final sort. *)
Definition compareScores (a b : SearchResult) : comparison :=
  let d := (score b - score a)%float in
  if (d <? 0)%float then Lt else if (0 <? d)%float then Gt else Eq.

(** The callback of [results.map] in [boostRelevance]. *)
Definition boostOne (h : Host) (queryLower : string) (result : SearchResult)
  : Completion SearchResult :=
  let boostedScore := score result in
  let boostedScore :=
    if JS.includes (JS.toLowerCase (preferredLabel (occupation result))) queryLower
    then (boostedScore * 1.3)%float else boostedScore in
  let boostedScore :=
    if JS.includes (JS.toLowerCase (code (occupation result))) queryLower
    then (boostedScore * 1.2)%float else boostedScore in
  bind (RegExp_new h ("\b" ++ queryLower)) (fun wordBoundaryRegex =>
    let boostedScore :=
      if RegExp_test h wordBoundaryRegex (preferredLabel (occupation result))
      then (boostedScore * 1.1)%float else boostedScore in
    Normal (mkSearchResult (occupation result) boostedScore (matches result)
              (breadcrumb result))).

Definition boostRelevance (h : Host) (results : list SearchResult) (query : string)
  : Completion (list SearchResult) :=
  let queryLower := JS.toLowerCase query in
  bind (Array_map_throwing (boostOne h queryLower) results) (fun boosted =>
    Normal (JS.Array_sort compareScores boosted)).

(** [x || 0] on an optional number. *)
Definition orZero (x : option float) : float :=
  match x with
  | Some v => if PrimFloat.is_nan v || PrimFloat.is_zero v then 0%float else v
  | None => 0%float
  end.

Definition orEmpty (x : option string) : string :=
  match x with
  | Some v => v
  | None => ""
  end.

Definition toSearchResult (result : FuseResult) : SearchResult :=
  mkSearchResult (item result)
    (1 - orZero (fr_score result))%float
    (map (fun m => mkSearchMatch (orEmpty (fm_key m)) (orEmpty (fm_value m))
                     (match fm_indices m with Some i => i | None => [] end))
         (match fr_matches result with Some ms => ms | None => [] end))
    (generateBreadcrumb (item result)).

Definition search (h : Host) (this : t) (query : string) (filters : option SearchFilters)
  (limit : nat) : Completion (list SearchResult) :=
  if negb (JS.truthy (JS.trim query)) then
    Normal (JS.slice0 limit (getFilteredOccupations this filters))
  else
    let fuseResults := fuse this query (limit * 2) in
    let searchResults := map toSearchResult fuseResults in
    let searchResults :=
      match filters with
      | Some f => applyFilters searchResults f
      | None => searchResults
      end in
    bind (boostRelevance h searchResults query) (fun searchResults =>
      Normal (JS.slice0 limit searchResults)).

(** [Set<string>.add]. *)
Definition Set_add (x : string) (s : list string) : list string :=
  if JS.Array_includes s x then s else s ++ [x].

Definition getAvailableFilters (this : t) : list string * list string :=
  let iscoMajorGroups :=
    fold_left (fun acc occ =>
                 match JS.char0 (code occ) with
                 | Some c => Set_add c acc
                 | None => acc
                 end) (occupations this) [] in
  let occupationTypes :=
    fold_left (fun acc occ =>
                 if JS.truthy (occupationType occ) then Set_add (occupationType occ) acc
                 else acc) (occupations this) [] in
  (JS.Array_sort String.compare iscoMajorGroups,
   JS.Array_sort String.compare occupationTypes).

End EnhancedSearchEngine.

(* ================================================================== *)
(** ** lib/search.ts: the function after the class *)

Module SearchUtil.

Definition quote : string := String (ascii_of_nat 34) EmptyString.

(** The two tags of the template literal of [highlightMatches]. *)
Definition markOpen : string :=
  ("<mark class=" ++ quote ++ "bg-yellow-200 px-1 rounded" ++ quote ++ ">")%string.

Definition markClose : string := "</mark>".

(** The sign of [a[0] - b[0]], the comparator of the sort of the matches. *)
Definition compareStarts (a b : nat * nat) : comparison := Nat.compare (fst a) (fst b).

(** The body of the [for] loop, on the pair of [result] and [lastIndex]. *)
Definition highlightStep (text : string) (st : string * nat) (m : nat * nat)
  : string * nat :=
  let (result, lastIndex) := st in
  let (start, end_) := m in
  let result := (result ++ JS.slice text lastIndex start)%string in
  let result :=
    (result ++ markOpen ++ JS.slice text start (end_ + 1) ++ markClose)%string in
  (result, end_ + 1).

Definition highlightMatches (text : string) (matches : list (nat * nat)) : string :=
  if (List.length matches =? 0)%nat then text else
  let sortedMatches := JS.Array_sort compareStarts matches in
  let (result, lastIndex) := fold_left (highlightStep text) sortedMatches (""%string, 0) in
  (result ++ JS.sliceFrom text lastIndex)%string.

End SearchUtil.

(* ================================================================== *)
(** ** components/search-results.tsx *)

Module SearchResultsView.

(** What [HighlightedText] puts in its array: a string, or a [<mark>]
    element with its key and its text. *)
Inductive ReactNode : Type :=
| TextNode (s : string)
| MarkNode (key : nat) (s : string).

(** What [HighlightedText] returns: [<span>{text}</span>], or the fragment
    of its array. *)
Inductive Rendered : Type :=
| Span (s : string)
| Fragment (nodes : list ReactNode).

(** The callback of [sortedMatches.forEach], on [result], [lastIndex] and
    the index of the callback. *)
Definition highlightNode (text : string) (st : list ReactNode * nat * nat)
  (m : nat * nat) : list ReactNode * nat * nat :=
  let '(result, lastIndex, index) := st in
  let (start, end_) := m in
  let result :=
    if (lastIndex <? start)%nat then result ++ [TextNode (JS.slice text lastIndex start)]
    else result in
  let result := result ++ [MarkNode index (JS.slice text start (end_ + 1))] in
  (result, end_ + 1, S index).

Definition HighlightedText (text : string) (matches : list (nat * nat)) : Rendered :=
  if (List.length matches =? 0)%nat then Span text else
  let sortedMatches := JS.Array_sort SearchUtil.compareStarts matches in
  let '(result, lastIndex, _) :=
    fold_left (highlightNode text) sortedMatches ([], 0, 0) in
  let result :=
    if (lastIndex <? String.length text)%nat
    then result ++ [TextNode (JS.sliceFrom text lastIndex)]
    else result in
  Fragment result.

Definition getMatchesForField (matches : list EnhancedSearchEngine.SearchMatch)
  (fieldName : string) : list (nat * nat) :=
  flat_map EnhancedSearchEngine.indices
    (filter (fun m => String.eqb (EnhancedSearchEngine.key m) fieldName) matches).

End SearchResultsView.

(* ================================================================== *)
(** ** components/occupation-browser.tsx *)

Module Browser.

(** The table of the helper [getMajorGroupName] of the component. *)
Definition getMajorGroupName_names : list (string * string) :=
  [
     ("0", "Armed forces");
     ("1", "Managers");
     ("2", "Professionals");
     ("3", "Technicians");
     ("4", "Clerical support");
     ("5", "Service & sales");
     ("6", "Agricultural");
     ("7", "Craft workers");
     ("8", "Machine operators");
     ("9", "Elementary")
  ].

Definition getMajorGroupName (c : string) : string := nameOr getMajorGroupName_names c.

(** The memo [searchResults]: no engine yet, or a blank term, gives no
    result; else the engine is asked for 50 results. *)
Definition searchResults (h : Host) (searchEngine : option EnhancedSearchEngine.t)
  (debouncedSearchTerm : string) (searchFilters : EnhancedSearchEngine.SearchFilters)
  : Completion (list EnhancedSearchEngine.SearchResult) :=
  match searchEngine with
  | None => Normal []
  | Some engine =>
      if negb (JS.truthy (JS.trim debouncedSearchTerm)) then Normal []
      else EnhancedSearchEngine.search h engine debouncedSearchTerm (Some searchFilters) 50
  end.

(** The memo [organizedOccupations]: the tree, when there is no term. *)
Definition organizedOccupations (L : JS.Collation) (occupations : list Occupation)
  (debouncedSearchTerm : string) : list OccupationGroup :=
  if JS.truthy (JS.trim debouncedSearchTerm) then []
  else Occupations.organizeOccupations L occupations.

Definition isSearchMode (debouncedSearchTerm : string) : bool :=
  (0 <? String.length (JS.trim debouncedSearchTerm))%nat.

(** [Set<string>] as the list of its elements in insertion order. *)
Definition Set_has (s : list string) (x : string) : bool := existsb (String.eqb x) s.

Definition Set_delete (s : list string) (x : string) : list string :=
  filter (fun y => negb (String.eqb y x)) s.

Definition Set_add (s : list string) (x : string) : list string :=
  if Set_has s x then s else s ++ [x].

(** The updater that [toggleGroup] gives to [setExpandedGroups]. *)
Definition toggleGroup (code : string) (prev : list string) : list string :=
  let newSet := prev in
  if Set_has newSet code then Set_delete newSet code else Set_add newSet code.

Inductive FilterType : Type := IscoMajorGroups | OccupationTypes.

Definition facet (type : FilterType) (f : EnhancedSearchEngine.SearchFilters)
  : list string :=
  match type with
  | IscoMajorGroups => EnhancedSearchEngine.iscoMajorGroups f
  | OccupationTypes => EnhancedSearchEngine.occupationTypes f
  end.

(** The updater that [toggleFilter] gives to [setSearchFilters]. *)
Definition toggleFilter (type : FilterType) (value : string)
  (prev : EnhancedSearchEngine.SearchFilters) : EnhancedSearchEngine.SearchFilters :=
  let updated :=
    if JS.Array_includes (facet type prev) value
    then filter (fun v => negb (String.eqb v value)) (facet type prev)
    else facet type prev ++ [value] in
  match type with
  | IscoMajorGroups =>
      EnhancedSearchEngine.mkSearchFilters updated (EnhancedSearchEngine.occupationTypes prev)
  | OccupationTypes =>
      EnhancedSearchEngine.mkSearchFilters (EnhancedSearchEngine.iscoMajorGroups prev) updated
  end.

End Browser.

(* ================================================================== *)
(** ** The first version of the browser (the file without a name) *)

Module PlainBrowser.

(** The memo [filteredOccupations]: every record when there is no term, else
    the records with the lowercased term in the label, the code, the
    description or the alternate designations. *)
Definition filteredOccupations (occupations : list Occupation) (searchTerm : string)
  : list Occupation :=
  if negb (JS.truthy searchTerm) then occupations else
  let term := JS.toLowerCase searchTerm in
  filter (fun occ =>
            JS.includes (JS.toLowerCase (preferredLabel occ)) term
            || JS.includes (JS.toLowerCase (code occ)) term
            || JS.includes (JS.toLowerCase (coreDescription occ)) term
            || JS.includes (JS.toLowerCase (exampleAlternateDesignation occ)) term)
         occupations.

Definition organizedOccupations (L : JS.Collation) (occupations : list Occupation)
  (searchTerm : string) : list OccupationGroup :=
  Occupations.organizeOccupations L (filteredOccupations occupations searchTerm).

End PlainBrowser.

(* ================================================================== *)
(** ** Vocabulary of the statements *)

Import Occupations.

(** The part of a code before its first dot: [code.split('.')[0]]. *)
Definition mainCodeOf (o : Occupation) : string := JS.split_first "." (code o).

(** The records below a child, at any depth. *)
Fixpoint recordsOf (c : Child) : list Occupation :=
  match c with
  | GroupChild _ _ k => flat_map recordsOf k
  | OccChild o => [o]
  end.

(** The groups of a subtree, its root included. *)
Fixpoint subgroups (c : Child) : list Child :=
  match c with
  | GroupChild _ _ k => c :: flat_map subgroups k
  | OccChild _ => []
  end.

(** Every group of a returned tree, at any depth. *)
Definition allGroups (roots : list OccupationGroup) : list Child :=
  flat_map subgroups (map asChild roots).

Definition childrenOf (c : Child) : list Child :=
  match c with
  | GroupChild _ _ k => k
  | OccChild _ => []
  end.

Definition strictPrefix (a b : string) : Prop := prefix a b = true /\ a <> b.

(** [attached path o ch]: below the children [ch] there is a chain of groups
    with the codes of [path], and [o] is a direct child of the last one. *)
Fixpoint attached (path : list string) (o : Occupation) (ch : list Child) : Prop :=
  match path with
  | [] => In (OccChild o) ch
  | c :: p => exists name k, In (GroupChild c name k) ch /\ attached p o k
  end.

(** The chain of groups under which the callback of [organizeOccupations]
    pushes a record, read off the branches of the source (the third list is
    the branch "4-digit codes without 3-digit minor group"). *)
Definition placementPath (mainCode : string) : list string :=
  let majorGroup := JS.substring0 1 mainCode in
  let subMajorGroup := JS.substring0 2 mainCode in
  let minorGroup := JS.substring0 3 mainCode in
  let unitGroup := mainCode in
  if (String.length subMajorGroup =? 2)%nat then
    if (String.length minorGroup =? 3)%nat then
      if (String.length unitGroup =? 4)%nat
      then [majorGroup; subMajorGroup; minorGroup; unitGroup]
      else [majorGroup; subMajorGroup; minorGroup]
    else if (String.length unitGroup =? 4)%nat
      then [majorGroup; subMajorGroup; unitGroup]
      else [majorGroup; subMajorGroup]
  else [majorGroup].

(** The placement rule in the words of the specification: the unit group
    when the pre-dot code has at least four characters, else the minor
    group when it has three, else the sub-major group when it has two, else
    the major group. *)
Definition claimedPath (mainCode : string) : list string :=
  let majorGroup := JS.substring0 1 mainCode in
  let subMajorGroup := JS.substring0 2 mainCode in
  let minorGroup := JS.substring0 3 mainCode in
  let unitGroup := JS.substring0 4 mainCode in
  if (4 <=? String.length mainCode)%nat
  then [majorGroup; subMajorGroup; minorGroup; unitGroup]
  else if (String.length mainCode =? 3)%nat then [majorGroup; subMajorGroup; minorGroup]
  else if (String.length mainCode =? 2)%nat then [majorGroup; subMajorGroup]
  else [majorGroup].

(** Adjacent elements are in lexicographic order, code unit by code unit:
    the order in the words of the specification. *)
Definition adjacentSorted (l : list string) : Prop :=
  forall i a b, nth_error l i = Some a -> nth_error l (S i) = Some b ->
                String.leb a b = true.

(** Adjacent elements are in the order of the collation: [localeCompare]
    does not put the second before the first. *)
Definition ordered (L : JS.Collation) (l : list string) : Prop :=
  forall i a b, nth_error l i = Some a -> nth_error l (S i) = Some b ->
                JS.localeCompare L a b <> Gt.

(** The collation whose keys are the strings themselves: it compares code
    units. *)
Definition codeUnits : JS.Collation := JS.mkCollation (fun s => s).

(** A collation of the usual kind: strings compare without regard to case
    at first, and of two strings that differ by case only the one with the
    small letter comes first.  The key of a string is its lowercased form,
    the character of code 0, and the string with the case of the letters A
    to Z exchanged. *)
Definition swap_char (c : ascii) : ascii :=
  let n := nat_of_ascii c in
  if ((65 <=? n) && (n <=? 90))%nat then ascii_of_nat (n + 32)
  else if ((97 <=? n) && (n <=? 122))%nat then ascii_of_nat (n - 32)
  else c.

Fixpoint swapCase (s : string) : string :=
  match s with
  | EmptyString => EmptyString
  | String c r => String (swap_char c) (swapCase r)
  end.

Definition alphabetic : JS.Collation :=
  JS.mkCollation (fun s => (JS.toLowerCase s ++ String Ascii.zero (swapCase s))%string).

(** A collation in which two different strings compare as equal: the soft
    hyphen (U+00AD) has no weight, as in the Unicode collation algorithm,
    and the key of a string is the string without its soft hyphens. *)
Fixpoint withoutSoftHyphens (s : string) : string :=
  match s with
  | EmptyString => EmptyString
  | String c r =>
      if (nat_of_ascii c =? 173)%nat then withoutSoftHyphens r
      else String c (withoutSoftHyphens r)
  end.

Definition weightless : JS.Collation := JS.mkCollation withoutSoftHyphens.

(** A group at depth [d] has a code of [d] characters, [d] is at most 4, and
    its groups are at depth [d + 1]. *)
Fixpoint wellLevelled (d : nat) (c : Child) : Prop :=
  match c with
  | GroupChild gc _ k =>
      String.length gc = d /\ d <= 4 /\
      (fix all (l : list Child) : Prop :=
         match l with
         | [] => True
         | x :: r => wellLevelled (S d) x /\ all r
         end) k
  | OccChild _ => True
  end.

(* ------------------------------------------------------------------ *)
(** *** The insertion of one record, level by level *)

Definition levelName (lvl : nat) (c : string) : string :=
  match lvl with
  | 0 => getMajorGroupName c
  | 1 => getSubMajorGroupName c
  | 2 => getMinorGroupName c
  | _ => getUnitGroupName c
  end.

(** Find or create the group of each code of the path, and push the record
    under the last one. *)
Fixpoint insertPath (lvl : nat) (path : list string) (o : Occupation) (ch : list Child)
  : list Child :=
  match path with
  | [] => push o ch
  | c :: p => withGroup c (levelName lvl c) (insertPath (S lvl) p o) ch
  end.

(** The path of a record, [None] for a record that the callback skips. *)
Definition pathOf (o : Occupation) : option (list string) :=
  if JS.truthy (code o) && JS.truthy (mainCodeOf o)
  then Some (placementPath (mainCodeOf o)) else None.

Definition insertOccupation (ch : list Child) (o : Occupation) : list Child :=
  match pathOf o with
  | Some p => insertPath 0 p o ch
  | None => ch
  end.

(** The roots before the final sort, as children. *)
Definition unsorted (occupations : list Occupation) : list Child :=
  fold_left insertOccupation occupations [].

Definition sortForest (L : JS.Collation) (ch : list Child) : list Child :=
  JS.Array_sort (compareChildren L) (map (sortChild L) ch).

Definition keysOk (groups : GroupMap) : Prop :=
  Forall (fun kv => fst kv = group_code (snd kv)) groups.

(** The children of a group are in order of code. *)
Definition groupSorted (L : JS.Collation) (g : Child) : Prop :=
  ordered L (map childCode (childrenOf g)).

(** Every record below [c] has each code of [anc], and the code of each
    group on the way down to it, as a prefix of its code. *)
Fixpoint underPrefixes (anc : list string) (c : Child) : Prop :=
  match c with
  | GroupChild gc _ k =>
      (fix all (l : list Child) : Prop :=
         match l with
         | [] => True
         | x :: r => underPrefixes (gc :: anc) x /\ all r
         end) k
  | OccChild o => forall a, In a anc -> prefix a (code o) = true
  end.

(** The codes of a path have [d], [d + 1], ... characters, four at most. *)
Fixpoint levelsFrom (d : nat) (path : list string) : Prop :=
  match path with
  | [] => True
  | c :: p => String.length c = d /\ d <= 4 /\ levelsFrom (S d) p
  end.

(* ------------------------------------------------------------------ *)
(** *** The tree before the sort, as a function of the list of records *)

(** A record on its way down: the codes still to go, and the record. *)
Definition Item : Type := (list string * Occupation)%type.

(** What an item asks of the children it reaches: a group of its next code,
    or a place for its record. *)
Inductive Key : Type :=
| KGroup (c : string)
| KLeaf (o : Occupation).

Definition keyOf (it : Item) : Key :=
  match fst it with
  | [] => KLeaf (snd it)
  | c :: _ => KGroup c
  end.

Definition keyCode (k : Key) : string :=
  match k with
  | KGroup c => c
  | KLeaf o => code o
  end.

Definition seenGroup (c : string) (ks : list Key) : bool :=
  existsb (fun k => match k with KGroup c' => String.eqb c' c | KLeaf _ => false end) ks.

(** The children in order of insertion: every record that stops here, and
    each group at the first item that asks for it. *)
Definition addKey (acc : list Key) (it : Item) : list Key :=
  match keyOf it with
  | KLeaf o => acc ++ [KLeaf o]
  | KGroup c => if seenGroup c acc then acc else acc ++ [KGroup c]
  end.

Definition firsts (items : list Item) : list Key := fold_left addKey items [].

(** The items that go through the group of code [c], one step further. *)
Definition tails (c : string) (items : list Item) : list Item :=
  flat_map (fun it =>
              match fst it with
              | c' :: p => if String.eqb c' c then [(p, snd it)] else []
              | [] => []
              end) items.

Definition childOfKey (lvl : nat) (below : string -> list Child) (k : Key) : Child :=
  match k with
  | KLeaf o => OccChild o
  | KGroup c => GroupChild c (levelName lvl c) (below c)
  end.

Fixpoint build (fuel lvl : nat) (items : list Item) : list Child :=
  map (childOfKey lvl
         (fun c =>
            match fuel with
            | O => []
            | S fuel' => build fuel' (S lvl) (tails c items)
            end)) (firsts items).

Definition itemsOf (occupations : list Occupation) : list Item :=
  flat_map (fun o => match pathOf o with Some p => [(p, o)] | None => [] end) occupations.

Definition itemCode (it : Item) : string := code (snd it).

(** No record that stops at a depth has the code of a group of the next
    depth. *)
Definition separated (items : list Item) : Prop :=
  forall it1 it2 c, In it1 items -> In it2 items ->
    nth_error (fst it2) (List.length (fst it1)) = Some c -> c <> itemCode it1.

(** The codes that the items bring to the tree: the code of each record,
    and the codes of the groups on its path. *)
Definition itemCodes (items : list Item) : list string :=
  flat_map (fun it => itemCode it :: fst it) items.

(** No two different strings of [l] compare as equal in the collation. *)
Definition separates (L : JS.Collation) (l : list string) : Prop :=
  forall a b, In a l -> In b l -> JS.localeCompare L a b = Eq -> a = b.

(** The sort never finds a tie between two different children: different
    codes do not compare as equal, and items of the same code have the same
    record. *)
Definition untied (L : JS.Collation) (items : list Item) : Prop :=
  separates L (itemCodes items) /\
  forall it1 it2, In it1 items -> In it2 items ->
                  itemCode it1 = itemCode it2 -> snd it1 = snd it2.

(** The children of the group of code [c] in [build]. *)
Definition below (fuel lvl : nat) (items : list Item) (c : string) : list Child :=
  match fuel with
  | O => []
  | S fuel' => build fuel' (S lvl) (tails c items)
  end.


(** The group codes of a list of keys. *)
Definition groupCodes (ks : list Key) : list string :=
  flat_map (fun k => match k with KGroup c => [c] | KLeaf _ => [] end) ks.

(* ------------------------------------------------------------------ *)
(** *** Vocabulary of the statements on the engine *)

(** A query that is empty or made of white space only. *)
Definition blank (query : string) : Prop :=
  Forall (fun c => JS.is_space c = true) (list_ascii_of_string query).

(** The records that pass optional filters. *)
Definition passes (filters : option EnhancedSearchEngine.SearchFilters)
  (occ : Occupation) : bool :=
  match filters with
  | Some f => EnhancedSearchEngine.matchesFilters occ f
  | None => true
  end.

(** The filters in the words of the specification: a facet without a value
    keeps every record; a facet with values keeps the records whose value
    for the facet is one of them.  The value of a record for the major
    groups is the first character of its code, if there is one; for the
    occupation types it is its occupation type, if it is not empty.  A
    record without a value for a facet in use matches none. *)
Definition facetKeeps (values : list string) (v : option string) : bool :=
  match values with
  | [] => true
  | _ :: _ =>
      match v with
      | Some x => existsb (String.eqb x) values
      | None => false
      end
  end.

Definition satisfies (filters : option EnhancedSearchEngine.SearchFilters)
  (o : Occupation) : bool :=
  match filters with
  | None => true
  | Some f =>
      facetKeeps (EnhancedSearchEngine.iscoMajorGroups f) (JS.char0 (code o))
      && facetKeeps (EnhancedSearchEngine.occupationTypes f)
           (if JS.truthy (occupationType o) then Some (occupationType o) else None)
  end.

(** The result of the browse path for a record. *)
Definition browseResult (occ : Occupation) : EnhancedSearchEngine.SearchResult :=
  EnhancedSearchEngine.mkSearchResult occ 1%float []
    (EnhancedSearchEngine.generateBreadcrumb occ).

(** A host to run the engine on: its index returns every record with the
    score 0.25, its regular expressions match no subject. *)
Definition sampleHost : Host :=
  mkHost (fun occupations _ _ =>
            map (fun o => mkFuseResult o (Some 0.25%float) None) occupations)
         (fun _ _ => false)
         (fun _ => false).

(* ------------------------------------------------------------------ *)
(** *** Further vocabulary on the tree *)

(** The records that the callback of [organizeOccupations] does not skip:
    the code and its part before the first dot are not empty. *)
Definition placed (o : Occupation) : bool :=
  JS.truthy (code o) && JS.truthy (mainCodeOf o).

(** The codes of the nodes of the tree of a list of records: the code of
    every record that is placed, and the codes of the groups above it. *)
Definition nodeCodes (occupations : list Occupation) : list string :=
  flat_map (fun o => code o :: placementPath (mainCodeOf o)) (filter placed occupations).

(** Placed records of the same code are the same record. *)
Definition codeDetermines (occupations : list Occupation) : Prop :=
  forall o1 o2, In o1 occupations -> In o2 occupations ->
                placed o1 = true -> code o1 = code o2 -> o1 = o2.

(** The records of a returned tree, in the order of the tree. *)
Definition recordsOfTree (roots : list OccupationGroup) : list Occupation :=
  flat_map recordsOf (map asChild roots).

(** The codes of the groups among some children. *)
Definition childGroupCodes (ch : list Child) : list string :=
  flat_map (fun c => match c with GroupChild gc _ _ => [gc] | OccChild _ => [] end) ch.

(** [P] holds of the children of every group below (and of) a child. *)
Inductive Everywhere (P : list Child -> Prop) : Child -> Prop :=
| Everywhere_occ (o : Occupation) : Everywhere P (OccChild o)
| Everywhere_group (gc gn : string) (k : list Child) :
    P k -> Forall (Everywhere P) k -> Everywhere P (GroupChild gc gn k).

(** No tie among children: two children whose codes compare as equal in
    the collation are the same child. *)
Definition untiedChildren (L : JS.Collation) (k : list Child) : Prop :=
  forall x y, In x k -> In y k ->
              JS.localeCompare L (childCode x) (childCode y) = Eq -> x = y.

(** No tie in a returned tree: none among the roots, and none among the
    children of a group. *)
Definition noTies (L : JS.Collation) (roots : list OccupationGroup) : Prop :=
  untiedChildren L (map asChild roots) /\
  forall g, In g (allGroups roots) -> untiedChildren L (childrenOf g).

(** The same, on children. *)
Definition tieFree (L : JS.Collation) (ch : list Child) : Prop :=
  untiedChildren L ch /\ Forall (Everywhere (untiedChildren L)) ch.

(** A group at level [lvl] (0 for the roots) has a code of [lvl + 1]
    characters and the name that the table of its level gives to its code. *)
Fixpoint labelled (lvl : nat) (c : Child) : Prop :=
  match c with
  | GroupChild gc gn k =>
      String.length gc = S lvl /\ gn = levelName lvl gc /\
      (fix all (l : list Child) : Prop :=
         match l with
         | [] => True
         | x :: r => labelled (S lvl) x /\ all r
         end) k
  | OccChild _ => True
  end.

(** Every path of the items has at most [fuel] codes. *)
Definition fits (fuel : nat) (items : list Item) : Prop :=
  forall it, In it items -> List.length (fst it) <= fuel.

(** The records below a child, each with the codes of the groups down to
    it, in the order of the tree. *)
Fixpoint itemsIn (c : Child) : list Item :=
  match c with
  | GroupChild gc _ k => map (fun it => (gc :: fst it, snd it)) (flat_map itemsIn k)
  | OccChild o => [([], o)]
  end.

Definition keyOfChild (c : Child) : Key :=
  match c with
  | GroupChild gc _ _ => KGroup gc
  | OccChild o => KLeaf o
  end.

(** Children as the insertions leave them, down to [fuel] levels: the groups
    among them have different codes, and each group has the name of its
    level, a record below it, and children of the same kind. *)
Fixpoint proper (fuel lvl : nat) (ch : list Child) : Prop :=
  NoDup (childGroupCodes ch) /\
  Forall (fun c =>
            match c with
            | GroupChild gc gn k =>
                gn = levelName lvl gc /\ flat_map itemsIn k <> [] /\
                match fuel with
                | O => False
                | S fuel' => proper fuel' (S lvl) k
                end
            | OccChild _ => True
            end) ch.

(** What [getAvailableFilters] adds to each of its sets for a record. *)
Definition majorOf (o : Occupation) : option string := JS.char0 (code o).

Definition typeOf (o : Occupation) : option string :=
  if JS.truthy (occupationType o) then Some (occupationType o) else None.

(** The candidates of a query that pass the filters: what [search] hands to
    [boostRelevance], before the conversion of each candidate. *)
Definition keptCandidates (this : EnhancedSearchEngine.t) (query : string)
  (filters : option EnhancedSearchEngine.SearchFilters) (limit : nat) : list FuseResult :=
  filter (fun r => passes filters (item r)) (EnhancedSearchEngine.fuse this query (limit * 2)).

(* ------------------------------------------------------------------ *)
(** *** Vocabulary on the highlighting *)

(** The strings of a list, one after the other. *)
Definition joinAll (l : list string) : string := fold_right String.append "" l.

Definition nodeText (n : SearchResultsView.ReactNode) : string :=
  match n with
  | SearchResultsView.TextNode s => s
  | SearchResultsView.MarkNode _ s => s
  end.

(** The text that a rendering of [HighlightedText] shows. *)
Definition textContent (r : SearchResultsView.Rendered) : string :=
  match r with
  | SearchResultsView.Span s => s
  | SearchResultsView.Fragment nodes => joinAll (map nodeText nodes)
  end.

(** The rendering with the tags of [highlightMatches] around the marked
    parts. *)
Definition nodeMarkup (n : SearchResultsView.ReactNode) : string :=
  match n with
  | SearchResultsView.TextNode s => s
  | SearchResultsView.MarkNode _ s =>
      (SearchUtil.markOpen ++ s ++ SearchUtil.markClose)%string
  end.

Definition markupOf (r : SearchResultsView.Rendered) : string :=
  match r with
  | SearchResultsView.Span s => s
  | SearchResultsView.Fragment nodes => joinAll (map nodeMarkup nodes)
  end.

(** Ranges [(start, end)], [end] included, that follow one another from the
    index [from] on, without overlap. *)
Fixpoint disjointFrom (from : nat) (ms : list (nat * nat)) : Prop :=
  match ms with
  | [] => True
  | (s, e) :: r => from <= s /\ s <= e + 1 /\ disjointFrom (e + 1) r
  end.

(* ------------------------------------------------------------------ *)
(** *** Vocabulary on the names and the breadcrumb *)

(** The name that the engine gives to a group of a level. *)
Definition engineLevelName (lvl : nat) (c : string) : string :=
  match lvl with
  | 0 => EnhancedSearchEngine.getMajorGroupName c
  | 1 => EnhancedSearchEngine.getSubMajorGroupName c
  | _ => EnhancedSearchEngine.getMinorGroupName c
  end.

(** The crumbs of the first three groups of a path, with the names of the
    engine. *)
Definition crumbs (path : list string) : list string :=
  map (fun lc => (snd lc ++ " - " ++ engineLevelName (fst lc) (snd lc))%string)
      (combine (seq 0 3) path).

(** What the first browser looks for in a record. *)
Definition termMatches (searchTerm : string) (occ : Occupation) : bool :=
  negb (JS.truthy searchTerm)
  || (JS.includes (JS.toLowerCase (preferredLabel occ)) (JS.toLowerCase searchTerm)
      || JS.includes (JS.toLowerCase (code occ)) (JS.toLowerCase searchTerm)
      || JS.includes (JS.toLowerCase (coreDescription occ)) (JS.toLowerCase searchTerm)
      || JS.includes (JS.toLowerCase (exampleAlternateDesignation occ))
           (JS.toLowerCase searchTerm)).

(* ================================================================== *)
(** ** Proofs *)

(* ------------------------------------------------------------------ *)
(** *** Induction on children *)

Lemma Child_ind_nested (P : Child -> Prop) :
  (forall o, P (OccChild o)) ->
  (forall gc gn k, Forall P k -> P (GroupChild gc gn k)) ->
  forall c, P c.
Proof.
  intros Hocc Hgroup.
  fix IH 1.
  intros [gc gn k | o].
  - apply Hgroup. induction k as [| x k IHk]; constructor; [apply IH | exact IHk].
  - apply Hocc.
Qed.

(* ------------------------------------------------------------------ *)
(** *** The stable sort *)

Section SortFacts.
Context {A : Type} (cmp : A -> A -> comparison).

Lemma sort_insert_perm (x : A) (l : list A) :
  Permutation (JS.sort_insert cmp x l) (x :: l).
Proof.
  induction l as [| y l IH]; simpl; [reflexivity |].
  destruct (cmp x y); try reflexivity.
  rewrite IH. apply perm_swap.
Qed.

Lemma Array_sort_perm (l : list A) : Permutation (JS.Array_sort cmp l) l.
Proof.
  induction l as [| x l IH]; simpl; [reflexivity |].
  unfold JS.Array_sort in *. simpl.
  rewrite sort_insert_perm. now constructor.
Qed.

Lemma Array_sort_In (l : list A) (x : A) : In x (JS.Array_sort cmp l) <-> In x l.
Proof.
  split; apply Permutation_in; [| symmetry]; apply Array_sort_perm.
Qed.

Lemma Array_sort_cons (x : A) (l : list A) :
  JS.Array_sort cmp (x :: l) = JS.sort_insert cmp x (JS.Array_sort cmp l).
Proof. reflexivity. Qed.
End SortFacts.

(** Sorting commutes with a map that preserves the comparator. *)
Lemma Array_sort_map {A B : Type} (cmpA : A -> A -> comparison)
  (cmpB : B -> B -> comparison) (f : A -> B) :
  (forall a b, cmpB (f a) (f b) = cmpA a b) ->
  forall l, JS.Array_sort cmpB (map f l) = map f (JS.Array_sort cmpA l).
Proof.
  intros Hf l. induction l as [| x l IH]; [reflexivity |].
  simpl map. rewrite !Array_sort_cons, IH.
  generalize (JS.Array_sort cmpA l) as s. clear IH.
  induction s as [| y s IH]; simpl; [reflexivity |].
  rewrite Hf. destruct (cmpA x y); simpl; try reflexivity.
  now rewrite IH.
Qed.

(* ------------------------------------------------------------------ *)
(** *** [organizeOccupations] inserts the records one by one *)

Lemma childCode_sortChild (L : JS.Collation) (c : Child) :
  childCode (sortChild L c) = childCode c.
Proof. destruct c; reflexivity. Qed.

Lemma asChild_sortChildren (L : JS.Collation) (g : OccupationGroup) :
  asChild (sortChildren L g) = sortChild L (asChild g).
Proof. reflexivity. Qed.

(** The order of the source: the list is sorted, then each child is. *)
Lemma sortChild_eq (L : JS.Collation) (gc gn : string) (k : list Child) :
  sortChild L (GroupChild gc gn k)
  = GroupChild gc gn (map (sortChild L) (JS.Array_sort (compareChildren L) k)).
Proof.
  simpl. f_equal. apply Array_sort_map.
  intros a b. unfold compareChildren. now rewrite !childCode_sortChild.
Qed.

Lemma sortChildren_eq (L : JS.Collation) (group : OccupationGroup) :
  sortChildren L group
  = mkGroup (group_code group) (group_name group)
      (map (sortChild L) (JS.Array_sort (compareChildren L) (children group))).
Proof.
  unfold sortChildren. f_equal. apply Array_sort_map.
  intros a b. unfold compareChildren. now rewrite !childCode_sortChild.
Qed.

Lemma placeOccupation_insertPath (o : Occupation) (m : string) (ch : list Child) :
  placeOccupation o m ch = insertPath 1 (tl (placementPath m)) o ch.
Proof.
  destruct m as [| a [| b [| c [| d [| e m]]]]]; reflexivity.
Qed.

Lemma hasGroup_asChild (k : string) (m : GroupMap) :
  keysOk m -> hasGroup k (map asChild (Map_values m)) = Map_has k m.
Proof.
  induction 1 as [| [k' g] m Hk _ IH]; [reflexivity |].
  simpl in *. subst k'. now rewrite IH.
Qed.

Lemma Map_set_cons_ne k v k' v' m : String.eqb k' k = false ->
  Map_set k v ((k', v') :: m) = (k', v') :: Map_set k v m.
Proof. intros E. simpl. now rewrite E. Qed.

Lemma Map_step (k name : string) (f : list Child -> list Child) (m : GroupMap) :
  keysOk m ->
  let m1 := if Map_has k m then m else Map_set k (mkGroup k name []) m in
  exists g, Map_get k m1 = Some g /\
    let m2 := Map_set k (mkGroup (group_code g) (group_name g) (f (children g))) m1 in
    keysOk m2 /\
    map asChild (Map_values m2) = withGroup k name f (map asChild (Map_values m)).
Proof.
  induction 1 as [| [k' g'] m Hk Hm IH].
  - cbn. rewrite String.eqb_refl. eexists; split; [reflexivity |].
    cbn. rewrite ?String.eqb_refl. split.
    + repeat constructor.
    + reflexivity.
  - cbn in Hk. subst k'. cbn zeta in IH.
    destruct IH as (g & Hget & Hok & Heq).
    unfold withGroup in *.
    destruct (String.eqb (group_code g') k) eqn:E.
    + exists g'. cbn. rewrite ?E. cbn. rewrite ?E. split; [reflexivity |]. cbn. rewrite ?E.
      apply String.eqb_eq in E. split.
      * constructor; [now cbn | exact Hm].
      * reflexivity.
    + exists g.
      assert (Hhas : Map_has k ((group_code g', g') :: m) = Map_has k m)
        by (unfold Map_has; cbn; now rewrite E).
      assert (Hg : hasGroup k (map asChild (Map_values ((group_code g', g') :: m)))
                   = hasGroup k (map asChild (Map_values m)))
        by (cbn; now rewrite E).
      cbn zeta. rewrite Hhas, Hg.
      destruct (Map_has k m); destruct (hasGroup k (map asChild (Map_values m)));
        rewrite ?(Map_set_cons_ne _ _ _ _ _ E);
        (split; [cbn; now rewrite E |]);
        (split; [constructor; [reflexivity | exact Hok] |]);
        cbn [Map_values map snd app updateGroup asChild]; rewrite ?E;
        f_equal; exact Heq.
Qed.

Lemma char0_substring0 (m : string) :
  m <> "" -> JS.char0 m = Some (JS.substring0 1 m).
Proof. destruct m as [| a m]; [congruence |]. intros _. now destruct m. Qed.

Lemma placementPath_head (m : string) :
  exists p, placementPath m = JS.substring0 1 m :: p.
Proof.
  unfold placementPath.
  repeat match goal with |- context [if ?b then _ else _] => destruct b end;
    eexists; reflexivity.
Qed.

Lemma truthy_false (s : string) : JS.truthy s = false <-> s = "".
Proof. destruct s; simpl; split; congruence. Qed.

Lemma truthy_true (s : string) : JS.truthy s = true <-> s <> "".
Proof. destruct s; simpl; split; congruence. Qed.

Lemma length_lt_1 (s : string) : (String.length s <? 1)%nat = negb (JS.truthy s).
Proof. now destruct s. Qed.

Lemma updateGroup_ext (c : string) (f g : list Child -> list Child) (l : list Child) :
  (forall ch, f ch = g ch) -> updateGroup c f l = updateGroup c g l.
Proof.
  intros Hfg. induction l as [| [gc gn k | o] l IH]; simpl; [reflexivity | |].
  - destruct (String.eqb gc c); [now rewrite Hfg | now rewrite IH].
  - now rewrite IH.
Qed.

Lemma withGroup_ext (c name : string) (f g : list Child -> list Child) (l : list Child) :
  (forall ch, f ch = g ch) -> withGroup c name f l = withGroup c name g l.
Proof. intros Hfg. unfold withGroup. now apply updateGroup_ext. Qed.

(** One run of the callback on the map is one insertion on the roots. *)
Lemma addOccupation_spec (groups : GroupMap) (o : Occupation) :
  keysOk groups ->
  keysOk (addOccupation groups o) /\
  map asChild (Map_values (addOccupation groups o))
  = insertOccupation (map asChild (Map_values groups)) o.
Proof.
  intros Hk. unfold addOccupation, insertOccupation, pathOf, mainCodeOf.
  destruct (JS.truthy (code o)); simpl; [| now split].
  rewrite length_lt_1, orb_diag.
  destruct (JS.truthy (JS.split_first "." (code o))) eqn:Hm; simpl; [| now split].
  apply truthy_true in Hm.
  rewrite (char0_substring0 _ Hm).
  destruct (placementPath_head (JS.split_first "." (code o))) as [p Hp].
  pose proof (placeOccupation_insertPath o (JS.split_first "." (code o))) as Hplace.
  rewrite Hp in *. simpl in Hplace. simpl insertPath.
  destruct (Map_step (JS.substring0 1 (JS.split_first "." (code o)))
              (getMajorGroupName (JS.substring0 1 (JS.split_first "." (code o))))
              (placeOccupation o (JS.split_first "." (code o))) groups Hk)
    as (g & Hget & Hok & Heq).
  rewrite Hget. split; [exact Hok |].
  rewrite Heq. apply withGroup_ext. exact Hplace.
Qed.

Lemma fold_addOccupation (occupations : list Occupation) (groups : GroupMap) :
  keysOk groups ->
  map asChild (Map_values (fold_left addOccupation occupations groups))
  = fold_left insertOccupation occupations (map asChild (Map_values groups)).
Proof.
  revert groups. induction occupations as [| o l IH]; intros groups Hk; [reflexivity |].
  simpl. destruct (addOccupation_spec groups o Hk) as [Hk' Heq].
  rewrite IH by exact Hk'. now rewrite Heq.
Qed.

(** The returned roots, as children: the sorted form of the insertions. *)
Lemma organizeOccupations_sortForest (L : JS.Collation) (occupations : list Occupation) :
  map asChild (organizeOccupations L occupations) = sortForest L (unsorted occupations).
Proof.
  unfold organizeOccupations, sortForest, unsorted.
  rewrite map_map.
  rewrite (map_ext _ (fun g => sortChild L (asChild g)) (asChild_sortChildren L)).
  rewrite <- map_map.
  rewrite <- (Array_sort_map (compareGroups L) (compareChildren L) asChild) by reflexivity.
  rewrite (fold_addOccupation occupations []) by constructor.
  simpl. symmetry. apply Array_sort_map.
  intros a b. unfold compareChildren. now rewrite !childCode_sortChild.
Qed.


(* ------------------------------------------------------------------ *)
(** *** Sortedness *)

Section SortSorted.
Context {A : Type} (cmp : A -> A -> comparison).
Hypothesis cmp_total : forall a b, cmp a b = Gt -> cmp b a <> Gt.

Let le (a b : A) : Prop := cmp a b <> Gt.

Lemma sort_insert_HdRel (y x : A) (l : list A) :
  le y x -> HdRel le y l -> HdRel le y (JS.sort_insert cmp x l).
Proof.
  intros Hyx Hl. destruct l as [| z l]; simpl; [now constructor |].
  destruct (cmp x z); constructor; trivial; now inversion Hl.
Qed.

Lemma sort_insert_sorted (x : A) (l : list A) :
  Sorted le l -> Sorted le (JS.sort_insert cmp x l).
Proof.
  induction 1 as [| y l Hs IH Hd]; simpl; [repeat constructor |].
  destruct (cmp x y) eqn:E.
  - constructor; [now constructor |]. constructor. unfold le. congruence.
  - constructor; [now constructor |]. constructor. unfold le. congruence.
  - constructor; [exact IH |].
    apply sort_insert_HdRel; [now apply cmp_total | exact Hd].
Qed.

Lemma Array_sort_sorted (l : list A) : Sorted le (JS.Array_sort cmp l).
Proof.
  induction l as [| x l IH]; [constructor |].
  rewrite Array_sort_cons. now apply sort_insert_sorted.
Qed.
End SortSorted.

Lemma compare_total (a b : string) : String.compare a b = Gt -> String.compare b a <> Gt.
Proof. intros H. rewrite String.compare_antisym, H. discriminate. Qed.

Lemma leb_compare (a b : string) : String.leb a b = true <-> String.compare a b <> Gt.
Proof. unfold String.leb. destruct (String.compare a b); split; congruence. Qed.

Lemma leb_trans (a b c : string) :
  String.leb a b = true -> String.leb b c = true -> String.leb a c = true.
Proof.
  rewrite !leb_compare. intros Hab Hbc.
  destruct (String.compare a b) eqn:E1; [| | congruence].
  - apply String.compare_eq_iff in E1. now subst.
  - destruct (String.compare b c) eqn:E2; [| | congruence].
    + apply String.compare_eq_iff in E2. subst. congruence.
    + apply String_as_OT.cmp_lt in E1, E2.
      pose proof (String_as_OT.lt_trans _ _ _ E1 E2) as H.
      apply String_as_OT.cmp_lt in H. unfold String_as_OT.cmp in H. congruence.
Qed.

(** The comparison of a collation is a total preorder: the strings are in
    the order of their keys. *)
Lemma localeCompare_antisym (L : JS.Collation) (a b : string) :
  JS.localeCompare L b a = CompOpp (JS.localeCompare L a b).
Proof. unfold JS.localeCompare. apply String.compare_antisym. Qed.

Lemma localeCompare_total (L : JS.Collation) (a b : string) :
  JS.localeCompare L a b = Gt -> JS.localeCompare L b a <> Gt.
Proof. unfold JS.localeCompare. apply compare_total. Qed.

Lemma localeCompare_trans (L : JS.Collation) (a b c : string) :
  JS.localeCompare L a b <> Gt -> JS.localeCompare L b c <> Gt ->
  JS.localeCompare L a c <> Gt.
Proof. unfold JS.localeCompare. rewrite <- !leb_compare. apply leb_trans. Qed.

Lemma localeCompare_tie (L : JS.Collation) (a b : string) :
  JS.localeCompare L a b <> Gt -> JS.localeCompare L b a <> Gt ->
  JS.localeCompare L a b = Eq.
Proof.
  rewrite (localeCompare_antisym L a b).
  destruct (JS.localeCompare L a b); simpl; congruence.
Qed.

Lemma localeCompare_codeUnits (a b : string) :
  JS.localeCompare codeUnits a b = String.compare a b.
Proof. reflexivity. Qed.

Lemma Sorted_adjacent {A : Type} (R : A -> A -> Prop) (l : list A) :
  Sorted R l ->
  forall i a b, nth_error l i = Some a -> nth_error l (S i) = Some b -> R a b.
Proof.
  induction 1 as [| x l Hs IH Hd]; intros i a b Ha Hb.
  - now destruct i.
  - destruct i as [| i]; simpl in *.
    + injection Ha as <-. destruct l as [| y l]; [discriminate |].
      injection Hb as <-. now inversion Hd.
    + eapply IH; eassumption.
Qed.

(** A list sorted by the comparator of the source has its keys in order. *)
Lemma sorted_by_code {A : Type} (L : JS.Collation) (key : A -> string) (l : list A) :
  ordered L
    (map key (JS.Array_sort (fun a b => JS.localeCompare L (key a) (key b)) l)).
Proof.
  intros i a b Ha Hb.
  rewrite nth_error_map in Ha, Hb.
  destruct (nth_error _ i) as [x |] eqn:Hx; [| discriminate].
  destruct (nth_error _ (S i)) as [y |] eqn:Hy; [| discriminate].
  injection Ha as <-. injection Hb as <-.
  refine (Sorted_adjacent _ _ (Array_sort_sorted _ _ l) i x y Hx Hy).
  intros u v. apply localeCompare_total.
Qed.

Lemma sortChild_groupSorted (L : JS.Collation) (c : Child) :
  Forall (groupSorted L) (subgroups (sortChild L c)).
Proof.
  induction c as [o | gc gn k IH] using Child_ind_nested; [constructor |].
  simpl. constructor.
  - apply (sorted_by_code L childCode).
  - apply Forall_flat_map, Forall_forall. intros x Hx.
    apply Array_sort_In, in_map_iff in Hx as (y & <- & Hy).
    rewrite Forall_forall in IH. now apply IH.
Qed.

Lemma tree_ordered (L : JS.Collation) (occupations : list Occupation) :
  ordered L (map group_code (organizeOccupations L occupations)) /\
  forall g, In g (allGroups (organizeOccupations L occupations)) ->
            ordered L (map childCode (childrenOf g)).
Proof.
  split.
  - unfold organizeOccupations. rewrite map_map. simpl.
    apply (sorted_by_code L group_code).
  - intros g Hg. unfold allGroups in Hg.
    rewrite organizeOccupations_sortForest in Hg.
    apply in_flat_map in Hg as (x & Hx & Hg).
    apply Array_sort_In, in_map_iff in Hx as (y & <- & _).
    pose proof (sortChild_groupSorted L y) as Hs.
    rewrite Forall_forall in Hs. now apply Hs.
Qed.

Lemma ordered_codeUnits (l : list string) : ordered codeUnits l -> adjacentSorted l.
Proof. intros H i a b Ha Hb. apply leb_compare. exact (H i a b Ha Hb). Qed.

(** C7, as amended: in every returned tree the root list and the children
    of every group, at any depth, are in the order of the collation of the
    host on every adjacent pair: [localeCompare] does not put the code of
    the second before the code of the first.  The key is [childCode], the
    code of a group or of a record alike.  Where the collation compares
    code units, this is the lexicographic order of the claim. *)
Theorem children_sorted_by_code (occupations : list Occupation) :
  (forall L,
     ordered L (map group_code (organizeOccupations L occupations)) /\
     forall g, In g (allGroups (organizeOccupations L occupations)) ->
               ordered L (map childCode (childrenOf g))) /\
  (adjacentSorted (map group_code (organizeOccupations codeUnits occupations)) /\
   forall g, In g (allGroups (organizeOccupations codeUnits occupations)) ->
             adjacentSorted (map childCode (childrenOf g))).
Proof.
  split; [intros L; apply tree_ordered |].
  destruct (tree_ordered codeUnits occupations) as [Hr Hg]. split.
  - now apply ordered_codeUnits.
  - intros g Hin. now apply ordered_codeUnits, Hg.
Qed.

Lemma children_sorted_by_code_witness :
  let occupations :=
    [occupationOf "B1" "Builders"; occupationOf "a2" "Artists";
     occupationOf "a1" "Actors"] in
  let g := GroupChild "a" "Group a"
             [GroupChild "a1" "Group a1" [OccChild (occupationOf "a1" "Actors")];
              GroupChild "a2" "Group a2" [OccChild (occupationOf "a2" "Artists")]] in
  map group_code (organizeOccupations alphabetic occupations) = ["a"; "B"] /\
  In g (allGroups (organizeOccupations alphabetic occupations)) /\
  ordered alphabetic (map childCode (childrenOf g)).
Proof.
  intros occupations g.
  assert (H : In g (allGroups (organizeOccupations alphabetic occupations)))
    by (vm_compute; tauto).
  split; [reflexivity |]. split; [exact H |].
  exact (proj2 (proj1 (children_sorted_by_code occupations) alphabetic) g H).
Defined.

(** C7, as stated, fails: the order of the sort is the order of the
    collation, which need not be the lexicographic order of the code units.
    A collation of the usual kind puts the group ["a"] before the group
    ["B"], and ["B"] is before ["a"] in the lexicographic order. *)
Lemma lexicographic_order_counterexample :
  let occupations := [occupationOf "B1" "Builders"; occupationOf "a1" "Actors"] in
  map group_code (organizeOccupations alphabetic occupations) = ["a"; "B"] /\
  JS.localeCompare alphabetic "a" "B" = Lt /\
  String.leb "a" "B" = false /\
  ~ adjacentSorted (map group_code (organizeOccupations alphabetic occupations)).
Proof.
  intros occupations. repeat split; try reflexivity.
  intros H. specialize (H 0 "a" "B" eq_refl eq_refl). discriminate H.
Qed.

(* ------------------------------------------------------------------ *)
(** *** Strings: prefixes *)

Lemma prefix_refl (s : string) : prefix s s = true.
Proof. induction s as [| a s IH]; simpl; [reflexivity |]. now destruct (ascii_dec a a). Qed.

Lemma prefix_trans (a b c : string) :
  prefix a b = true -> prefix b c = true -> prefix a c = true.
Proof.
  revert b c. induction a as [| x a IH]; intros b c Hab Hbc; [now destruct c |].
  destruct b as [| y b]; [discriminate |]. destruct c as [| z c]; [discriminate |].
  simpl in *.
  destruct (ascii_dec x y) as [-> |]; [| discriminate].
  destruct (ascii_dec y z) as [-> |]; [| discriminate].
  eauto.
Qed.

Lemma prefix_substring0 (n : nat) (s : string) : prefix (JS.substring0 n s) s = true.
Proof.
  unfold JS.substring0. revert n.
  induction s as [| a s IH]; intros [| n]; simpl; try reflexivity.
  destruct (ascii_dec a a); [apply IH | congruence].
Qed.

Lemma prefix_split_first (sep : ascii) (s : string) : prefix (JS.split_first sep s) s = true.
Proof.
  induction s as [| a s IH]; simpl; [reflexivity |].
  destruct (Ascii.eqb a sep); simpl; [reflexivity |].
  destruct (ascii_dec a a); [exact IH | congruence].
Qed.

Lemma placementPath_prefixes (m a : string) :
  In a (placementPath m) -> prefix a m = true.
Proof.
  unfold placementPath.
  repeat match goal with |- context [if ?b then _ else _] => destruct b end;
    simpl; intros H; repeat (destruct H as [<- | H]); try contradiction;
    auto using prefix_substring0, prefix_refl.
Qed.

Lemma pathOf_prefixes (o : Occupation) (p : list string) (a : string) :
  pathOf o = Some p -> In a p -> prefix a (code o) = true.
Proof.
  unfold pathOf. destruct (_ && _); [| discriminate]. intros [= <-] Ha.
  eapply prefix_trans; [apply placementPath_prefixes, Ha |].
  apply prefix_split_first.
Qed.

(* ------------------------------------------------------------------ *)
(** *** Invariants of the insertions *)

Lemma updateGroup_Forall (P : Child -> Prop) (c : string)
  (f : list Child -> list Child) (l : list Child) :
  (forall gn k, P (GroupChild c gn k) -> P (GroupChild c gn (f k))) ->
  Forall P l -> Forall P (updateGroup c f l).
Proof.
  intros Hf. induction 1 as [| [gc gn k | o] l Hx Hl IH]; simpl; [constructor | |].
  - destruct (String.eqb gc c) eqn:E.
    + apply String.eqb_eq in E. subst gc. constructor; auto.
    + constructor; auto.
  - constructor; auto.
Qed.

Lemma withGroup_Forall (P : Child -> Prop) (c name : string)
  (f : list Child -> list Child) (l : list Child) :
  (forall gn k, P (GroupChild c gn k) -> P (GroupChild c gn (f k))) ->
  P (GroupChild c name []) ->
  Forall P l -> Forall P (withGroup c name f l).
Proof.
  intros Hf Hnew Hl. unfold withGroup. apply updateGroup_Forall; [exact Hf |].
  destruct (hasGroup c l); [exact Hl |].
  apply Forall_app. split; [exact Hl | now constructor].
Qed.

Lemma underPrefixes_group (anc : list string) (gc gn : string) (k : list Child) :
  underPrefixes anc (GroupChild gc gn k) <-> Forall (underPrefixes (gc :: anc)) k.
Proof.
  simpl. induction k as [| x k IH]; split; intros H.
  - constructor.
  - exact I.
  - destruct H as [Hx Hk]. constructor; [exact Hx | now apply IH].
  - inversion H; subst. split; [assumption | now apply IH].
Qed.

Lemma insertPath_underPrefixes (o : Occupation) (p : list string) :
  forall lvl anc ch,
    (forall a, In a anc -> prefix a (code o) = true) ->
    (forall a, In a p -> prefix a (code o) = true) ->
    Forall (underPrefixes anc) ch ->
    Forall (underPrefixes anc) (insertPath lvl p o ch).
Proof.
  induction p as [| c p IH]; intros lvl anc ch Hanc Hp Hch; simpl.
  - unfold push. apply Forall_app. split; [exact Hch |]. constructor; [| constructor].
    exact Hanc.
  - apply withGroup_Forall; [| now apply underPrefixes_group | exact Hch].
    intros gn k Hk. apply underPrefixes_group. apply underPrefixes_group in Hk.
    apply IH; [| | exact Hk].
    + intros a [<- | Ha]; [apply Hp; now left | now apply Hanc].
    + intros a Ha. apply Hp. now right.
Qed.

Lemma unsorted_underPrefixes (occupations : list Occupation) :
  Forall (underPrefixes []) (unsorted occupations).
Proof.
  unfold unsorted.
  assert (H : forall ch, Forall (underPrefixes []) ch ->
                         Forall (underPrefixes []) (fold_left insertOccupation occupations ch)).
  { induction occupations as [| o l IH]; intros ch Hch; [exact Hch |].
    simpl. apply IH. unfold insertOccupation.
    destruct (pathOf o) as [p |] eqn:Hp; [| exact Hch].
    apply insertPath_underPrefixes; [intros a [] | | exact Hch].
    intros a Ha. eapply pathOf_prefixes; eassumption. }
  apply H. constructor.
Qed.

Lemma sortChild_underPrefixes (L : JS.Collation) (c : Child) :
  forall anc, underPrefixes anc c -> underPrefixes anc (sortChild L c).
Proof.
  induction c as [o | gc gn k IH] using Child_ind_nested; intros anc H; [exact H |].
  simpl sortChild. apply underPrefixes_group. apply underPrefixes_group in H.
  apply Forall_forall. intros x Hx.
  apply Array_sort_In, in_map_iff in Hx as (y & <- & Hy).
  rewrite Forall_forall in IH, H. apply IH; auto.
Qed.

Lemma underPrefixes_records (c : Child) :
  forall anc, underPrefixes anc c ->
    forall o a, In o (recordsOf c) -> In a anc -> prefix a (code o) = true.
Proof.
  induction c as [o' | gc gn k IH] using Child_ind_nested; intros anc H o a Ho Ha.
  - destruct Ho as [<- | []]. now apply H.
  - apply underPrefixes_group in H. simpl in Ho.
    apply in_flat_map in Ho as (x & Hx & Ho).
    rewrite Forall_forall in IH, H.
    apply (IH x Hx (gc :: anc) (H x Hx) o a Ho). now right.
Qed.

Lemma underPrefixes_subgroups (c : Child) :
  forall anc, underPrefixes anc c ->
    forall g o, In g (subgroups c) -> In o (recordsOf g) ->
                prefix (childCode g) (code o) = true.
Proof.
  induction c as [o' | gc gn k IH] using Child_ind_nested; intros anc H g o Hg Ho.
  - destruct Hg.
  - pose proof H as H'. apply underPrefixes_group in H'.
    rewrite Forall_forall in IH, H'.
    destruct Hg as [<- | Hg].
    + simpl in Ho. apply in_flat_map in Ho as (x & Hx & Ho).
      apply (underPrefixes_records x (gc :: anc) (H' x Hx) o gc Ho). now left.
    + apply in_flat_map in Hg as (x & Hx & Hg).
      apply (IH x Hx (gc :: anc) (H' x Hx) g o Hg Ho).
Qed.

(** C3, as amended: in every returned tree the code of each group is a
    prefix of the code of every record below it (it may be the whole code:
    a unit group has the code of its records without a dotted suffix). *)
Theorem group_code_prefix_of_descendants (L : JS.Collation)
  (occupations : list Occupation)
  (g : Child) (o : Occupation) :
  In g (allGroups (organizeOccupations L occupations)) ->
  In o (recordsOf g) ->
  prefix (childCode g) (code o) = true.
Proof.
  unfold allGroups. rewrite organizeOccupations_sortForest.
  intros Hg Ho. apply in_flat_map in Hg as (x & Hx & Hg).
  apply Array_sort_In, in_map_iff in Hx as (y & <- & Hy).
  pose proof (unsorted_underPrefixes occupations) as Hu.
  rewrite Forall_forall in Hu.
  eapply underPrefixes_subgroups; [apply sortChild_underPrefixes, Hu, Hy | |]; eassumption.
Qed.

Lemma group_code_prefix_of_descendants_witness :
  let o := occupationOf "2512.1" "Web developer" in
  let g := GroupChild "251" "Software and applications developers and analysts"
             [GroupChild "2512" "Group 2512" [OccChild o]] in
  In g (allGroups (organizeOccupations codeUnits [o])) /\ In o (recordsOf g) /\
  prefix (childCode g) (code o) = true.
Proof.
  intros o g.
  assert (Hg : In g (allGroups (organizeOccupations codeUnits [o]))) by (vm_compute; tauto).
  assert (Ho : In o (recordsOf g)) by (simpl; tauto).
  split; [exact Hg |]. split; [exact Ho |].
  exact (group_code_prefix_of_descendants codeUnits [o] g o Hg Ho).
Defined.

(** C3, as stated, fails: the unit group ["2512"] holds the record of code
    ["2512"], and its code is not a strict prefix of the record's. *)
Lemma strict_prefix_counterexample :
  let o := occupationOf "2512" "Software developer" in
  let g := GroupChild "2512" "Group 2512" [OccChild o] in
  In g (allGroups (organizeOccupations codeUnits [o])) /\ In o (recordsOf g) /\
  ~ strictPrefix (childCode g) (code o).
Proof.
  intros o g. split; [vm_compute; tauto |]. split; [simpl; tauto |].
  intros [_ Hne]. now apply Hne.
Qed.

(* ------------------------------------------------------------------ *)
(** *** Where a record is attached *)

Lemma updateGroup_hit (c : string) (f : list Child -> list Child) (l : list Child) :
  hasGroup c l = true -> exists gn k, In (GroupChild c gn (f k)) (updateGroup c f l).
Proof.
  induction l as [| [gc gn k | o] l IH]; simpl; intros H; [discriminate | |].
  - destruct (String.eqb gc c) eqn:E.
    + apply String.eqb_eq in E. subst gc. exists gn, k. now left.
    + destruct (IH H) as (gn' & k' & Hin). exists gn', k'. now right.
  - destruct (IH H) as (gn' & k' & Hin). exists gn', k'. now right.
Qed.

Lemma hasGroup_app (c : string) (l1 l2 : list Child) :
  hasGroup c (l1 ++ l2) = hasGroup c l1 || hasGroup c l2.
Proof.
  induction l1 as [| [gc gn k | o] l1 IH]; simpl; [reflexivity | |].
  - now rewrite IH, orb_assoc.
  - exact IH.
Qed.

Lemma withGroup_hit (c name : string) (f : list Child -> list Child) (l : list Child) :
  exists gn k, In (GroupChild c gn (f k)) (withGroup c name f l).
Proof.
  unfold withGroup. apply updateGroup_hit.
  destruct (hasGroup c l) eqn:E; [exact E |].
  rewrite hasGroup_app. simpl. rewrite String.eqb_refl. now rewrite orb_true_r.
Qed.

Lemma In_updateGroup_occ (o : Occupation) (c : string)
  (f : list Child -> list Child) (l : list Child) :
  In (OccChild o) l -> In (OccChild o) (updateGroup c f l).
Proof.
  induction l as [| [gc gn k | o'] l IH]; simpl; [tauto | |].
  - intros [H | H]; [discriminate |].
    destruct (String.eqb gc c); simpl; auto.
  - intros [H | H]; [now left | right; auto].
Qed.

Lemma In_updateGroup_group (gc gn : string) (k : list Child) (c : string)
  (f : list Child -> list Child) (l : list Child) :
  In (GroupChild gc gn k) l ->
  In (GroupChild gc gn k) (updateGroup c f l)
  \/ In (GroupChild gc gn (f k)) (updateGroup c f l).
Proof.
  induction l as [| [gc' gn' k' | o'] l IH]; simpl; [tauto | |].
  - intros [H | H].
    + injection H as -> -> ->. destruct (String.eqb gc c); simpl; auto.
    + destruct (String.eqb gc' c); simpl; [auto |].
      destruct (IH H); auto.
  - intros [H | H]; [discriminate |]. destruct (IH H); auto.
Qed.

Lemma attached_insertPath_self (o : Occupation) (p : list string) :
  forall lvl ch, attached p o (insertPath lvl p o ch).
Proof.
  induction p as [| c p IH]; intros lvl ch; simpl.
  - unfold push. apply in_or_app. right. now left.
  - destruct (withGroup_hit c (levelName lvl c) (insertPath (S lvl) p o) ch)
      as (gn & k & Hin).
    exists gn, (insertPath (S lvl) p o k). split; [exact Hin | apply IH].
Qed.

Lemma attached_insertPath_other (o o' : Occupation) (q : list string) :
  forall p lvl ch, attached p o ch -> attached p o (insertPath lvl q o' ch).
Proof.
  induction q as [| c' q IH]; intros p lvl ch H; simpl.
  - unfold push. destruct p as [| c p]; simpl in *.
    + apply in_or_app. now left.
    + destruct H as (gn & k & Hin & Hk). exists gn, k. split; [| exact Hk].
      apply in_or_app. now left.
  - unfold withGroup.
    set (ch' := if hasGroup c' ch then ch else ch ++ [GroupChild c' (levelName lvl c') []]).
    assert (Hsub : forall x, In x ch -> In x ch').
    { intros x Hx. unfold ch'. destruct (hasGroup c' ch); [exact Hx |].
      apply in_or_app. now left. }
    destruct p as [| c p]; simpl in *.
    + apply In_updateGroup_occ. auto.
    + destruct H as (gn & k & Hin & Hk).
      destruct (In_updateGroup_group c gn k c' (insertPath (S lvl) q o') ch' (Hsub _ Hin))
        as [Hu | Hu].
      * exists gn, k. now split.
      * exists gn, (insertPath (S lvl) q o' k). split; [exact Hu | now apply IH].
Qed.

Lemma attached_sortForest (L : JS.Collation) (o : Occupation) (p : list string) :
  forall ch, attached p o ch -> attached p o (sortForest L ch).
Proof.
  induction p as [| c p IH]; intros ch H; simpl in *.
  - apply Array_sort_In, in_map_iff. exists (OccChild o). now split.
  - destruct H as (gn & k & Hin & Hk).
    exists gn, (sortForest L k). split; [| now apply IH].
    apply Array_sort_In, in_map_iff. exists (GroupChild c gn k). now split.
Qed.

Lemma attached_unsorted (occupations : list Occupation) (r : Occupation)
  (p : list string) :
  In r occupations -> pathOf r = Some p -> attached p r (unsorted occupations).
Proof.
  intros Hin Hp. unfold unsorted.
  assert (H : forall ch, In r occupations \/ attached p r ch ->
                         attached p r (fold_left insertOccupation occupations ch)).
  { clear Hin. induction occupations as [| o l IH]; intros ch [Hin | Hat]; simpl.
    - destruct Hin.
    - exact Hat.
    - apply IH. destruct Hin as [-> | Hin]; [right | now left].
      unfold insertOccupation. rewrite Hp. apply attached_insertPath_self.
    - apply IH. right. unfold insertOccupation.
      destruct (pathOf o); [now apply attached_insertPath_other | exact Hat]. }
  apply H. now left.
Qed.

Lemma attached_organizeOccupations (L : JS.Collation)
  (occupations : list Occupation) (r : Occupation) :
  In r occupations -> code r <> "" -> mainCodeOf r <> "" ->
  attached (placementPath (mainCodeOf r)) r (map asChild (organizeOccupations L occupations)).
Proof.
  intros Hin Hc Hm. rewrite organizeOccupations_sortForest.
  apply attached_sortForest, attached_unsorted; [exact Hin |].
  unfold pathOf. apply truthy_true in Hc, Hm. now rewrite Hc, Hm.
Qed.

Lemma mainCodeOf_nonempty (r : Occupation) : mainCodeOf r <> "" -> code r <> "".
Proof. unfold mainCodeOf. intros H He. apply H. now rewrite He. Qed.

(** C2, as amended: a record whose pre-dot code [m] has one to four
    characters is a direct child of the group of the deepest level that [m]
    reaches: the unit group when [m] has four characters, the minor group
    when it has three, the sub-major group when it has two, the major group
    when it has one.  Nothing is said of a longer [m]. *)
Theorem record_placement (L : JS.Collation) (occupations : list Occupation)
  (r : Occupation) :
  In r occupations ->
  let m := mainCodeOf r in
  let tree := map asChild (organizeOccupations L occupations) in
  (String.length m = 4 ->
   attached [JS.substring0 1 m; JS.substring0 2 m; JS.substring0 3 m; m] r tree) /\
  (String.length m = 3 ->
   attached [JS.substring0 1 m; JS.substring0 2 m; JS.substring0 3 m] r tree) /\
  (String.length m = 2 -> attached [JS.substring0 1 m; JS.substring0 2 m] r tree) /\
  (String.length m = 1 -> attached [JS.substring0 1 m] r tree).
Proof.
  intros Hin m tree.
  assert (H : m <> "" -> attached (placementPath m) r tree).
  { intros Hm. apply attached_organizeOccupations; [exact Hin | | exact Hm].
    now apply mainCodeOf_nonempty. }
  clearbody m tree.
  destruct m as [| a [| b [| c [| d [| e m]]]]];
    repeat split; intros Hl; cbn in Hl; try lia; now apply H.
Qed.

Lemma record_placement_witness :
  let r := occupationOf "2512.3" "Applications programmer" in
  let occupations := [occupationOf "2512" "Software developer"; r] in
  attached ["2"; "25"; "251"; "2512"] r
    (map asChild (organizeOccupations codeUnits occupations)).
Proof.
  intros r occupations.
  assert (Hin : In r occupations) by (simpl; tauto).
  exact (proj1 (record_placement codeUnits occupations r Hin) eq_refl).
Defined.

(** C2, as stated, fails on a code that is not empty and has nothing before
    its first dot: the callback skips the record of code [".5"], which is
    under no group at all, where the claim puts it under a major group. *)
Lemma placement_counterexample :
  let r := occupationOf ".5" "Dot first" in
  code r <> "" /\
  organizeOccupations codeUnits [r] = [] /\
  ~ attached (claimedPath (mainCodeOf r)) r
      (map asChild (organizeOccupations codeUnits [r])).
Proof.
  intros r. split; [discriminate |]. split; [reflexivity |].
  vm_compute. intros (n1 & k1 & [] & _).
Qed.

(** On a pre-dot code of five characters the source goes its own way: it
    takes the whole of it for the code of the unit group ([unitGroup =
    mainCode], where the two levels above take a prefix) and makes a unit
    group only for a code of exactly four characters, so that the record
    of code ["25121"] stays under the minor group ["251"] and the tree has
    no unit group ["2512"]. *)
Example placement_of_a_five_character_code :
  let r := occupationOf "25121" "Applications programmer" in
  claimedPath (mainCodeOf r) = ["2"; "25"; "251"; "2512"] /\
  attached ["2"; "25"; "251"] r (map asChild (organizeOccupations codeUnits [r])) /\
  ~ attached (claimedPath (mainCodeOf r)) r
      (map asChild (organizeOccupations codeUnits [r])).
Proof.
  intros r. split; [reflexivity |]. split.
  - apply (attached_organizeOccupations codeUnits [r] r); [now left | |]; discriminate.
  - vm_compute.
    intros (n1 & k1 & [H1 | []] & n2 & k2 & H2 & n3 & k3 & H3 & n4 & k4 & H4 & _).
    injection H1 as <- <-. destruct H2 as [H2 | []]. injection H2 as <- <-.
    destruct H3 as [H3 | []]. injection H3 as <- <-.
    destruct H4 as [H4 | []]. discriminate.
Qed.

(* ------------------------------------------------------------------ *)
(** *** The depth of the groups *)

Lemma wellLevelled_group (d : nat) (gc gn : string) (k : list Child) :
  wellLevelled d (GroupChild gc gn k)
  <-> String.length gc = d /\ d <= 4 /\ Forall (wellLevelled (S d)) k.
Proof.
  simpl.
  assert (H : (fix all (l : list Child) : Prop :=
                 match l with
                 | [] => True
                 | x :: r => wellLevelled (S d) x /\ all r
                 end) k <-> Forall (wellLevelled (S d)) k).
  { induction k as [| x k IH]; split; intros H.
    - constructor.
    - exact I.
    - destruct H as [Hx Hk]. constructor; [exact Hx | now apply IH].
    - inversion H; subst. split; [assumption | now apply IH]. }
  tauto.
Qed.

Lemma insertPath_wellLevelled (o : Occupation) (p : list string) :
  forall lvl d ch,
    levelsFrom d p ->
    Forall (wellLevelled d) ch ->
    Forall (wellLevelled d) (insertPath lvl p o ch).
Proof.
  induction p as [| c p IH]; intros lvl d ch Hp Hch; simpl.
  - unfold push. apply Forall_app. split; [exact Hch |]. now repeat constructor.
  - destruct Hp as (Hlen & Hd & Hp).
    apply withGroup_Forall; [| | exact Hch].
    + intros gn k Hk. apply wellLevelled_group in Hk as (H1 & H2 & H3).
      apply wellLevelled_group. repeat split; trivial. now apply IH.
    + apply wellLevelled_group. repeat split; trivial.
Qed.

Lemma placementPath_levels (m : string) : m <> "" -> levelsFrom 1 (placementPath m).
Proof.
  destruct m as [| a [| b [| c [| d [| e m]]]]]; [congruence | | | | |];
    intros _; cbn; repeat split; lia.
Qed.

Lemma unsorted_wellLevelled (occupations : list Occupation) :
  Forall (wellLevelled 1) (unsorted occupations).
Proof.
  unfold unsorted.
  assert (H : forall ch, Forall (wellLevelled 1) ch ->
                         Forall (wellLevelled 1) (fold_left insertOccupation occupations ch)).
  { induction occupations as [| o l IH]; intros ch Hch; [exact Hch |].
    simpl. apply IH. unfold insertOccupation.
    destruct (pathOf o) as [p |] eqn:Hp; [| exact Hch].
    apply insertPath_wellLevelled; [| exact Hch].
    unfold pathOf in Hp.
    destruct (JS.truthy (code o)); [| discriminate].
    destruct (JS.truthy (mainCodeOf o)) eqn:Hm; [| discriminate].
    injection Hp as <-. apply placementPath_levels. now apply truthy_true. }
  apply H. constructor.
Qed.

Lemma sortChild_wellLevelled (L : JS.Collation) (c : Child) :
  forall d, wellLevelled d c -> wellLevelled d (sortChild L c).
Proof.
  induction c as [o | gc gn k IH] using Child_ind_nested; intros d H; [exact H |].
  simpl sortChild. apply wellLevelled_group in H as (H1 & H2 & H3).
  apply wellLevelled_group. repeat split; trivial.
  apply Forall_forall. intros x Hx.
  apply Array_sort_In, in_map_iff in Hx as (y & <- & Hy).
  rewrite Forall_forall in IH, H3. apply IH; auto.
Qed.

(** C10: the branch "4-digit codes without 3-digit minor group" is never
    taken: when the two-character prefix exists and the three-character one
    does not, the pre-dot code has at most two characters, hence not four;
    and in every returned tree a group at depth [d] has a code of [d]
    characters, so that a unit group lies under a minor group. *)
Theorem unit_without_minor_unreachable :
  (forall mainCode,
     String.length (JS.substring0 2 mainCode) = 2 ->
     String.length (JS.substring0 3 mainCode) <> 3 ->
     String.length mainCode <= 2 /\ String.length mainCode <> 4) /\
  (forall L occupations,
     Forall (wellLevelled 1) (map asChild (organizeOccupations L occupations))).
Proof.
  split.
  - intros m. destruct m as [| a [| b [| c [| d [| e m]]]]]; cbn; intros H2 H3; lia.
  - intros L occupations. rewrite organizeOccupations_sortForest.
    apply Forall_forall. intros x Hx.
    apply Array_sort_In, in_map_iff in Hx as (y & <- & Hy).
    pose proof (unsorted_wellLevelled occupations) as Hu.
    rewrite Forall_forall in Hu. apply sortChild_wellLevelled, Hu, Hy.
Qed.

Lemma unit_without_minor_unreachable_witness :
  String.length "25" <= 2 /\ String.length "25" <> 4.
Proof.
  apply (proj1 unit_without_minor_unreachable "25"); vm_compute; congruence.
Defined.

(* ------------------------------------------------------------------ *)
(** *** The insertions build the tree of [build] *)

Lemma build_eq (fuel lvl : nat) (items : list Item) :
  build fuel lvl items = map (childOfKey lvl (below fuel lvl items)) (firsts items).
Proof. destruct fuel; reflexivity. Qed.

Lemma firsts_snoc (items : list Item) (it : Item) :
  firsts (items ++ [it]) = addKey (firsts items) it.
Proof. unfold firsts. now rewrite fold_left_app. Qed.

Lemma tails_app (c : string) (l1 l2 : list Item) :
  tails c (l1 ++ l2) = tails c l1 ++ tails c l2.
Proof. unfold tails. apply flat_map_app. Qed.

Lemma In_firsts (items : list Item) (k : Key) :
  In k (firsts items) <-> exists it, In it items /\ keyOf it = k.
Proof.
  induction items as [| it items IH] using rev_ind.
  - simpl. split; [tauto | intros (it & [] & _)].
  - rewrite firsts_snoc. unfold addKey.
    assert (Hex : (exists it0, In it0 (items ++ [it]) /\ keyOf it0 = k)
                  <-> (exists it0, In it0 items /\ keyOf it0 = k) \/ keyOf it = k).
    { split.
      - intros (it0 & Hin & Hk). apply in_app_or in Hin as [Hin | [<- | []]]; eauto.
      - intros [(it0 & Hin & Hk) | Hk].
        + exists it0. split; [apply in_or_app; now left | exact Hk].
        + exists it. split; [apply in_or_app; right; now left | exact Hk]. }
    rewrite Hex, <- IH. clear Hex.
    destruct (keyOf it) as [c | o] eqn:Hk.
    + destruct (seenGroup c (firsts items)) eqn:Hs.
      * split; [tauto |]. intros [H | <-]; [exact H |].
        unfold seenGroup in Hs. apply existsb_exists in Hs as ([c' | o'] & Hin & Hc).
        -- apply String.eqb_eq in Hc. now subst.
        -- discriminate.
      * rewrite in_app_iff. simpl. intuition.
    + rewrite in_app_iff. simpl. intuition.
Qed.

Lemma seenGroup_spec (c : string) (ks : list Key) :
  seenGroup c ks = true <-> In (KGroup c) ks.
Proof.
  unfold seenGroup. rewrite existsb_exists. split.
  - intros ([c' | o] & Hin & Hc); [| discriminate].
    apply String.eqb_eq in Hc. now subst.
  - intros Hin. exists (KGroup c). split; [exact Hin | apply String.eqb_refl].
Qed.

Lemma hasGroup_childOfKey (lvl : nat) (sub : string -> list Child) (c : string)
  (ks : list Key) :
  hasGroup c (map (childOfKey lvl sub) ks) = seenGroup c ks.
Proof.
  induction ks as [| [c' | o] ks IH]; simpl; [reflexivity | |].
  - now rewrite IH.
  - exact IH.
Qed.

Lemma tails_unseen (c : string) (items : list Item) :
  seenGroup c (firsts items) = false -> tails c items = [].
Proof.
  intros Hs.
  assert (H : forall it, In it items -> keyOf it <> KGroup c).
  { intros it Hin Hk.
    assert (Ht : seenGroup c (firsts items) = true)
      by (apply seenGroup_spec, In_firsts; eauto).
    congruence. }
  clear Hs. unfold tails. induction items as [| [[| c' p] o] items IH]; simpl.
  - reflexivity.
  - apply IH. intros it Hin. apply H. now right.
  - destruct (String.eqb c' c) eqn:E.
    + apply String.eqb_eq in E. subst c'. exfalso.
      apply (H (c :: p, o)); [now left | reflexivity].
    + apply IH. intros it Hin. apply H. now right.
Qed.

Lemma updateGroup_miss (c : string) (f : list Child -> list Child) (l : list Child)
  (gn : string) (k : list Child) :
  hasGroup c l = false ->
  updateGroup c f (l ++ [GroupChild c gn k]) = l ++ [GroupChild c gn (f k)].
Proof.
  induction l as [| [gc' gn' k' | o] l IH]; simpl; intros H.
  - now rewrite String.eqb_refl.
  - apply orb_false_iff in H as [H1 H2]. rewrite H1. now rewrite IH.
  - now rewrite IH.
Qed.

Lemma In_groupCodes (c : string) (ks : list Key) :
  In c (groupCodes ks) <-> In (KGroup c) ks.
Proof.
  unfold groupCodes. rewrite in_flat_map. split.
  - intros ([c' | o] & Hin & Hc); simpl in Hc; [| contradiction].
    destruct Hc as [<- | []]. exact Hin.
  - intros Hin. exists (KGroup c). split; [exact Hin | now left].
Qed.

Lemma firsts_groupCodes_NoDup (items : list Item) : NoDup (groupCodes (firsts items)).
Proof.
  induction items as [| it items IH] using rev_ind; [constructor |].
  rewrite firsts_snoc. unfold addKey.
  destruct (keyOf it) as [c | o].
  - destruct (seenGroup c (firsts items)) eqn:Hs; [exact IH |].
    unfold groupCodes. rewrite flat_map_app. simpl.
    apply NoDup_app; [exact IH | repeat constructor; intros [] |].
    intros x Hx [<- | []].
    apply In_groupCodes, seenGroup_spec in Hx. congruence.
  - unfold groupCodes. rewrite flat_map_app. simpl. now rewrite app_nil_r.
Qed.

Lemma updateGroup_childOfKey (lvl : nat) (c : string) (f : list Child -> list Child)
  (sub sub' : string -> list Child) (ks : list Key) :
  NoDup (groupCodes ks) ->
  sub' c = f (sub c) ->
  (forall c', c' <> c -> In (KGroup c') ks -> sub' c' = sub c') ->
  updateGroup c f (map (childOfKey lvl sub) ks) = map (childOfKey lvl sub') ks.
Proof.
  intros Hnd Hc Hother.
  induction ks as [| [c' | o] ks IH]; simpl; [reflexivity | |].
  - simpl in Hnd. inversion Hnd as [| ? ? Hnotin Hnd']; subst.
    destruct (String.eqb c' c) eqn:E.
    + apply String.eqb_eq in E. subst c'. rewrite Hc. f_equal.
      apply map_ext_in. intros [c' | o] Hin; [| reflexivity].
      simpl. rewrite Hother; [reflexivity | | now right].
      intros ->. apply Hnotin. now apply In_groupCodes.
    + apply String.eqb_neq in E. rewrite (Hother c' E) by now left.
      f_equal. apply IH; [exact Hnd' |].
      intros c'' Hne Hin. apply Hother; [exact Hne | now right].
  - f_equal. apply IH; [exact Hnd |].
    intros c'' Hne Hin. apply Hother; [exact Hne | now right].
Qed.

Lemma insertPath_build (fuel : nat) :
  forall lvl items p o,
    List.length p <= fuel ->
    insertPath lvl p o (build fuel lvl items) = build fuel lvl (items ++ [(p, o)]).
Proof.
  induction fuel as [| fuel IH]; intros lvl items p o Hlen.
  - destruct p; [| simpl in Hlen; lia].
    simpl. rewrite firsts_snoc. unfold addKey, push. simpl.
    now rewrite map_app.
  - destruct p as [| c p].
    + rewrite !build_eq. simpl insertPath. rewrite firsts_snoc.
      unfold addKey, keyOf, push. cbn [fst snd]. rewrite map_app. simpl. f_equal.
      apply map_ext. intros [c' | o']; [| reflexivity].
      simpl. now rewrite tails_app, app_nil_r.
    + simpl in Hlen. rewrite !build_eq. simpl insertPath. unfold withGroup.
      rewrite hasGroup_childOfKey, firsts_snoc. unfold addKey, keyOf. cbn [fst snd].
      assert (Htl : forall c', tails c' (items ++ [(c :: p, o)])
                    = tails c' items ++ (if String.eqb c c' then [(p, o)] else [])).
      { intros c'. rewrite tails_app. simpl. now rewrite app_nil_r. }
      destruct (seenGroup c (firsts items)) eqn:Hs.
      * apply updateGroup_childOfKey; [apply firsts_groupCodes_NoDup | |].
        -- simpl. rewrite Htl, String.eqb_refl. symmetry. apply IH. lia.
        -- intros c' Hne _. simpl. rewrite Htl.
           destruct (String.eqb c c') eqn:E; [apply String.eqb_eq in E; congruence |].
           now rewrite app_nil_r.
      * rewrite updateGroup_miss by now rewrite hasGroup_childOfKey.
        rewrite map_app. simpl. f_equal.
        -- apply map_ext_in. intros [c' | o'] Hin; [| reflexivity].
           simpl. rewrite Htl.
           destruct (String.eqb c c') eqn:E; [| now rewrite app_nil_r].
           apply String.eqb_eq in E. subst c'.
           apply seenGroup_spec in Hin. congruence.
        -- f_equal. f_equal. rewrite Htl, String.eqb_refl, (tails_unseen c items Hs).
           simpl.
           transitivity (insertPath (S lvl) p o (build fuel (S lvl) []));
             [now destruct fuel | apply IH; lia].
Qed.

Lemma build_nil (fuel lvl : nat) : build fuel lvl [] = [].
Proof. now destruct fuel. Qed.

Lemma placementPath_length (m : string) : List.length (placementPath m) <= 4.
Proof.
  unfold placementPath.
  repeat match goal with |- context [if ?b then _ else _] => destruct b end; simpl; lia.
Qed.

Lemma itemsOf_app (l1 l2 : list Occupation) : itemsOf (l1 ++ l2) = itemsOf l1 ++ itemsOf l2.
Proof. unfold itemsOf. apply flat_map_app. Qed.

Lemma itemsOf_single (o : Occupation) :
  itemsOf [o] = match pathOf o with Some p => [(p, o)] | None => [] end.
Proof. unfold itemsOf. simpl. now rewrite app_nil_r. Qed.

Lemma unsorted_build (occupations : list Occupation) :
  unsorted occupations = build 4 0 (itemsOf occupations).
Proof.
  induction occupations as [| o l IH] using rev_ind; [reflexivity |].
  unfold unsorted in *. rewrite fold_left_app, IH, itemsOf_app, itemsOf_single.
  change (fold_left insertOccupation [o] ?x) with (insertOccupation x o).
  unfold insertOccupation. destruct (pathOf o) as [p |] eqn:Hp.
  - apply insertPath_build. unfold pathOf in Hp.
    destruct (_ && _); [| discriminate]. injection Hp as <-.
    apply placementPath_length.
  - now rewrite app_nil_r.
Qed.

(* ------------------------------------------------------------------ *)
(** *** A sorted list without ties is determined by its elements *)

Section SortedUnique.
Context {A : Type} (L : JS.Collation) (key : A -> string).

Let cmp (a b : A) : comparison := JS.localeCompare L (key a) (key b).
Let le (a b : A) : Prop := cmp a b <> Gt.

Lemma le_trans_key : Relations_1.Transitive le.
Proof. intros a b c. apply localeCompare_trans. Qed.

Lemma sorted_perm_eq (l1 : list A) :
  forall l2, StronglySorted le l1 -> StronglySorted le l2 ->
             Permutation l1 l2 ->
             (forall x y, In x l1 -> In y l1 -> cmp x y = Eq -> x = y) ->
             l1 = l2.
Proof.
  induction l1 as [| x t1 IH]; intros l2 H1 H2 Hp Htie.
  - now apply Permutation_nil in Hp.
  - destruct l2 as [| y t2]; [now apply Permutation_sym, Permutation_nil in Hp |].
    inversion H1 as [| ? ? Hs1 Hf1]; inversion H2 as [| ? ? Hs2 Hf2]; subst.
    assert (Hxy : x = y).
    { assert (Hx : In x (y :: t2)) by (eapply Permutation_in; [exact Hp | now left]).
      assert (Hy : In y (x :: t1))
        by (eapply Permutation_in; [symmetry; exact Hp | now left]).
      destruct Hx as [-> | Hx]; [reflexivity |].
      destruct Hy as [-> | Hy]; [reflexivity |].
      rewrite Forall_forall in Hf1, Hf2.
      apply Htie; [now left | now right |].
      apply localeCompare_tie; [apply (Hf1 y Hy) | apply (Hf2 x Hx)]. }
    subst y. f_equal. apply IH; trivial.
    + now apply Permutation_cons_inv in Hp.
    + intros u v Hu Hv. apply Htie; now right.
Qed.

Lemma sort_perm_unique (l l' : list A) :
  Permutation l l' ->
  (forall x y, In x l -> In y l -> cmp x y = Eq -> x = y) ->
  JS.Array_sort cmp l = JS.Array_sort cmp l'.
Proof.
  intros Hp Htie.
  assert (Hs : forall s, StronglySorted le (JS.Array_sort cmp s)).
  { intros s. apply Sorted_StronglySorted; [exact le_trans_key |].
    apply Array_sort_sorted. intros a b. apply localeCompare_total. }
  apply sorted_perm_eq; [apply Hs | apply Hs | |].
  - rewrite !Array_sort_perm. exact Hp.
  - intros x y Hx Hy. apply Htie; now apply (Array_sort_In cmp l).
Qed.
End SortedUnique.

(* ------------------------------------------------------------------ *)
(** *** The children before the sort, under a reordering of the items *)

Lemma seenGroup_app (c : string) (ks ks' : list Key) :
  seenGroup c (ks ++ ks') = seenGroup c ks || seenGroup c ks'.
Proof. unfold seenGroup. apply existsb_app. Qed.

Lemma seenGroup_perm (c : string) (ks ks' : list Key) :
  Permutation ks ks' -> seenGroup c ks = seenGroup c ks'.
Proof.
  intros Hp. apply eq_iff_eq_true. rewrite !seenGroup_spec.
  split; apply Permutation_in; [exact Hp | now symmetry].
Qed.

Lemma addKey_perm (acc acc' : list Key) (it : Item) :
  Permutation acc acc' -> Permutation (addKey acc it) (addKey acc' it).
Proof.
  intros Hp. unfold addKey. destruct (keyOf it) as [c | o].
  - rewrite (seenGroup_perm c acc acc' Hp).
    destruct (seenGroup c acc'); [exact Hp | now apply Permutation_app_tail].
  - now apply Permutation_app_tail.
Qed.

Lemma fold_addKey_perm (items : list Item) :
  forall acc acc', Permutation acc acc' ->
    Permutation (fold_left addKey items acc) (fold_left addKey items acc').
Proof.
  induction items as [| it items IH]; intros acc acc' Hp; [exact Hp |].
  simpl. apply IH. now apply addKey_perm.
Qed.

Lemma addKey_swap (acc : list Key) (x y : Item) :
  Permutation (addKey (addKey acc x) y) (addKey (addKey acc y) x).
Proof.
  assert (Hsw : forall a b : Key, Permutation ((acc ++ [a]) ++ [b]) ((acc ++ [b]) ++ [a])).
  { intros a b. rewrite <- !app_assoc. apply Permutation_app_head. apply perm_swap. }
  unfold addKey. destruct (keyOf x) as [c | o]; destruct (keyOf y) as [c' | o'].
  - destruct (seenGroup c acc) eqn:Hc; destruct (seenGroup c' acc) eqn:Hc';
      rewrite ?seenGroup_app, ?Hc, ?Hc'; simpl; try reflexivity.
    rewrite (String.eqb_sym c' c).
    destruct (String.eqb c c') eqn:E; simpl; [| apply Hsw].
    apply String.eqb_eq in E. now subst.
  - destruct (seenGroup c acc) eqn:Hc; rewrite ?seenGroup_app, ?Hc; simpl;
      [reflexivity | apply Hsw].
  - destruct (seenGroup c' acc) eqn:Hc'; rewrite ?seenGroup_app, ?Hc'; simpl;
      [reflexivity | apply Hsw].
  - apply Hsw.
Qed.

Lemma firsts_perm (items items' : list Item) :
  Permutation items items' -> Permutation (firsts items) (firsts items').
Proof.
  intros Hp. unfold firsts. generalize (@nil Key) as acc.
  induction Hp as [| x l l' _ IH | x y l | l l' l'' _ IH1 _ IH2]; intros acc; simpl.
  - reflexivity.
  - apply IH.
  - apply fold_addKey_perm, addKey_swap.
  - now rewrite IH1.
Qed.

(* ------------------------------------------------------------------ *)
(** *** Without ties, the sorted tree does not depend on the order *)

Lemma In_tails (c : string) (items : list Item) (it : Item) :
  In it (tails c items) <-> In (c :: fst it, snd it) items.
Proof.
  unfold tails. rewrite in_flat_map. split.
  - intros ([[| c' p] o] & Hin & H); simpl in H; [contradiction |].
    destruct (String.eqb c' c) eqn:E; [| contradiction].
    apply String.eqb_eq in E. subst c'. destruct H as [<- | []]. exact Hin.
  - intros Hin. exists (c :: fst it, snd it). split; [exact Hin |].
    simpl. rewrite String.eqb_refl. left. now destruct it.
Qed.

Lemma tails_perm (c : string) (items items' : list Item) :
  Permutation items items' -> Permutation (tails c items) (tails c items').
Proof. intros H. unfold tails. now apply Permutation_flat_map. Qed.

Lemma In_itemCodes (items : list Item) (a : string) :
  In a (itemCodes items) <->
  exists it, In it items /\ (a = itemCode it \/ In a (fst it)).
Proof.
  unfold itemCodes. rewrite in_flat_map. split; intros (it & Hin & H); exists it;
    (split; [exact Hin |]); simpl in *; intuition.
Qed.

Lemma tails_separated (c : string) (items : list Item) :
  separated items -> separated (tails c items).
Proof.
  intros Hsep it1 it2 c' H1 H2 Hn.
  apply In_tails in H1, H2.
  apply (Hsep _ _ c' H1 H2). exact Hn.
Qed.

Lemma tails_untied (L : JS.Collation) (c : string) (items : list Item) :
  untied L items -> untied L (tails c items).
Proof.
  intros [Hsep Hrec]. split.
  - intros a b Ha Hb. apply Hsep; apply In_itemCodes.
    + apply In_itemCodes in Ha as (it & Hin & H). apply In_tails in Hin.
      eexists. split; [exact Hin |]. simpl. destruct H; [now left | right; now right].
    + apply In_itemCodes in Hb as (it & Hin & H). apply In_tails in Hin.
      eexists. split; [exact Hin |]. simpl. destruct H; [now left | right; now right].
  - intros it1 it2 H1 H2. apply In_tails in H1, H2. apply (Hrec _ _ H1 H2).
Qed.

(** Two children that the sort finds equal are the same child. *)
Lemma keys_untied (L : JS.Collation) (items : list Item) (k1 k2 : Key) :
  untied L items -> separated items ->
  In k1 (firsts items) -> In k2 (firsts items) ->
  JS.localeCompare L (keyCode k1) (keyCode k2) = Eq -> k1 = k2.
Proof.
  intros [Hsep Hrec] Hgr H1 H2 Htie.
  apply In_firsts in H1 as (it1 & Hin1 & Hk1).
  apply In_firsts in H2 as (it2 & Hin2 & Hk2).
  assert (Hcode : forall it, In it items -> In (itemCode it) (itemCodes items)).
  { intros it Hin. apply In_itemCodes. exists it. split; [exact Hin | now left]. }
  assert (Hpath : forall it c, In it items -> In c (fst it) -> In c (itemCodes items)).
  { intros it c Hin Hc. apply In_itemCodes. exists it. split; [exact Hin | now right]. }
  unfold keyOf in Hk1, Hk2.
  destruct (fst it1) as [| c1 p1] eqn:Hf1; destruct (fst it2) as [| c2 p2] eqn:Hf2;
    subst k1 k2; simpl in Htie.
  - f_equal. apply (Hrec it1 it2 Hin1 Hin2).
    apply (Hsep _ _ (Hcode it1 Hin1) (Hcode it2 Hin2) Htie).
  - exfalso. apply (Hgr it1 it2 c2 Hin1 Hin2); [now rewrite Hf1, Hf2 |].
    symmetry. apply (Hsep _ _ (Hcode it1 Hin1)); [| exact Htie].
    apply (Hpath it2 c2 Hin2). rewrite Hf2. now left.
  - exfalso. apply (Hgr it2 it1 c1 Hin2 Hin1); [now rewrite Hf1, Hf2 |].
    apply (Hsep _ _ (Hpath it1 c1 Hin1 ltac:(rewrite Hf1; now left)) (Hcode it2 Hin2) Htie).
  - f_equal. apply (Hsep c1 c2); [| | exact Htie].
    + apply (Hpath it1 c1 Hin1). rewrite Hf1. now left.
    + apply (Hpath it2 c2 Hin2). rewrite Hf2. now left.
Qed.

Lemma childCode_childOfKey (L : JS.Collation) (lvl : nat) (sub : string -> list Child)
  (k : Key) :
  childCode (sortChild L (childOfKey lvl sub k)) = keyCode k.
Proof. now destruct k. Qed.

Lemma Everywhere_subgroups (P : list Child -> Prop) (c : Child) :
  Everywhere P c -> forall g, In g (subgroups c) -> P (childrenOf g).
Proof.
  induction c as [o | gc gn k IH] using Child_ind_nested; intros H g Hg; [destruct Hg |].
  inversion H as [| ? ? ? HP Hk]; subst.
  destruct Hg as [<- | Hg]; [exact HP |].
  apply in_flat_map in Hg as (x & Hx & Hg).
  rewrite Forall_forall in IH, Hk. now apply (IH x Hx (Hk x Hx)).
Qed.

Lemma Everywhere_of_subgroups (P : list Child -> Prop) (c : Child) :
  (forall g, In g (subgroups c) -> P (childrenOf g)) -> Everywhere P c.
Proof.
  induction c as [o | gc gn k IH] using Child_ind_nested; intros H; constructor.
  - apply (H (GroupChild gc gn k)). now left.
  - rewrite Forall_forall in *. intros x Hx. apply (IH x Hx).
    intros g Hg. apply H. right. apply in_flat_map. now exists x.
Qed.

Lemma noTies_tieFree (L : JS.Collation) (roots : list OccupationGroup) :
  noTies L roots <-> tieFree L (map asChild roots).
Proof.
  unfold noTies, tieFree, allGroups. split; intros [Hr Hg]; (split; [exact Hr |]).
  - apply Forall_forall. intros x Hx. apply Everywhere_of_subgroups.
    intros g Hin. apply Hg. apply in_flat_map. now exists x.
  - intros g Hin. apply in_flat_map in Hin as (x & Hx & Hin).
    rewrite Forall_forall in Hg. now apply (Everywhere_subgroups _ x (Hg x Hx)).
Qed.

(** Without a tie, the sorted tree does not depend on the order of the
    items. *)
Lemma sortForest_build_perm (L : JS.Collation) (fuel : nat) :
  forall lvl items items',
    Permutation items items' ->
    tieFree L (sortForest L (build fuel lvl items)) ->
    sortForest L (build fuel lvl items) = sortForest L (build fuel lvl items').
Proof.
  induction fuel as [| fuel IH]; intros lvl items items' Hp [Hu Hev];
    unfold sortForest in *; rewrite !build_eq, !map_map in *.
  - apply (sort_perm_unique L childCode).
    + apply Permutation_map. now apply firsts_perm.
    + intros x y Hx Hy. apply Hu; now apply Array_sort_In.
  - transitivity
      (JS.Array_sort (compareChildren L)
         (map (fun k => sortChild L (childOfKey lvl (below (S fuel) lvl items) k))
              (firsts items'))).
    + apply (sort_perm_unique L childCode).
      * apply Permutation_map. now apply firsts_perm.
      * intros x y Hx Hy. apply Hu; now apply Array_sort_In.
    + f_equal. apply map_ext_in. intros [c | o] Hin; [| reflexivity].
      simpl. f_equal. apply (IH (S lvl) (tails c items) (tails c items'));
        [now apply tails_perm |].
      assert (Hk : In (KGroup c) (firsts items))
        by (eapply Permutation_in; [symmetry; apply firsts_perm; exact Hp | exact Hin]).
      rewrite Forall_forall in Hev.
      assert (Hg : Everywhere (untiedChildren L)
                     (sortChild L (childOfKey lvl (below (S fuel) lvl items) (KGroup c)))).
      { apply Hev, Array_sort_In, in_map_iff. now exists (KGroup c). }
      simpl in Hg. inversion Hg as [| ? ? ? HP Hall]; subst. now split.
Qed.

(** There is no tie when the items of the same code have the same record
    and the collation tells the different codes apart. *)
Lemma tieFree_build (L : JS.Collation) (fuel : nat) :
  forall lvl items,
    untied L items -> separated items -> tieFree L (sortForest L (build fuel lvl items)).
Proof.
  induction fuel as [| fuel IH]; intros lvl items Hu Hsep;
    unfold sortForest; rewrite !build_eq, !map_map; split.
  - intros x y Hx Hy Htie.
    apply Array_sort_In, in_map_iff in Hx as (k1 & <- & Hk1).
    apply Array_sort_In, in_map_iff in Hy as (k2 & <- & Hk2).
    rewrite !childCode_childOfKey in Htie.
    now rewrite (keys_untied L items k1 k2 Hu Hsep Hk1 Hk2 Htie).
  - apply Forall_forall. intros x Hx.
    apply Array_sort_In, in_map_iff in Hx as ([c | o] & <- & Hk); simpl;
      constructor; [intros x y [] | constructor].
  - intros x y Hx Hy Htie.
    apply Array_sort_In, in_map_iff in Hx as (k1 & <- & Hk1).
    apply Array_sort_In, in_map_iff in Hy as (k2 & <- & Hk2).
    rewrite !childCode_childOfKey in Htie.
    now rewrite (keys_untied L items k1 k2 Hu Hsep Hk1 Hk2 Htie).
  - apply Forall_forall. intros x Hx.
    apply Array_sort_In, in_map_iff in Hx as ([c | o] & <- & Hk); simpl; [| constructor].
    destruct (IH (S lvl) (tails c items)) as [H1 H2];
      [now apply tails_untied | now apply tails_separated |].
    now constructor.
Qed.

(* ------------------------------------------------------------------ *)
(** *** The codes of the records against the codes of the groups *)

Lemma split_first_idem (sep : ascii) (s : string) :
  JS.split_first sep (JS.split_first sep s) = JS.split_first sep s.
Proof.
  induction s as [| a s IH]; simpl; [reflexivity |].
  destruct (Ascii.eqb a sep) eqn:E; simpl; [reflexivity |]. now rewrite E, IH.
Qed.

Lemma split_first_substring0 (sep : ascii) (n : nat) (s : string) :
  JS.split_first sep s = s ->
  JS.split_first sep (JS.substring0 n s) = JS.substring0 n s.
Proof.
  unfold JS.substring0. revert n.
  induction s as [| a s IH]; intros [| n] H; simpl in *; try reflexivity.
  destruct (Ascii.eqb a sep); [discriminate |].
  injection H as H. now rewrite IH.
Qed.

Lemma substring0_all (s : string) : JS.substring0 (String.length s) s = s.
Proof. unfold JS.substring0. induction s; simpl; congruence. Qed.

Lemma placementPath_substrings (m a : string) :
  In a (placementPath m) -> exists n, a = JS.substring0 n m.
Proof.
  assert (Hm : exists n, m = JS.substring0 n m)
    by (exists (String.length m); now rewrite substring0_all).
  unfold placementPath.
  repeat match goal with |- context [if ?b then _ else _] => destruct b end;
    simpl; intros H; repeat (destruct H as [<- | H]); try contradiction; eauto.
Qed.

Lemma levelsFrom_nth (p : list string) :
  forall d k c, levelsFrom d p -> nth_error p k = Some c -> String.length c = d + k.
Proof.
  induction p as [| x p IH]; intros d k c Hl Hn; [now destruct k |].
  destruct Hl as (Hx & _ & Hp). destruct k as [| k]; simpl in Hn.
  - injection Hn as <-. lia.
  - rewrite (IH (S d) k c Hp Hn). lia.
Qed.

Lemma placementPath_stops (m : string) :
  m <> "" -> String.length m <> S (List.length (placementPath m)).
Proof.
  destruct m as [| a [| b [| c [| d [| e m]]]]]; [congruence | | | | |];
    intros _; cbn; lia.
Qed.

Lemma pathOf_Some (o : Occupation) (p : list string) :
  pathOf o = Some p -> mainCodeOf o <> "" /\ p = placementPath (mainCodeOf o).
Proof.
  unfold pathOf. destruct (JS.truthy (code o)); [| discriminate].
  destruct (JS.truthy (mainCodeOf o)) eqn:Hm; [| discriminate].
  intros [= <-]. split; [now apply truthy_true | reflexivity].
Qed.

Lemma In_itemsOf (occupations : list Occupation) (it : Item) :
  In it (itemsOf occupations) <-> In (snd it) occupations /\ pathOf (snd it) = Some (fst it).
Proof.
  unfold itemsOf. rewrite in_flat_map. split.
  - intros (o & Hin & H). destruct (pathOf o) as [p |] eqn:Hp; [| contradiction].
    destruct H as [<- | []]. now split.
  - intros [Hin Hp]. exists (snd it). split; [exact Hin |].
    rewrite Hp. left. now destruct it.
Qed.

Lemma itemsOf_separated (occupations : list Occupation) :
  separated (itemsOf occupations).
Proof.
  intros [p1 o1] [p2 o2] c H1 H2 Hn Hc.
  apply In_itemsOf in H1 as [_ H1]. apply In_itemsOf in H2 as [_ H2].
  simpl in *. unfold itemCode in Hc. simpl in Hc.
  apply pathOf_Some in H1 as [Hm1 ->]. apply pathOf_Some in H2 as [Hm2 ->].
  pose proof (levelsFrom_nth _ 1 _ c (placementPath_levels _ Hm2) Hn) as Hlen.
  destruct (placementPath_substrings _ c (nth_error_In _ _ Hn)) as [n Hsub].
  assert (Hnodot : JS.split_first "." c = c).
  { rewrite Hsub. apply split_first_substring0. apply split_first_idem. }
  assert (Hmain : mainCodeOf o1 = c) by (unfold mainCodeOf; now rewrite <- Hc).
  apply (placementPath_stops _ Hm1). rewrite Hmain at 1. exact Hlen.
Qed.

Lemma itemsOf_untied (L : JS.Collation) (occupations : list Occupation) :
  separates L (nodeCodes occupations) -> codeDetermines occupations ->
  untied L (itemsOf occupations).
Proof.
  intros Hsep Hdet. split.
  - assert (Hsub : forall a, In a (itemCodes (itemsOf occupations)) ->
                             In a (nodeCodes occupations)).
    { intros a Ha. apply In_itemCodes in Ha as ([p o] & Hin & H).
      apply In_itemsOf in Hin as [Hin Hp]. simpl in *.
      unfold pathOf in Hp.
      change (JS.truthy (code o) && JS.truthy (mainCodeOf o)) with (placed o) in Hp.
      destruct (placed o) eqn:E; [| discriminate]. injection Hp as <-.
      unfold nodeCodes. apply in_flat_map. exists o.
      split; [apply filter_In; now split |].
      destruct H as [-> | H]; [now left | now right]. }
    intros a b Ha Hb. apply Hsep; now apply Hsub.
  - intros [p1 o1] [p2 o2] H1 H2 Hc.
    apply In_itemsOf in H1 as [H1 Hp1]. apply In_itemsOf in H2 as [H2 _].
    simpl in *. apply (Hdet o1 o2 H1 H2); [| exact Hc].
    unfold pathOf in Hp1.
    change (JS.truthy (code o1) && JS.truthy (mainCodeOf o1)) with (placed o1) in Hp1.
    now destruct (placed o1).
Qed.

Lemma asChild_inj (l l' : list OccupationGroup) :
  map asChild l = map asChild l' -> l = l'.
Proof.
  revert l'. induction l as [| [c n k] l IH]; intros [| [c' n' k'] l'] H;
    try discriminate; [reflexivity |].
  injection H as -> -> -> H. f_equal. now apply IH.
Qed.

(** C8, as amended: when the tree of a list of records has no tie (no two
    different roots, and no two different children of a group, whose codes
    compare as equal in the collation), the tree does not depend on the
    order of the records.  There is no tie when the placed records of the
    same code are the same record and the collation tells apart the
    different codes of the nodes of the tree; records that are skipped may
    repeat and may share a code. *)
Theorem organizeOccupations_permutation (L : JS.Collation) (occupations : list Occupation) :
  (forall occupations',
     Permutation occupations occupations' ->
     noTies L (organizeOccupations L occupations) ->
     organizeOccupations L occupations = organizeOccupations L occupations') /\
  (codeDetermines occupations ->
   separates L (nodeCodes occupations) ->
   noTies L (organizeOccupations L occupations)).
Proof.
  split.
  - intros occupations' Hp Hn. apply asChild_inj.
    apply noTies_tieFree in Hn.
    rewrite !organizeOccupations_sortForest, !unsorted_build in *.
    apply sortForest_build_perm; [| exact Hn].
    unfold itemsOf. now apply Permutation_flat_map.
  - intros Hdet Hsep. apply noTies_tieFree.
    rewrite organizeOccupations_sortForest, unsorted_build.
    apply tieFree_build; [now apply itemsOf_untied | apply itemsOf_separated].
Qed.

Lemma organizeOccupations_permutation_witness :
  let a := occupationOf "2512" "Software developer" in
  let b := occupationOf "2511" "Systems analyst" in
  let c := occupationOf "25" "ICT professionals" in
  let e1 := occupationOf "" "No code" in
  let e2 := occupationOf "" "No code either" in
  organizeOccupations codeUnits [a; e1; b; c; e2]
  = organizeOccupations codeUnits [e2; c; e1; a; b].
Proof.
  intros a b c e1 e2.
  destruct (organizeOccupations_permutation codeUnits [a; e1; b; c; e2]) as [Hperm Hfree].
  apply Hperm.
  - apply Permutation_sym.
    apply (Permutation_cons_app [a; e1; b; c] []).
    apply (Permutation_cons_app [a; e1; b] []).
    apply (Permutation_cons_app [a] [b]). reflexivity.
  - apply Hfree.
    + intros o1 o2 H1 H2 Hpl Hc. simpl in H1, H2.
      destruct H1 as [<- | [<- | [<- | [<- | [<- | []]]]]];
        try discriminate Hpl;
        destruct H2 as [<- | [<- | [<- | [<- | [<- | []]]]]];
        try reflexivity; discriminate Hc.
    + intros x y _ _ H. now apply String.compare_eq_iff.
Defined.

(** C8, as stated, fails: two records of the same code are kept in the
    order of the input, so that a reordering of the input changes the tree. *)
Lemma permutation_counterexample :
  let a := occupationOf "2512" "Software developer" in
  let b := occupationOf "2512" "Web developer" in
  Permutation [a; b] [b; a] /\
  organizeOccupations codeUnits [a; b] <> organizeOccupations codeUnits [b; a].
Proof.
  intros a b. split; [apply perm_swap |].
  vm_compute. discriminate.
Qed.

(** Two different codes that compare as equal are a tie as well: the record
    of code ["1"] and the group of the code made of ["1"] and a soft hyphen
    are children of the major group ["1"], the sort leaves them in the
    order of the input, and a reordering of the input changes the tree. *)
Example permutation_with_tied_codes :
  let shy := String (ascii_of_nat 173) "" in
  let a := occupationOf "1" "Managers" in
  let b := occupationOf ("1" ++ shy) "Managers, hyphenated" in
  code a <> code b /\
  JS.localeCompare weightless (code a) ("1" ++ shy) = Eq /\
  organizeOccupations weightless [a; b] <> organizeOccupations weightless [b; a].
Proof.
  intros shy a b. split; [discriminate |]. split; [reflexivity |].
  vm_compute. discriminate.
Qed.

(* ------------------------------------------------------------------ *)
(** ** The search engine *)

Import EnhancedSearchEngine.

Lemma blank_trim (query : string) : blank query -> JS.trim query = "".
Proof.
  unfold blank, JS.trim. induction query as [| c q IH]; simpl; intros H; [reflexivity |].
  inversion H as [| ? ? Hc Hq]; subst. rewrite Hc. now apply IH.
Qed.

Lemma getFilteredOccupations_eq (this : t) (filters : option SearchFilters) :
  getFilteredOccupations this filters
  = map browseResult (filter (passes filters) (occupations this)).
Proof.
  unfold getFilteredOccupations, passes. destruct filters as [f |]; [reflexivity |].
  f_equal. induction (occupations this) as [| o l IH]; simpl; congruence.
Qed.

(** [matchesFilters] decides the filters of the specification. *)
Lemma matchesFilters_satisfies (occ : Occupation) (filters : SearchFilters) :
  matchesFilters occ filters = satisfies (Some filters) occ.
Proof.
  unfold matchesFilters, satisfies, facetKeeps, JS.Array_includes.
  destruct (iscoMajorGroups filters) as [| g gs];
    destruct (occupationTypes filters) as [| ty tys];
    destruct (JS.char0 (code occ)) as [m |];
    destruct (JS.truthy (occupationType occ)); cbn [List.length Nat.ltb Nat.leb andb orb negb];
    repeat match goal with
           | |- context [existsb ?f ?l] => destruct (existsb f l)
           end; reflexivity.
Qed.

Lemma passes_satisfies (filters : option SearchFilters) (occ : Occupation) :
  passes filters occ = satisfies filters occ.
Proof. destruct filters as [f |]; [apply matchesFilters_satisfies | reflexivity]. Qed.

(** C6: on an empty or all-white-space query, [search] returns normally the
    records of the corpus that satisfy the filters, in the order of the
    corpus, each with the score 1, no matches and its breadcrumb, cut to
    the first [limit] of them.  The filters are those of the specification
    ([satisfies]), not the function of the source. *)
Theorem search_blank_query (h : Host) (this : t) (query : string)
  (filters : option SearchFilters) (limit : nat) :
  blank query ->
  search h this query filters limit
  = Normal (firstn limit (map browseResult (filter (satisfies filters) (occupations this))))
  /\ List.length (firstn limit
                    (map browseResult (filter (satisfies filters) (occupations this))))
     <= limit.
Proof.
  intros Hb. split; [| apply firstn_le_length].
  unfold search. rewrite (blank_trim query Hb). simpl.
  unfold JS.slice0. rewrite getFilteredOccupations_eq.
  now rewrite (filter_ext _ _ (passes_satisfies filters)).
Qed.

Lemma search_blank_query_witness :
  let occupations :=
    [occupationOf "1311" "Farm manager"; occupationOf "2512" "Software developer";
     occupationOf "" "No code"; occupationOf "2511" "Systems analyst";
     occupationOf "2513" "Web developer"] in
  let query := String (ascii_of_nat 160) (String (ascii_of_nat 9) " ") in
  search sampleHost (constructor sampleHost occupations) query
    (Some (mkSearchFilters ["2"] [])) 2
  = Normal [browseResult (occupationOf "2512" "Software developer");
            browseResult (occupationOf "2511" "Systems analyst")].
Proof.
  intros occupations query.
  assert (Hb : blank query) by (repeat constructor).
  exact (proj1 (search_blank_query sampleHost (constructor sampleHost occupations) query
                  (Some (mkSearchFilters ["2"] [])) 2 Hb)).
Defined.

(* ------------------------------------------------------------------ *)
(** *** The filters *)

Lemma matchesFilters_empty_code (occ : Occupation) (filters : SearchFilters) :
  code occ = "" -> iscoMajorGroups filters <> [] -> matchesFilters occ filters = false.
Proof.
  intros Hc Hf. unfold matchesFilters. rewrite Hc. simpl.
  destruct (iscoMajorGroups filters); [congruence | reflexivity].
Qed.

Lemma matchesFilters_empty_type (occ : Occupation) (filters : SearchFilters) :
  occupationType occ = "" -> occupationTypes filters <> [] ->
  matchesFilters occ filters = false.
Proof.
  intros Hc Hf. unfold matchesFilters. rewrite Hc. simpl.
  destruct (occupationTypes filters); [congruence |]. simpl.
  now destruct (_ && _).
Qed.

Lemma Array_map_throwing_Normal {A B : Type} (f : A -> Completion B) (l : list A) :
  forall ys, Array_map_throwing f l = Normal ys -> Forall2 (fun x y => f x = Normal y) l ys.
Proof.
  induction l as [| x l IH]; simpl; intros ys H.
  - injection H as <-. constructor.
  - destruct (f x) as [y |] eqn:Hx; [| discriminate]. simpl in H.
    destruct (Array_map_throwing f l) as [ys' |]; [| discriminate]. simpl in H.
    injection H as <-. constructor; auto.
Qed.

Lemma boostOne_occupation (h : Host) (q : string) (x y : SearchResult) :
  boostOne h q x = Normal y -> occupation y = occupation x.
Proof.
  unfold boostOne. destruct (RegExp_new h _); simpl; [| discriminate].
  now intros [= <-].
Qed.

Lemma boostRelevance_occupations (h : Host) (results boosted : list SearchResult)
  (query : string) (r : SearchResult) :
  boostRelevance h results query = Normal boosted -> In r boosted ->
  exists x, In x results /\ occupation r = occupation x.
Proof.
  unfold boostRelevance.
  destruct (Array_map_throwing _ results) as [ys |] eqn:Hm; simpl; [| discriminate].
  intros [= <-] Hin. apply Array_sort_In in Hin.
  apply Array_map_throwing_Normal in Hm.
  clear - Hm Hin. induction Hm as [| x y l ys Hxy _ IH]; [destruct Hin |].
  destruct Hin as [-> | Hin].
  - exists x. split; [now left | eapply boostOne_occupation, Hxy].
  - destruct (IH Hin) as (x' & Hx' & He). exists x'. split; [now right | exact He].
Qed.

Lemma In_firstn {A : Type} (n : nat) (l : list A) (x : A) : In x (firstn n l) -> In x l.
Proof.
  intros H. rewrite <- (firstn_skipn n l). apply in_or_app. now left.
Qed.

Lemma search_results_pass (h : Host) (this : t) (query : string)
  (filters : SearchFilters) (limit : nat) (results : list SearchResult) (r : SearchResult) :
  search h this query (Some filters) limit = Normal results -> In r results ->
  matchesFilters (occupation r) filters = true.
Proof.
  unfold search. destruct (negb _).
  - intros [= <-] Hin. unfold JS.slice0 in Hin. apply In_firstn in Hin.
    rewrite getFilteredOccupations_eq in Hin.
    apply in_map_iff in Hin as (o & <- & Hin). apply filter_In in Hin. tauto.
  - destruct (boostRelevance _ _ _) as [boosted |] eqn:Hb; simpl; [| discriminate].
    intros [= <-] Hin. unfold JS.slice0 in Hin. apply In_firstn in Hin.
    destruct (boostRelevance_occupations _ _ _ _ _ Hb Hin) as (x & Hx & ->).
    unfold applyFilters in Hx. apply filter_In in Hx. tauto.
Qed.

(** C9: a record with an empty code fails the filters whenever
    [iscoMajorGroups] is not empty, a record with an empty occupation type
    whenever [occupationTypes] is not empty, whatever the values of the
    filter; hence no result of a filtered search, on a query or on none, is
    such a record when the facet is in use. *)
Theorem empty_fields_fail_filters :
  (forall occ filters,
     code occ = "" -> iscoMajorGroups filters <> [] -> matchesFilters occ filters = false) /\
  (forall occ filters,
     occupationType occ = "" -> occupationTypes filters <> [] ->
     matchesFilters occ filters = false) /\
  (forall h this query filters limit results r,
     search h this query (Some filters) limit = Normal results -> In r results ->
     (iscoMajorGroups filters <> [] -> code (occupation r) <> "") /\
     (occupationTypes filters <> [] -> occupationType (occupation r) <> "")).
Proof.
  split; [exact matchesFilters_empty_code |]. split; [exact matchesFilters_empty_type |].
  intros h this query filters limit results r Hs Hin.
  pose proof (search_results_pass h this query filters limit results r Hs Hin) as Hp.
  split; intros Hf He.
  - rewrite (matchesFilters_empty_code _ _ He Hf) in Hp. discriminate.
  - rewrite (matchesFilters_empty_type _ _ He Hf) in Hp. discriminate.
Qed.

Lemma empty_fields_fail_filters_witness :
  matchesFilters (occupationOf "" "Unclassified") (mkSearchFilters ["2"; ""] []) = false.
Proof.
  apply (proj1 empty_fields_fail_filters); [reflexivity | discriminate].
Defined.

(* ------------------------------------------------------------------ *)
(** *** The word-boundary expression *)

Lemma RegExp_new_rejected (h : Host) (source : string) :
  RegExp.syntax source = RegExp.Rejected -> RegExp_new h source = Throw_SyntaxError.
Proof. unfold RegExp_new. now intros ->. Qed.

(** The scores that [boostRelevance] gives when the expression compiles:
    the factors 1.3, 1.2 and 1.1, each on its own condition, one after the
    other. *)
Lemma boostOne_compiled (h : Host) (queryLower : string) (result : SearchResult)
  (re : string) :
  RegExp_new h ("\b" ++ queryLower) = Normal re ->
  boostOne h queryLower result
  = Normal (mkSearchResult (occupation result)
      (let s0 := score result in
       let s1 := if JS.includes (JS.toLowerCase (preferredLabel (occupation result)))
                      queryLower then (s0 * 1.3)%float else s0 in
       let s2 := if JS.includes (JS.toLowerCase (code (occupation result))) queryLower
                 then (s1 * 1.2)%float else s1 in
       if RegExp_test h re (preferredLabel (occupation result))
       then (s2 * 1.1)%float else s2)
      (matches result) (breadcrumb result)).
Proof. unfold boostOne. now intros ->. Qed.

Lemma boostRelevance_rejected (h : Host) (result : SearchResult)
  (rest : list SearchResult) (query : string) :
  RegExp.syntax ("\b" ++ JS.toLowerCase query) = RegExp.Rejected ->
  boostRelevance h (result :: rest) query = Throw_SyntaxError.
Proof.
  intros Hs. unfold boostRelevance. simpl. unfold boostOne.
  now rewrite (RegExp_new_rejected h _ Hs).
Qed.

(** C5 does not hold on a query that is not a well-formed regular
    expression.  On the query ["C++"] and a result whose label is
    ["C++ developer"], the lowercased query is a literal substring of the
    lowercased label, so that the claim asks for the factor 1.3; the
    expression built from the query does not compile, and [boostRelevance]
    throws and gives no score at all, whatever the raw score, the host and
    the other results. *)
Theorem boostRelevance_throws (h : Host) (s : float) (rest : list SearchResult) :
  let result :=
    mkSearchResult (occupationOf "2514" "C++ developer") s []
      (generateBreadcrumb (occupationOf "2514" "C++ developer")) in
  JS.includes (JS.toLowerCase (preferredLabel (occupation result))) (JS.toLowerCase "C++")
  = true /\
  RegExp.syntax ("\b" ++ JS.toLowerCase "C++") = RegExp.Rejected /\
  boostRelevance h (result :: rest) "C++" = Throw_SyntaxError.
Proof.
  intros result. split; [reflexivity |]. split; [reflexivity |].
  unfold boostRelevance. cbn [Array_map_throwing].
  unfold boostOne at 1. rewrite RegExp_new_rejected by reflexivity.
  reflexivity.
Qed.

(** C1 does not hold: on the queries ["c++"] and ["("], as soon as the
    index returns a candidate, [search] throws a [SyntaxError]. *)
Theorem search_throws_on_metacharacters (h : Host) (occupations : list Occupation)
  (query : string) (limit : nat) :
  query = "c++" \/ query = "(" ->
  Fuse_search h occupations query (limit * 2) <> [] ->
  search h (constructor h occupations) query None limit = Throw_SyntaxError.
Proof.
  intros Hq Hf. unfold search, constructor. simpl fuse.
  destruct (Fuse_search h occupations query (limit * 2)) as [| x l]; [congruence |].
  destruct Hq as [-> | ->]; simpl negb; cbv iota; simpl map;
    now rewrite boostRelevance_rejected.
Qed.

Lemma search_throws_on_metacharacters_witness :
  search sampleHost (constructor sampleHost [occupationOf "2514" "C++ developer"])
    "c++" None 100 = Throw_SyntaxError.
Proof.
  apply search_throws_on_metacharacters; [now left | vm_compute; discriminate].
Defined.

(** C4 does not hold: the table of minor groups of the engine has no entry
    for ["251"], so that the breadcrumb of the code ["2512"] ends with the
    synthetic name, where the table of the taxonomy has the name. *)
Theorem breadcrumb_2512 (label : string) :
  generateBreadcrumb (occupationOf "2512" label)
  = "2 - Professionals > 25 - Information and communications technology professionals > 251 - Group 251"
  /\ generateBreadcrumb (occupationOf "2512" label)
     <> "2 - Professionals > 25 - Information and communications technology professionals > 251 - Software and applications developers and analysts"
  /\ Occupations.getMinorGroupName "251"
     = "Software and applications developers and analysts".
Proof. repeat split; vm_compute; congruence. Qed.

(* ------------------------------------------------------------------ *)
(** ** Runs on small inputs *)

(** The tree of two unit-level records: one root, one group per level, the
    two unit groups in order of code. *)
Example organize_two_records :
  organizeOccupations codeUnits
    [occupationOf "2512" "Software developer"; occupationOf "2511" "Systems analyst"]
  = [mkGroup "2" "Professionals"
       [GroupChild "25" "Information and communications technology professionals"
          [GroupChild "251" "Software and applications developers and analysts"
             [GroupChild "2511" "Group 2511"
                [OccChild (occupationOf "2511" "Systems analyst")];
              GroupChild "2512" "Group 2512"
                [OccChild (occupationOf "2512" "Software developer")]]]]].
Proof. reflexivity. Qed.

(** A record without a code, or with nothing before the first dot, is left
    out of the tree. *)
Example organize_skips_empty_codes :
  organizeOccupations codeUnits [occupationOf "" "No code"; occupationOf ".5" "Dot first"] = [].
Proof. reflexivity. Qed.

Example availableFilters_two_groups :
  getAvailableFilters
    (constructor sampleHost
       [occupationOf "2512" "Software developer"; occupationOf "1311" "Farm manager";
        occupationOf "2511" "Systems analyst"])
  = (["1"; "2"], []).
Proof. reflexivity. Qed.

Example syntax_samples :
  map RegExp.syntax
    ["\bsoftware"; "\bc++"; "\b("; "\b)"; "\b*"; "\bc#"; "\b.net"; "\ba{2,1}";
     "\b(?<=a)+"; "\b[a-z"; "\bq\"; "\ba{5,2147483648}"; "\ba{2147483648,5}";
     "\ba{2147483648,2147483647}"; "\b{2147483648,2147483647}"]
  = [RegExp.Accepted; RegExp.Rejected; RegExp.Rejected; RegExp.Rejected;
     RegExp.Rejected; RegExp.Accepted; RegExp.Accepted; RegExp.Rejected;
     RegExp.Rejected; RegExp.Beyond; RegExp.Rejected; RegExp.Accepted; RegExp.Rejected;
     RegExp.Beyond; RegExp.Rejected].
Proof. reflexivity. Qed.

(** The no-break space (U+00A0) is trimmed with the other white space, and
    the capitals of Latin-1 have their small letters: the capital E with
    an acute accent (U+00C9) becomes the small one (U+00E9), and the
    multiplication sign (U+00D7) stays. *)
Example builtins_beyond_ascii :
  JS.trim (String (ascii_of_nat 160) (String (ascii_of_nat 9) " ")) = "" /\
  JS.toLowerCase (String (ascii_of_nat 201) "COLE") = String (ascii_of_nat 233) "cole" /\
  JS.toLowerCase (String (ascii_of_nat 215) "Z") = String (ascii_of_nat 215) "z".
Proof. repeat split; reflexivity. Qed.

(** A query found in the label: the raw score 1 - 0.25 is multiplied by
    1.3 (the word-boundary test of [sampleHost] never holds). *)
Example search_software :
  search sampleHost
    (constructor sampleHost [occupationOf "2512" "Software developer"])
    "Software" None 10
  = Normal [mkSearchResult (occupationOf "2512" "Software developer")
              (0.75 * 1.3)%float []
              "2 - Professionals > 25 - Information and communications technology professionals > 251 - Group 251"].
Proof. reflexivity. Qed.

(* ================================================================== *)
(** ** Further properties of the taxonomy *)

Import Occupations.

(* ------------------------------------------------------------------ *)
(** *** No record is lost, repeated or invented *)

Lemma records_app (l1 l2 : list Child) :
  flat_map recordsOf (l1 ++ l2) = flat_map recordsOf l1 ++ flat_map recordsOf l2.
Proof. apply flat_map_app. Qed.

Lemma records_updateGroup (o : Occupation) (c : string)
  (f : list Child -> list Child) (l : list Child) :
  (forall k, Permutation (flat_map recordsOf (f k)) (o :: flat_map recordsOf k)) ->
  hasGroup c l = true ->
  Permutation (flat_map recordsOf (updateGroup c f l)) (o :: flat_map recordsOf l).
Proof.
  intros Hf. induction l as [| [gc gn k | o'] l IH]; simpl; intros H; [discriminate | |].
  - destruct (String.eqb gc c) eqn:E; simpl.
    + rewrite Hf. reflexivity.
    + rewrite (IH H). apply Permutation_sym, Permutation_middle.
  - rewrite (IH H). apply perm_swap.
Qed.

Lemma records_insertPath (o : Occupation) (p : list string) :
  forall lvl ch,
    Permutation (flat_map recordsOf (insertPath lvl p o ch)) (o :: flat_map recordsOf ch).
Proof.
  induction p as [| c p IH]; intros lvl ch; simpl.
  - unfold push. rewrite records_app. simpl.
    apply Permutation_sym, Permutation_cons_append.
  - unfold withGroup.
    destruct (hasGroup c ch) eqn:E.
    + apply records_updateGroup; [intros k; apply IH | exact E].
    + rewrite records_updateGroup.
      * rewrite records_app. simpl. now rewrite app_nil_r.
      * intros k. apply IH.
      * rewrite hasGroup_app. simpl. rewrite String.eqb_refl. apply orb_true_r.
Qed.

Lemma pathOf_placed (o : Occupation) :
  pathOf o = if placed o then Some (placementPath (mainCodeOf o)) else None.
Proof. reflexivity. Qed.

Lemma records_unsorted (occupations : list Occupation) :
  Permutation (flat_map recordsOf (unsorted occupations)) (filter placed occupations).
Proof.
  unfold unsorted.
  assert (H : forall ch,
             Permutation (flat_map recordsOf (fold_left insertOccupation occupations ch))
               (flat_map recordsOf ch ++ filter placed occupations)).
  { induction occupations as [| o l IH]; intros ch; simpl.
    - now rewrite app_nil_r.
    - rewrite IH. unfold insertOccupation. rewrite pathOf_placed.
      destruct (placed o); [| reflexivity].
      rewrite records_insertPath. simpl. apply Permutation_middle. }
  apply (H []).
Qed.

Lemma records_sortChild (L : JS.Collation) (c : Child) :
  Permutation (recordsOf (sortChild L c)) (recordsOf c).
Proof.
  induction c as [o | gc gn k IH] using Child_ind_nested; [reflexivity |].
  simpl. rewrite (Permutation_flat_map recordsOf (Array_sort_perm (compareChildren L) _)).
  induction IH as [| x k Hx _ IHk]; simpl; [reflexivity |].
  now apply Permutation_app.
Qed.

Lemma records_sortForest (L : JS.Collation) (ch : list Child) :
  Permutation (flat_map recordsOf (sortForest L ch)) (flat_map recordsOf ch).
Proof.
  unfold sortForest.
  rewrite (Permutation_flat_map recordsOf (Array_sort_perm (compareChildren L) _)).
  induction ch as [| x ch IH]; simpl; [reflexivity |].
  apply Permutation_app; [apply records_sortChild | exact IH].
Qed.

Lemma records_organize (L : JS.Collation) (occupations : list Occupation) :
  Permutation (recordsOfTree (organizeOccupations L occupations))
              (filter placed occupations).
Proof.
  unfold recordsOfTree. rewrite organizeOccupations_sortForest.
  rewrite records_sortForest. apply records_unsorted.
Qed.

(** X1: the records of the returned tree are the records of the input that
    have a code with something before its first dot, each as many times as
    in the input. *)
Theorem tree_keeps_the_placed_records (L : JS.Collation) (occupations : list Occupation) :
  Permutation (recordsOfTree (organizeOccupations L occupations))
              (filter placed occupations).
Proof. exact (records_organize L occupations). Qed.

(* ------------------------------------------------------------------ *)
(** *** Properties of the children of every group *)

Lemma Everywhere_sortChild (L : JS.Collation) (P : list Child -> Prop) :
  (forall k, P k -> P (sortForest L k)) ->
  forall c, Everywhere P c -> Everywhere P (sortChild L c).
Proof.
  intros HP c. induction c as [o | gc gn k IH] using Child_ind_nested; intros H;
    [exact H |].
  inversion H as [| ? ? ? HPk Hk]; subst.
  change (sortChild L (GroupChild gc gn k)) with (GroupChild gc gn (sortForest L k)).
  constructor; [now apply HP |].
  apply Forall_forall. intros x Hx.
  apply Array_sort_In, in_map_iff in Hx as (y & <- & Hy).
  rewrite Forall_forall in IH, Hk. now apply IH, Hk.
Qed.

Lemma fits_tails (fuel : nat) (c : string) (items : list Item) :
  fits (S fuel) items -> fits fuel (tails c items).
Proof.
  intros H it Hin. apply In_tails in Hin. specialize (H _ Hin). simpl in H. lia.
Qed.

Lemma build_Everywhere (P : list Child -> Prop) :
  (forall fuel lvl items, fits fuel items -> items <> [] -> P (build fuel lvl items)) ->
  forall fuel lvl items, fits fuel items -> Forall (Everywhere P) (build fuel lvl items).
Proof.
  intros HP. induction fuel as [| fuel IH]; intros lvl items Hfit;
    rewrite build_eq; apply Forall_forall; intros x Hx;
    apply in_map_iff in Hx as ([c | o] & <- & Hk); simpl; try constructor.
  - apply In_firsts in Hk as ([p o] & Hin & Hk). unfold keyOf in Hk. simpl in Hk.
    destruct p; [discriminate |]. specialize (Hfit _ Hin). simpl in Hfit. lia.
  - constructor.
  - apply In_firsts in Hk as ([p o] & Hin & Hk). unfold keyOf in Hk. simpl in Hk.
    destruct p as [| c' p]; [discriminate |]. injection Hk as ->.
    apply HP; [now apply fits_tails |].
    intros He. assert (Hin' : In (p, o) (tails c items)) by now apply In_tails.
    rewrite He in Hin'. destruct Hin'.
  - apply IH. now apply fits_tails.
Qed.

Lemma itemsOf_fits (occupations : list Occupation) : fits 4 (itemsOf occupations).
Proof.
  intros [p o] Hin. apply In_itemsOf in Hin as [_ Hp]. simpl in *.
  apply pathOf_Some in Hp as [_ ->]. apply placementPath_length.
Qed.

Lemma organize_Everywhere (L : JS.Collation)
  (P : list Child -> Prop) (occupations : list Occupation) :
  (forall fuel lvl items, fits fuel items -> items <> [] -> P (build fuel lvl items)) ->
  (forall k, P k -> P (sortForest L k)) ->
  forall g, In g (allGroups (organizeOccupations L occupations)) -> P (childrenOf g).
Proof.
  intros Hb Hs g Hg. unfold allGroups in Hg.
  rewrite organizeOccupations_sortForest, unsorted_build in Hg.
  apply in_flat_map in Hg as (x & Hx & Hg).
  apply Array_sort_In, in_map_iff in Hx as (y & <- & Hy).
  apply (Everywhere_subgroups P (sortChild L y)); [| exact Hg].
  apply Everywhere_sortChild; [exact Hs |].
  pose proof (build_Everywhere P Hb 4 0 _ (itemsOf_fits occupations)) as H.
  rewrite Forall_forall in H. now apply H.
Qed.

(* ------------------------------------------------------------------ *)
(** *** One group per code among siblings *)

Lemma childGroupCodes_childOfKey (lvl : nat) (sub : string -> list Child)
  (ks : list Key) :
  childGroupCodes (map (childOfKey lvl sub) ks) = groupCodes ks.
Proof.
  induction ks as [| [c | o] ks IH]; simpl; [reflexivity | |]; now rewrite <- IH.
Qed.

Lemma childGroupCodes_sortChild (L : JS.Collation) (k : list Child) :
  childGroupCodes (map (sortChild L) k) = childGroupCodes k.
Proof.
  induction k as [| [gc gn k' | o] k IH]; simpl; [reflexivity | |]; now rewrite <- IH.
Qed.

Lemma childGroupCodes_sortForest (L : JS.Collation) (k : list Child) :
  Permutation (childGroupCodes (sortForest L k)) (childGroupCodes k).
Proof.
  unfold sortForest, childGroupCodes at 1.
  rewrite (Permutation_flat_map _ (Array_sort_perm (compareChildren L) _)).
  fold (childGroupCodes (map (sortChild L) k)). now rewrite childGroupCodes_sortChild.
Qed.

Lemma childGroupCodes_asChild (roots : list OccupationGroup) :
  childGroupCodes (map asChild roots) = map group_code roots.
Proof. induction roots as [| g l IH]; simpl; [reflexivity |]. now rewrite <- IH. Qed.

(** X2: in every returned tree, the root groups have pairwise distinct
    codes, and so have the groups among the children of every group. *)
Theorem sibling_groups_have_distinct_codes (L : JS.Collation)
  (occupations : list Occupation) :
  NoDup (map group_code (organizeOccupations L occupations)) /\
  forall g, In g (allGroups (organizeOccupations L occupations)) ->
            NoDup (childGroupCodes (childrenOf g)).
Proof.
  split.
  - rewrite <- childGroupCodes_asChild, organizeOccupations_sortForest, unsorted_build.
    eapply Permutation_NoDup; [symmetry; apply childGroupCodes_sortForest |].
    rewrite build_eq, childGroupCodes_childOfKey. apply firsts_groupCodes_NoDup.
  - apply (organize_Everywhere L (fun k => NoDup (childGroupCodes k))).
    + intros fuel lvl items _ _.
      rewrite build_eq, childGroupCodes_childOfKey. apply firsts_groupCodes_NoDup.
    + intros k Hk. eapply Permutation_NoDup; [symmetry; apply childGroupCodes_sortForest |].
      exact Hk.
Qed.

Lemma sibling_groups_have_distinct_codes_witness :
  let occupations :=
    [occupationOf "2512" "Software developer"; occupationOf "2511" "Systems analyst";
     occupationOf "2521" "Database designer"] in
  let g := GroupChild "25" "Information and communications technology professionals"
             [GroupChild "251" "Software and applications developers and analysts"
                [GroupChild "2511" "Group 2511"
                   [OccChild (occupationOf "2511" "Systems analyst")];
                 GroupChild "2512" "Group 2512"
                   [OccChild (occupationOf "2512" "Software developer")]];
              GroupChild "252" "Database and network professionals"
                [GroupChild "2521" "Group 2521"
                   [OccChild (occupationOf "2521" "Database designer")]]] in
  In g (allGroups (organizeOccupations codeUnits occupations)) /\
  NoDup (childGroupCodes (childrenOf g)).
Proof.
  intros occupations g.
  assert (H : In g (allGroups (organizeOccupations codeUnits occupations)))
    by (vm_compute; tauto).
  split; [exact H |].
  exact (proj2 (sibling_groups_have_distinct_codes codeUnits occupations) g H).
Defined.

(* ------------------------------------------------------------------ *)
(** *** No group is empty *)

Lemma firsts_nonempty (items : list Item) : items <> [] -> firsts items <> [].
Proof.
  destruct items as [| it items]; [congruence |]. intros _ He.
  assert (H : In (keyOf it) (firsts (it :: items)))
    by (apply In_firsts; exists it; split; [now left | reflexivity]).
  rewrite He in H. destruct H.
Qed.

Lemma sortForest_nonempty (L : JS.Collation) (k : list Child) :
  k <> [] -> sortForest L k <> [].
Proof.
  intros Hk He. apply Hk.
  assert (Hl : List.length (sortForest L k) = List.length k).
  { unfold sortForest. rewrite (Permutation_length (Array_sort_perm _ _)).
    apply length_map. }
  rewrite He in Hl. destruct k; [reflexivity | discriminate].
Qed.

Lemma nonempty_children_records (c : Child) :
  Everywhere (fun k => k <> []) c -> recordsOf c <> [].
Proof.
  induction c as [o | gc gn k IH] using Child_ind_nested; intros H; [discriminate |].
  inversion H as [| ? ? ? Hne Hk]; subst.
  destruct k as [| x k]; [congruence |].
  inversion IH as [| ? ? IHx _]; inversion Hk as [| ? ? Hx _]; subst. simpl.
  intros He. apply app_eq_nil in He as [He _]. now apply (IHx Hx).
Qed.

(** X3: in every returned tree, every group has at least one child, and at
    least one record below it. *)
Theorem no_group_is_empty (L : JS.Collation) (occupations : list Occupation) (g : Child) :
  In g (allGroups (organizeOccupations L occupations)) ->
  childrenOf g <> [] /\ recordsOf g <> [].
Proof.
  intros Hg. split.
  - revert g Hg. apply (organize_Everywhere L (fun k => k <> [])).
    + intros fuel lvl items _ Hne. rewrite build_eq. intros He.
      apply map_eq_nil in He. now apply (firsts_nonempty items).
    + apply sortForest_nonempty.
  - unfold allGroups in Hg.
    rewrite organizeOccupations_sortForest, unsorted_build in Hg.
    apply in_flat_map in Hg as (x & Hx & Hg).
    apply Array_sort_In, in_map_iff in Hx as (y & <- & Hy).
    assert (He : Everywhere (fun k => k <> []) (sortChild L y)).
    { apply Everywhere_sortChild; [apply sortForest_nonempty |].
      assert (H : Forall (Everywhere (fun k => k <> [])) (build 4 0 (itemsOf occupations))).
      { apply build_Everywhere; [| apply itemsOf_fits].
        intros fuel lvl items _ Hne. rewrite build_eq. intros He.
        apply map_eq_nil in He. now apply (firsts_nonempty items). }
      rewrite Forall_forall in H. now apply H. }
    clear - He Hg. revert g Hg.
    induction (sortChild L y) as [o | gc gn k IH] using Child_ind_nested; intros g Hg;
      [destruct Hg |].
    destruct Hg as [<- | Hg]; [now apply nonempty_children_records |].
    inversion He as [| ? ? ? _ Hk]; subst.
    apply in_flat_map in Hg as (x & Hx & Hg).
    rewrite Forall_forall in IH, Hk. now apply (IH x Hx (Hk x Hx)).
Qed.

Lemma no_group_is_empty_witness :
  let o := occupationOf "2512.1" "Web developer" in
  let g := GroupChild "2512" "Group 2512" [OccChild o] in
  childrenOf g <> [] /\ recordsOf g <> [].
Proof.
  intros o g. apply (no_group_is_empty codeUnits [o] g). vm_compute. tauto.
Defined.

(* ------------------------------------------------------------------ *)
(** *** The names of the groups *)

Lemma labelled_group (lvl : nat) (gc gn : string) (k : list Child) :
  labelled lvl (GroupChild gc gn k)
  <-> String.length gc = S lvl /\ gn = levelName lvl gc /\ Forall (labelled (S lvl)) k.
Proof.
  simpl.
  assert (H : (fix all (l : list Child) : Prop :=
                 match l with
                 | [] => True
                 | x :: r => labelled (S lvl) x /\ all r
                 end) k <-> Forall (labelled (S lvl)) k).
  { induction k as [| x k IH]; split; intros H.
    - constructor.
    - exact I.
    - destruct H as [Hx Hk]. constructor; [exact Hx | now apply IH].
    - inversion H; subst. split; [assumption | now apply IH]. }
  tauto.
Qed.

Lemma insertPath_labelled (o : Occupation) (p : list string) :
  forall lvl ch,
    levelsFrom (S lvl) p ->
    Forall (labelled lvl) ch ->
    Forall (labelled lvl) (insertPath lvl p o ch).
Proof.
  induction p as [| c p IH]; intros lvl ch Hp Hch; simpl.
  - unfold push. apply Forall_app. split; [exact Hch |]. now repeat constructor.
  - destruct Hp as (Hlen & _ & Hp).
    apply withGroup_Forall; [| | exact Hch].
    + intros gn k Hk. apply labelled_group in Hk as (H1 & H2 & H3).
      apply labelled_group. repeat split; trivial. now apply IH.
    + apply labelled_group. repeat split; trivial.
Qed.

Lemma unsorted_labelled (occupations : list Occupation) :
  Forall (labelled 0) (unsorted occupations).
Proof.
  unfold unsorted.
  assert (H : forall ch, Forall (labelled 0) ch ->
                         Forall (labelled 0) (fold_left insertOccupation occupations ch)).
  { induction occupations as [| o l IH]; intros ch Hch; [exact Hch |].
    simpl. apply IH. unfold insertOccupation.
    destruct (pathOf o) as [p |] eqn:Hp; [| exact Hch].
    apply insertPath_labelled; [| exact Hch].
    apply pathOf_Some in Hp as [Hm ->]. now apply placementPath_levels. }
  apply H. constructor.
Qed.

Lemma sortChild_labelled (L : JS.Collation) (c : Child) :
  forall lvl, labelled lvl c -> labelled lvl (sortChild L c).
Proof.
  induction c as [o | gc gn k IH] using Child_ind_nested; intros lvl H; [exact H |].
  simpl sortChild. apply labelled_group in H as (H1 & H2 & H3).
  apply labelled_group. repeat split; trivial.
  apply Forall_forall. intros x Hx.
  apply Array_sort_In, in_map_iff in Hx as (y & <- & Hy).
  rewrite Forall_forall in IH, H3. apply IH; auto.
Qed.

Lemma labelled_subgroups (c : Child) :
  forall lvl, labelled lvl c ->
    forall gc gn k, In (GroupChild gc gn k) (subgroups c) ->
      exists l, String.length gc = S l /\ gn = levelName l gc.
Proof.
  induction c as [o | gc' gn' k' IH] using Child_ind_nested; intros lvl H gc gn k Hg;
    [destruct Hg |].
  apply labelled_group in H as (H1 & H2 & H3).
  destruct Hg as [Hg | Hg].
  - injection Hg as <- <- <-. now exists lvl.
  - apply in_flat_map in Hg as (x & Hx & Hg).
    rewrite Forall_forall in IH, H3. apply (IH x Hx (S lvl) (H3 x Hx) gc gn k Hg).
Qed.

(** X4: in every returned tree the name of a group is the entry of its code
    in the table of its level, or ["Group " ++ code] when the table has
    none: [getMajorGroupName] for a code of one character,
    [getSubMajorGroupName] for two, [getMinorGroupName] for three,
    [getUnitGroupName] for four. *)
Theorem group_names_come_from_the_tables (L : JS.Collation)
  (occupations : list Occupation)
  (gc gn : string) (k : list Child) :
  In (GroupChild gc gn k) (allGroups (organizeOccupations L occupations)) ->
  gn = match String.length gc with
       | 1 => getMajorGroupName gc
       | 2 => getSubMajorGroupName gc
       | 3 => getMinorGroupName gc
       | _ => getUnitGroupName gc
       end.
Proof.
  unfold allGroups. rewrite organizeOccupations_sortForest. intros Hg.
  apply in_flat_map in Hg as (x & Hx & Hg).
  apply Array_sort_In, in_map_iff in Hx as (y & <- & Hy).
  pose proof (unsorted_labelled occupations) as Hl. rewrite Forall_forall in Hl.
  destruct (labelled_subgroups _ 0 (sortChild_labelled L y 0 (Hl y Hy)) gc gn k Hg)
    as (l & Hlen & ->).
  rewrite Hlen. now destruct l as [| [| [| l]]].
Qed.

Lemma group_names_come_from_the_tables_witness :
  let o := occupationOf "2512.1" "Web developer" in
  "Software and applications developers and analysts" = getMinorGroupName "251".
Proof.
  intros o.
  apply (group_names_come_from_the_tables codeUnits [o] "251"
           "Software and applications developers and analysts"
           [GroupChild "2512" "Group 2512" [OccChild o]]).
  vm_compute. tauto.
Defined.

(* ------------------------------------------------------------------ *)
(** *** The skipped records, and the tree of the records of a tree *)

Lemma itemsOf_filter_placed (occupations : list Occupation) :
  itemsOf (filter placed occupations) = itemsOf occupations.
Proof.
  unfold itemsOf. induction occupations as [| o l IH]; simpl; [reflexivity |].
  rewrite pathOf_placed. destruct (placed o) eqn:Hp; simpl; [| exact IH].
  now rewrite pathOf_placed, Hp, IH.
Qed.

Lemma organize_items (L : JS.Collation) (occupations : list Occupation) :
  map asChild (organizeOccupations L occupations)
  = sortForest L (build 4 0 (itemsOf occupations)).
Proof. now rewrite organizeOccupations_sortForest, unsorted_build. Qed.

Lemma organize_filter_placed (L : JS.Collation) (occupations : list Occupation) :
  organizeOccupations L (filter placed occupations) = organizeOccupations L occupations.
Proof.
  apply asChild_inj. now rewrite !organize_items, itemsOf_filter_placed.
Qed.

(** X6: the returned tree is empty exactly when every record is skipped
    (no code, or nothing before the first dot of the code); in particular
    on the empty list. *)
Theorem tree_empty_iff_all_skipped (L : JS.Collation) (occupations : list Occupation) :
  organizeOccupations L occupations = [] <->
  forall o, In o occupations -> placed o = false.
Proof.
  split.
  - intros He o Hin. destruct (placed o) eqn:Hp; [| reflexivity].
    assert (H : In o (filter placed occupations)) by (apply filter_In; now split).
    apply (Permutation_in _ (Permutation_sym (records_organize L occupations))) in H.
    rewrite He in H. destruct H.
  - intros H. rewrite <- organize_filter_placed.
    assert (He : filter placed occupations = []).
    { induction occupations as [| o l IH]; [reflexivity |]. simpl.
      rewrite (H o) by now left. apply IH. intros o' Ho'. apply H. now right. }
    now rewrite He.
Qed.

Lemma tree_empty_iff_all_skipped_witness :
  organizeOccupations codeUnits [occupationOf "" "No code"; occupationOf ".5" "Dot first"] = [].
Proof.
  apply tree_empty_iff_all_skipped.
  intros o [<- | [<- | []]]; reflexivity.
Defined.

(* ------------------------------------------------------------------ *)
(** *** [sortChildren] on a sorted group *)

Lemma Array_sort_sorted_id {A : Type} (cmp : A -> A -> comparison) (l : list A) :
  Sorted (fun a b => cmp a b <> Gt) l -> JS.Array_sort cmp l = l.
Proof.
  induction 1 as [| x l Hs IH Hd]; [reflexivity |].
  rewrite Array_sort_cons, IH.
  destruct Hd as [| y l' Hxy]; simpl; [reflexivity |].
  destruct (cmp x y); congruence.
Qed.

Lemma Array_sort_idem_children (L : JS.Collation) (k : list Child) :
  JS.Array_sort (compareChildren L) (JS.Array_sort (compareChildren L) k)
  = JS.Array_sort (compareChildren L) k.
Proof.
  apply Array_sort_sorted_id. apply Array_sort_sorted.
  intros a b. apply localeCompare_total.
Qed.

Lemma sortChild_idem (L : JS.Collation) (c : Child) :
  sortChild L (sortChild L c) = sortChild L c.
Proof.
  induction c as [o | gc gn k IH] using Child_ind_nested; [reflexivity |].
  simpl. f_equal.
  rewrite <- (Array_sort_map (compareChildren L) (compareChildren L) (sortChild L))
    by (intros a b; unfold compareChildren; now rewrite !childCode_sortChild).
  assert (He : map (sortChild L) (map (sortChild L) k) = map (sortChild L) k).
  { rewrite map_map. apply map_ext_in. intros x Hx.
    rewrite Forall_forall in IH. now apply IH. }
  rewrite He. apply Array_sort_idem_children.
Qed.

(** X7: [sortChildren] leaves a sorted group as it is: sorting twice is
    sorting once, and the groups that [organizeOccupations] returns are not
    changed by another [sortChildren]. *)
Theorem sortChildren_idempotent (L : JS.Collation) :
  (forall group, sortChildren L (sortChildren L group) = sortChildren L group) /\
  (forall occupations,
     map (sortChildren L) (organizeOccupations L occupations)
     = organizeOccupations L occupations).
Proof.
  assert (H : forall group, sortChildren L (sortChildren L group) = sortChildren L group).
  { intros [c n k].
    assert (He : asChild (sortChildren L (sortChildren L (mkGroup c n k)))
                 = asChild (sortChildren L (mkGroup c n k)))
      by (rewrite !asChild_sortChildren; apply sortChild_idem).
    unfold asChild in He. simpl in He. injection He as He.
    unfold sortChildren. simpl. f_equal. exact He. }
  split; [exact H |].
  intros occupations. unfold organizeOccupations. rewrite map_map.
  apply map_ext. intros g. apply H.
Qed.

(* ------------------------------------------------------------------ *)
(** *** The tree of the records of a tree *)

(** The items below the children are those of the insertions. *)
Lemma items_updateGroup (it : Item) (c : string)
  (f : list Child -> list Child) (l : list Child) :
  (forall k, Permutation (flat_map itemsIn (f k)) (it :: flat_map itemsIn k)) ->
  hasGroup c l = true ->
  Permutation (flat_map itemsIn (updateGroup c f l))
              ((c :: fst it, snd it) :: flat_map itemsIn l).
Proof.
  intros Hf. induction l as [| [gc gn k | o'] l IH]; simpl; intros H; [discriminate | |].
  - destruct (String.eqb gc c) eqn:E; simpl.
    + apply String.eqb_eq in E. subst gc.
      rewrite (Permutation_map _ (Hf k)). reflexivity.
    + rewrite (IH H). apply Permutation_sym, Permutation_middle.
  - rewrite (IH H). apply perm_swap.
Qed.

Lemma items_insertPath (o : Occupation) (p : list string) :
  forall lvl ch,
    Permutation (flat_map itemsIn (insertPath lvl p o ch)) ((p, o) :: flat_map itemsIn ch).
Proof.
  induction p as [| c p IH]; intros lvl ch; simpl.
  - unfold push. rewrite flat_map_app. simpl.
    apply Permutation_sym, Permutation_cons_append.
  - unfold withGroup.
    destruct (hasGroup c ch) eqn:E.
    + apply (items_updateGroup (p, o)); [intros k; apply IH | exact E].
    + rewrite (items_updateGroup (p, o)).
      * rewrite flat_map_app. simpl. now rewrite app_nil_r.
      * intros k. apply IH.
      * rewrite hasGroup_app. simpl. rewrite String.eqb_refl. apply orb_true_r.
Qed.

Lemma items_build (fuel lvl : nat) (items : list Item) :
  fits fuel items -> Permutation (flat_map itemsIn (build fuel lvl items)) items.
Proof.
  induction items as [| [p o] items IH] using rev_ind; intros Hfit.
  - now rewrite build_nil.
  - assert (Hp : List.length p <= fuel)
      by (apply (Hfit (p, o)); apply in_or_app; right; now left).
    pose proof (items_insertPath o p lvl (build fuel lvl items)) as H.
    rewrite (insertPath_build fuel lvl items p o Hp) in H.
    apply (Permutation_trans H).
    rewrite IH by (intros it Hin; apply Hfit; apply in_or_app; now left).
    apply Permutation_cons_append.
Qed.

Lemma items_sortChild (L : JS.Collation) (c : Child) :
  Permutation (itemsIn (sortChild L c)) (itemsIn c).
Proof.
  induction c as [o | gc gn k IH] using Child_ind_nested; [reflexivity |].
  simpl. apply Permutation_map.
  rewrite (Permutation_flat_map itemsIn (Array_sort_perm (compareChildren L) _)).
  induction IH as [| x k Hx _ IHk]; simpl; [reflexivity |].
  now apply Permutation_app.
Qed.

Lemma items_sortForest (L : JS.Collation) (ch : list Child) :
  Permutation (flat_map itemsIn (sortForest L ch)) (flat_map itemsIn ch).
Proof.
  unfold sortForest.
  rewrite (Permutation_flat_map itemsIn (Array_sort_perm (compareChildren L) _)).
  induction ch as [| x ch IH]; simpl; [reflexivity |].
  apply Permutation_app; [apply items_sortChild | exact IH].
Qed.

Lemma recordsOf_itemsIn (c : Child) : recordsOf c = map snd (itemsIn c).
Proof.
  induction c as [o | gc gn k IH] using Child_ind_nested; [reflexivity |].
  simpl. rewrite map_map. simpl.
  induction IH as [| x k Hx _ IHk]; simpl; [reflexivity |].
  now rewrite map_app, Hx, IHk.
Qed.

Lemma records_items (ch : list Child) :
  flat_map recordsOf ch = map snd (flat_map itemsIn ch).
Proof.
  induction ch as [| x ch IH]; simpl; [reflexivity |].
  now rewrite map_app, recordsOf_itemsIn, IH.
Qed.

Lemma itemsOf_items (l : list Item) :
  (forall it, In it l -> pathOf (snd it) = Some (fst it)) -> itemsOf (map snd l) = l.
Proof.
  unfold itemsOf. induction l as [| [p o] l IH]; intros H; simpl; [reflexivity |].
  pose proof (H (p, o) (or_introl eq_refl)) as Hp. simpl in Hp. rewrite Hp.
  simpl. rewrite IH; [reflexivity |]. intros it Hin. apply H. now right.
Qed.

(** The children in order of insertion, for the items of a tree in the
    order of the tree, are the children of the tree. *)
Lemma fold_addKey_seen (c : string) (l : list Item) :
  forall acc, seenGroup c acc = true ->
    fold_left addKey (map (fun it => (c :: fst it, snd it)) l) acc = acc.
Proof.
  induction l as [| it l IH]; intros acc Hs; simpl; [reflexivity |].
  unfold addKey at 2. simpl. rewrite Hs. now apply IH.
Qed.

Lemma fold_addKey_group (c : string) (l : list Item) (acc : list Key) :
  l <> [] -> seenGroup c acc = false ->
  fold_left addKey (map (fun it => (c :: fst it, snd it)) l) acc = acc ++ [KGroup c].
Proof.
  destruct l as [| it l]; [congruence |]. intros _ Hs. simpl.
  unfold addKey at 2. simpl. rewrite Hs. apply fold_addKey_seen.
  rewrite seenGroup_app. simpl. rewrite String.eqb_refl. apply orb_true_r.
Qed.

Lemma firsts_itemsIn (ch : list Child) :
  forall acc,
    NoDup (childGroupCodes ch) ->
    (forall c, In c (childGroupCodes ch) -> seenGroup c acc = false) ->
    (forall gc gn k, In (GroupChild gc gn k) ch -> flat_map itemsIn k <> []) ->
    fold_left addKey (flat_map itemsIn ch) acc = acc ++ map keyOfChild ch.
Proof.
  induction ch as [| [gc gn k | o] ch IH]; intros acc Hnd Hnew Hne; simpl.
  - now rewrite app_nil_r.
  - simpl in Hnd. inversion Hnd as [| ? ? Hnotin Hnd']; subst.
    rewrite fold_left_app, fold_addKey_group;
      [| apply (Hne gc gn k); now left | apply Hnew; now left].
    rewrite IH; [now rewrite <- app_assoc | exact Hnd' | |].
    + intros c Hc. rewrite seenGroup_app, (Hnew c) by now right. simpl.
      rewrite orb_false_r. apply String.eqb_neq. intros ->. now apply Hnotin.
    + intros gc' gn' k' Hin. apply (Hne gc' gn' k'). now right.
  - unfold addKey at 2. simpl.
    rewrite IH; [now rewrite <- app_assoc | exact Hnd | |].
    + intros c Hc. rewrite seenGroup_app, (Hnew c Hc). reflexivity.
    + intros gc' gn' k' Hin. apply (Hne gc' gn' k'). now right.
Qed.

Lemma tails_cons_map (c gc : string) (l : list Item) :
  tails c (map (fun it => (gc :: fst it, snd it)) l)
  = if String.eqb gc c then l else [].
Proof.
  unfold tails. induction l as [| [p o] l IH]; simpl; [now destruct (String.eqb gc c) |].
  rewrite IH. now destruct (String.eqb gc c).
Qed.

Lemma tails_itemsIn_none (c : string) (ch : list Child) :
  ~ In c (childGroupCodes ch) -> tails c (flat_map itemsIn ch) = [].
Proof.
  induction ch as [| [gc gn k | o] ch IH]; simpl; intros Hn; [reflexivity | |].
  - rewrite tails_app, tails_cons_map.
    destruct (String.eqb gc c) eqn:E.
    + apply String.eqb_eq in E. subst. exfalso. apply Hn. now left.
    + apply IH. intros H. apply Hn. now right.
  - apply IH. exact Hn.
Qed.

Lemma tails_itemsIn (c gn : string) (k ch : list Child) :
  NoDup (childGroupCodes ch) -> In (GroupChild c gn k) ch ->
  tails c (flat_map itemsIn ch) = flat_map itemsIn k.
Proof.
  induction ch as [| [gc gn' k' | o] ch IH]; simpl; intros Hnd Hin; [destruct Hin | |].
  - inversion Hnd as [| ? ? Hnotin Hnd']; subst.
    rewrite tails_app, tails_cons_map.
    destruct Hin as [Hin | Hin].
    + injection Hin as -> -> ->. rewrite String.eqb_refl.
      rewrite (tails_itemsIn_none c ch Hnotin). apply app_nil_r.
    + destruct (String.eqb gc c) eqn:E.
      * apply String.eqb_eq in E. subst gc. exfalso. apply Hnotin.
        unfold childGroupCodes. apply in_flat_map.
        exists (GroupChild c gn k). split; [exact Hin | now left].
      * now apply IH.
  - destruct Hin as [Hin | Hin]; [discriminate |]. now apply IH.
Qed.

Lemma proper_eq (fuel lvl : nat) (ch : list Child) :
  proper fuel lvl ch <->
  NoDup (childGroupCodes ch) /\
  forall gc gn k, In (GroupChild gc gn k) ch ->
    gn = levelName lvl gc /\ flat_map itemsIn k <> [] /\
    exists fuel', fuel = S fuel' /\ proper fuel' (S lvl) k.
Proof.
  destruct fuel as [| fuel']; simpl; rewrite Forall_forall; split;
    intros [Hnd H]; (split; [exact Hnd |]).
  - intros gc gn k Hin. destruct (H _ Hin) as (_ & _ & []).
  - intros [gc gn k | o] Hin; [| exact I].
    destruct (H _ _ _ Hin) as (_ & _ & f & Hf & _). discriminate.
  - intros gc gn k Hin. destruct (H _ Hin) as (H1 & H2 & H3). eauto.
  - intros [gc gn k | o] Hin; [| exact I].
    destruct (H _ _ _ Hin) as (H1 & H2 & f & [= <-] & H3). auto.
Qed.

Lemma build_itemsIn (fuel : nat) :
  forall lvl ch, proper fuel lvl ch -> build fuel lvl (flat_map itemsIn ch) = ch.
Proof.
  induction fuel as [| fuel IH]; intros lvl ch Hp;
    apply proper_eq in Hp as [Hnd Hall]; rewrite build_eq; unfold firsts;
    (rewrite firsts_itemsIn;
     [| exact Hnd | intros c _; reflexivity
      | intros gc gn k Hin; apply (Hall gc gn k Hin)]);
    simpl; rewrite map_map; rewrite <- (map_id ch) at 2;
    apply map_ext_in; intros [gc gn k | o] Hin; try reflexivity;
    destruct (Hall gc gn k Hin) as (-> & _ & f & Hf & Hk).
  - discriminate.
  - injection Hf as <-. simpl. f_equal.
    rewrite (tails_itemsIn gc _ k ch Hnd Hin). now apply IH.
Qed.

Lemma proper_build (fuel : nat) :
  forall lvl items, fits fuel items -> proper fuel lvl (build fuel lvl items).
Proof.
  induction fuel as [| fuel IH]; intros lvl items Hfit; apply proper_eq;
    rewrite build_eq, childGroupCodes_childOfKey;
    (split; [apply firsts_groupCodes_NoDup |]);
    intros gc gn k Hin; apply in_map_iff in Hin as ([c | o] & He & Hk);
    try discriminate; injection He as <- <- <-;
    apply In_firsts in Hk as ([p o] & Hin & Hk); unfold keyOf in Hk; simpl in Hk;
    (destruct p as [| c' p]; [discriminate |]); injection Hk as ->;
    pose proof (Hfit _ Hin) as Hlen; simpl in Hlen; [lia |].
  split; [reflexivity |]. simpl. split.
  - intros He.
    assert (Ht : In (p, o) (tails c items)) by now apply In_tails.
    pose proof (items_build fuel (S lvl) (tails c items) (fits_tails fuel c items Hfit))
      as Hperm.
    rewrite He in Hperm. apply Permutation_nil in Hperm. rewrite Hperm in Ht. destruct Ht.
  - exists fuel. split; [reflexivity |]. apply IH. now apply fits_tails.
Qed.

Lemma proper_sortForest (L : JS.Collation) (fuel : nat) :
  forall lvl ch, proper fuel lvl ch -> proper fuel lvl (sortForest L ch).
Proof.
  induction fuel as [| fuel IH]; intros lvl ch Hp;
    apply proper_eq in Hp as [Hnd Hall]; apply proper_eq;
    (split; [eapply Permutation_NoDup;
             [symmetry; apply childGroupCodes_sortForest | exact Hnd] |]);
    intros gc gn k Hin; apply Array_sort_In, in_map_iff in Hin as ([gc' gn' k' | o] & He & Hin);
    try discriminate;
    change (sortChild L (GroupChild gc' gn' k')) with (GroupChild gc' gn' (sortForest L k'))
      in He;
    injection He as -> -> <-;
    destruct (Hall gc gn k' Hin) as (Hn & Hne & f & Hf & Hk); [discriminate |].
  injection Hf as <-. split; [exact Hn |]. split.
  - intros He. apply Hne.
    pose proof (items_sortForest L k') as Hperm. rewrite He in Hperm.
    now apply Permutation_nil in Hperm.
  - exists fuel. split; [reflexivity | now apply IH].
Qed.

Lemma sortForest_idem (L : JS.Collation) (ch : list Child) :
  sortForest L (sortForest L ch) = sortForest L ch.
Proof.
  pose proof (sortChild_idem L (GroupChild "" "" ch)) as H.
  change (sortChild L (GroupChild "" "" ch)) with (GroupChild "" "" (sortForest L ch)) in H.
  change (sortChild L (GroupChild "" "" (sortForest L ch)))
    with (GroupChild "" "" (sortForest L (sortForest L ch))) in H.
  now injection H.
Qed.

(** X5: the tree of the records of the returned tree is the returned tree,
    whether or not the records have different codes. *)
Theorem tree_of_its_own_records (L : JS.Collation) (occupations : list Occupation) :
  organizeOccupations L (recordsOfTree (organizeOccupations L occupations))
  = organizeOccupations L occupations.
Proof.
  apply asChild_inj. rewrite (organize_items L (recordsOfTree _)).
  unfold recordsOfTree. rewrite records_items, organize_items.
  set (T := sortForest L (build 4 0 (itemsOf occupations))).
  assert (Hperm : Permutation (flat_map itemsIn T) (itemsOf occupations)).
  { unfold T. rewrite items_sortForest. apply items_build, itemsOf_fits. }
  rewrite itemsOf_items.
  - rewrite build_itemsIn.
    + apply sortForest_idem.
    + apply proper_sortForest, proper_build, itemsOf_fits.
  - intros it Hin. apply (Permutation_in _ Hperm) in Hin.
    now apply In_itemsOf in Hin.
Qed.

(* ================================================================== *)
(** ** Further properties of the search engine *)

Import EnhancedSearchEngine.

(* ------------------------------------------------------------------ *)
(** *** The filters *)

Lemma Array_includes_In (l : list string) (x : string) :
  JS.Array_includes l x = true <-> In x l.
Proof.
  unfold JS.Array_includes. rewrite existsb_exists. split.
  - intros (y & Hy & He). apply String.eqb_eq in He. now subst.
  - intros H. exists x. split; [exact H | apply String.eqb_refl].
Qed.

Lemma length_pos_nonempty {A : Type} (l : list A) :
  (0 <? List.length l)%nat = true <-> l <> [].
Proof.
  destruct l; cbn; split; intros H; try reflexivity; try discriminate.
  now contradiction H.
Qed.

Lemma matchesFilters_spec (occ : Occupation) (filters : SearchFilters) :
  matchesFilters occ filters = true <->
  (iscoMajorGroups filters = [] \/
   exists c, JS.char0 (code occ) = Some c /\ In c (iscoMajorGroups filters)) /\
  (occupationTypes filters = [] \/
   (occupationType occ <> "" /\ In (occupationType occ) (occupationTypes filters))).
Proof.
  unfold matchesFilters.
  destruct (0 <? List.length (iscoMajorGroups filters))%nat eqn:E1;
    destruct (0 <? List.length (occupationTypes filters))%nat eqn:E2;
    try (apply length_pos_nonempty in E1); try (apply length_pos_nonempty in E2);
    try (assert (E1' : iscoMajorGroups filters = [])
           by (destruct (iscoMajorGroups filters); [reflexivity | discriminate]));
    try (assert (E2' : occupationTypes filters = [])
           by (destruct (occupationTypes filters); [reflexivity | discriminate]));
    simpl.
  - destruct (JS.char0 (code occ)) as [c |] eqn:Hc; simpl.
    + destruct (JS.Array_includes (iscoMajorGroups filters) c) eqn:Hi; simpl.
      * apply Array_includes_In in Hi.
        destruct (JS.truthy (occupationType occ)) eqn:Ht; simpl.
        -- apply truthy_true in Ht.
           destruct (JS.Array_includes (occupationTypes filters) (occupationType occ))
             eqn:Hj; simpl.
           ++ apply Array_includes_In in Hj. split; [intros _ | reflexivity].
              split; right; eauto.
           ++ split; [discriminate |]. intros [_ [H | [_ H]]]; [congruence |].
              apply Array_includes_In in H. congruence.
        -- apply truthy_false in Ht. split; [discriminate |].
           intros [_ [H | [H _]]]; congruence.
      * split; [discriminate |]. intros [[H | (c' & [= <-] & H)] _]; [congruence |].
        apply Array_includes_In in H. congruence.
    + split; [discriminate |]. intros [[H | (c' & [=] & _)] _]. congruence.
  - destruct (JS.char0 (code occ)) as [c |] eqn:Hc; simpl.
    + destruct (JS.Array_includes (iscoMajorGroups filters) c) eqn:Hi; simpl.
      * apply Array_includes_In in Hi. split; [intros _ | reflexivity].
        split; [right; eauto | now left].
      * split; [discriminate |]. intros [[H | (c' & [= <-] & H)] _]; [congruence |].
        apply Array_includes_In in H. congruence.
    + split; [discriminate |]. intros [[H | (c' & [=] & _)] _]. congruence.
  - destruct (JS.truthy (occupationType occ)) eqn:Ht; simpl.
    + apply truthy_true in Ht.
      destruct (JS.Array_includes (occupationTypes filters) (occupationType occ))
        eqn:Hj; simpl.
      * apply Array_includes_In in Hj. split; [intros _ | reflexivity].
        split; [now left | right; eauto].
      * split; [discriminate |]. intros [_ [H | [_ H]]]; [congruence |].
        apply Array_includes_In in H. congruence.
    + apply truthy_false in Ht. split; [discriminate |].
      intros [_ [H | [H _]]]; congruence.
  - split; [intros _ | reflexivity]. split; now left.
Qed.

(** X8: a record passes the filters exactly when it passes each facet in
    use: its first code character is one of [iscoMajorGroups] when that
    list is not empty, and its occupation type is not empty and is one of
    [occupationTypes] when that list is not empty. *)
Theorem matchesFilters_iff (occ : Occupation) (filters : SearchFilters) :
  matchesFilters occ filters = true <->
  (iscoMajorGroups filters = [] \/
   exists c, JS.char0 (code occ) = Some c /\ In c (iscoMajorGroups filters)) /\
  (occupationTypes filters = [] \/
   (occupationType occ <> "" /\ In (occupationType occ) (occupationTypes filters))).
Proof. exact (matchesFilters_spec occ filters). Qed.

(* ------------------------------------------------------------------ *)
(** *** The filters on offer *)

Section AvailableFacet.
Variable g : Occupation -> option string.
Variable step : list string -> Occupation -> list string.
Hypothesis step_eq : forall acc o,
  step acc o = match g o with Some c => Set_add c acc | None => acc end.

Lemma In_Set_add (x c : string) (acc : list string) :
  In x (Set_add c acc) <-> In x acc \/ x = c.
Proof.
  unfold Set_add. destruct (JS.Array_includes acc c) eqn:E.
  - apply Array_includes_In in E. split; [tauto |]. intros [H | ->]; assumption.
  - rewrite in_app_iff. simpl. intuition.
Qed.

Lemma NoDup_Set_add (c : string) (acc : list string) :
  NoDup acc -> NoDup (Set_add c acc).
Proof.
  intros H. unfold Set_add. destruct (JS.Array_includes acc c) eqn:E; [exact H |].
  apply NoDup_app; [exact H | repeat constructor; intros [] |].
  intros x Hx [<- | []].
  apply Array_includes_In in Hx. congruence.
Qed.

Lemma In_facet (l : list Occupation) :
  forall acc x, In x (fold_left step l acc) <->
                In x acc \/ exists o, In o l /\ g o = Some x.
Proof.
  induction l as [| o l IH]; intros acc x; simpl.
  - split; [tauto | intros [H | (o & [] & _)]; exact H].
  - rewrite IH, step_eq. destruct (g o) as [c |] eqn:Hg.
    + rewrite In_Set_add. split.
      * intros [[H | ->] | (o' & Hin & Ho')]; eauto 6.
      * intros [H | (o' & [<- | Hin] & Ho')]; eauto 6.
        left. right. congruence.
    + split.
      * intros [H | (o' & Hin & Ho')]; eauto 6.
      * intros [H | (o' & [<- | Hin] & Ho')]; eauto 6. congruence.
Qed.

Lemma NoDup_facet (l : list Occupation) :
  forall acc, NoDup acc -> NoDup (fold_left step l acc).
Proof.
  induction l as [| o l IH]; intros acc H; simpl; [exact H |].
  apply IH. rewrite step_eq. destruct (g o); [now apply NoDup_Set_add | exact H].
Qed.
End AvailableFacet.

Lemma availableMajors_In (this : t) (c : string) :
  In c (fst (getAvailableFilters this)) <->
  exists o, In o (occupations this) /\ JS.char0 (code o) = Some c.
Proof.
  unfold getAvailableFilters. simpl. rewrite Array_sort_In.
  rewrite (In_facet majorOf _ (fun acc o => eq_refl)). simpl. split.
  - intros [[] | H]. exact H.
  - intros H. now right.
Qed.

Lemma availableTypes_In (this : t) (ty : string) :
  In ty (snd (getAvailableFilters this)) <->
  ty <> "" /\ exists o, In o (occupations this) /\ occupationType o = ty.
Proof.
  unfold getAvailableFilters. simpl. rewrite Array_sort_In.
  rewrite (In_facet typeOf).
  - unfold typeOf. simpl. split.
    + intros [[] | (o & Hin & Ho)].
      destruct (JS.truthy (occupationType o)) eqn:Ht; [| discriminate].
      injection Ho as <-. apply truthy_true in Ht. eauto.
    + intros (Hne & o & Hin & <-). right. exists o. split; [exact Hin |].
      apply truthy_true in Hne. now rewrite Hne.
  - intros acc o. unfold typeOf. now destruct (JS.truthy (occupationType o)).
Qed.

(** X9: [getAvailableFilters] offers the first character of every
    non-empty code, and every non-empty occupation type, of the corpus, and
    nothing else. *)
Theorem availableFilters_membership (this : t) (x : string) :
  (In x (fst (getAvailableFilters this)) <->
   exists o, In o (occupations this) /\ JS.char0 (code o) = Some x) /\
  (In x (snd (getAvailableFilters this)) <->
   x <> "" /\ exists o, In o (occupations this) /\ occupationType o = x).
Proof. split; [apply availableMajors_In | apply availableTypes_In]. Qed.

Lemma strictly_sorted (l : list string) :
  NoDup l ->
  forall i a b, nth_error (JS.Array_sort String.compare l) i = Some a ->
                nth_error (JS.Array_sort String.compare l) (S i) = Some b ->
                String.compare a b = Lt.
Proof.
  intros Hnd i a b Ha Hb.
  pose proof (Sorted_adjacent _ _ (Array_sort_sorted String.compare compare_total l)
                i a b Ha Hb) as Hle.
  destruct (String.compare a b) eqn:E; [| reflexivity | congruence].
  apply String.compare_eq_iff in E. subst b. exfalso.
  assert (Hnd' : NoDup (JS.Array_sort String.compare l))
    by (eapply Permutation_NoDup; [symmetry; apply Array_sort_perm | exact Hnd]).
  rewrite NoDup_nth_error in Hnd'.
  assert (Hlt : i < List.length (JS.Array_sort String.compare l))
    by (apply nth_error_Some; congruence).
  specialize (Hnd' i (S i) Hlt). rewrite Ha, Hb in Hnd'. specialize (Hnd' eq_refl). lia.
Qed.

(** X10: both lists of [getAvailableFilters] are in strictly increasing
    lexicographic order: sorted, and without a repeated value. *)
Theorem availableFilters_strictly_sorted (this : t) (i : nat) (a b : string) :
  (nth_error (fst (getAvailableFilters this)) i = Some a ->
   nth_error (fst (getAvailableFilters this)) (S i) = Some b ->
   String.compare a b = Lt) /\
  (nth_error (snd (getAvailableFilters this)) i = Some a ->
   nth_error (snd (getAvailableFilters this)) (S i) = Some b ->
   String.compare a b = Lt).
Proof.
  unfold getAvailableFilters. simpl. split; apply strictly_sorted.
  - apply (NoDup_facet majorOf _ (fun acc o => eq_refl)). constructor.
  - apply (NoDup_facet typeOf); [| constructor].
    intros acc o. unfold typeOf. now destruct (JS.truthy (occupationType o)).
Qed.

Lemma availableFilters_strictly_sorted_witness :
  String.compare "1" "2" = Lt.
Proof.
  apply (proj1 (availableFilters_strictly_sorted
                  (constructor sampleHost
                     [occupationOf "2512" "Software developer";
                      occupationOf "1311" "Farm manager";
                      occupationOf "2511" "Systems analyst"]) 0 "1" "2"));
    reflexivity.
Defined.

(* ------------------------------------------------------------------ *)
(** *** The major groups of the tree and of the filters *)

Lemma root_codes (L : JS.Collation) (occupations : list Occupation) (c : string) :
  In c (map group_code (organizeOccupations L occupations)) <->
  exists o, In o occupations /\ placed o = true /\ JS.substring0 1 (mainCodeOf o) = c.
Proof.
  rewrite <- childGroupCodes_asChild, organize_items.
  assert (Hperm : In c (childGroupCodes (sortForest L (build 4 0 (itemsOf occupations))))
                  <-> In c (childGroupCodes (build 4 0 (itemsOf occupations)))).
  { split; apply Permutation_in; [| symmetry]; apply childGroupCodes_sortForest. }
  rewrite Hperm. clear Hperm.
  rewrite build_eq, childGroupCodes_childOfKey, In_groupCodes, In_firsts. split.
  - intros ([p o] & Hin & Hk). apply In_itemsOf in Hin as [Hin Hp]. simpl in *.
    exists o. split; [exact Hin |]. rewrite pathOf_placed in Hp.
    destruct (placed o); [| discriminate]. split; [reflexivity |].
    injection Hp as <-. unfold keyOf in Hk. simpl in Hk.
    destruct (placementPath_head (mainCodeOf o)) as [q Hq]. rewrite Hq in Hk.
    now injection Hk.
  - intros (o & Hin & Hp & Hc).
    exists (placementPath (mainCodeOf o), o). split.
    + apply In_itemsOf. split; [exact Hin |]. simpl. now rewrite pathOf_placed, Hp.
    + unfold keyOf. simpl.
      destruct (placementPath_head (mainCodeOf o)) as [q Hq]. rewrite Hq. now subst.
Qed.

Lemma placed_char0 (o : Occupation) (c : string) :
  (placed o = true /\ JS.substring0 1 (mainCodeOf o) = c)
  <-> (JS.char0 (code o) = Some c /\ c <> ".").
Proof.
  unfold placed, mainCodeOf. destruct (code o) as [| a r]; simpl.
  - split; [intros [H _]; discriminate | intros [H _]; discriminate].
  - destruct (Ascii.eqb a ".") eqn:E; simpl.
    + apply Ascii.eqb_eq in E. subst a.
      split; [intros [H _]; discriminate |]. intros [[= <-] H]. now contradiction H.
    + apply Ascii.eqb_neq in E.
      assert (Hs : JS.substring0 1 (String a (JS.split_first "." r)) = String a "")
        by (unfold JS.substring0; simpl; now destruct (JS.split_first "." r)).
      rewrite Hs. split.
      * intros [_ <-]. split; [reflexivity |]. intros [= ->]. now apply E.
      * intros [[= <-] _]. now split.
Qed.

(** X11: the codes of the root groups of the tree are the major groups that
    [getAvailableFilters] offers for the same records, but for the dot: a
    record whose code starts with a dot is offered as the major group ["."]
    and is not in the tree. *)
Theorem root_groups_are_the_available_major_groups (L : JS.Collation)
  (fuse : string -> nat -> list FuseResult)
  (occupations : list Occupation) (c : string) :
  In c (map group_code (organizeOccupations L occupations)) <->
  In c (fst (getAvailableFilters (mkEngine fuse occupations))) /\ c <> ".".
Proof.
  rewrite root_codes, availableMajors_In. simpl. split.
  - intros (o & Hin & Hp). apply placed_char0 in Hp as [Hc Hne]. eauto.
  - intros [(o & Hin & Hc) Hne]. exists o. split; [exact Hin |].
    apply placed_char0. now split.
Qed.

(* ------------------------------------------------------------------ *)
(** *** Values of a filter that are, or are not, in the corpus *)

Lemma filter_nil_iff {A : Type} (p : A -> bool) (l : list A) :
  filter p l = [] <-> forall x, In x l -> p x = false.
Proof.
  induction l as [| x l IH]; simpl; [split; [intros _ y [] | reflexivity] |].
  destruct (p x) eqn:E; split.
  - discriminate.
  - intros H. specialize (H x (or_introl eq_refl)). congruence.
  - intros H y [<- | Hy]; [exact E | now apply IH].
  - intros H. apply IH. intros y Hy. apply H. now right.
Qed.

(** X12: on a blank query, a filter whose major groups (or whose occupation
    types) are all absent from [getAvailableFilters] gives no result, and
    the filter on one major group (or on one occupation type) that
    [getAvailableFilters] offers gives at least one, when the limit is not 0. *)
Theorem filter_values_and_the_corpus (h : Host) (this : t) (query : string)
  (limit : nat) :
  blank query ->
  (forall filters,
     (iscoMajorGroups filters <> [] /\
      forall c, In c (iscoMajorGroups filters) -> ~ In c (fst (getAvailableFilters this)))
     \/ (occupationTypes filters <> [] /\
         forall ty, In ty (occupationTypes filters) ->
                    ~ In ty (snd (getAvailableFilters this))) ->
     search h this query (Some filters) limit = Normal []) /\
  (forall c, In c (fst (getAvailableFilters this)) -> 0 < limit ->
     search h this query (Some (mkSearchFilters [c] [])) limit <> Normal []) /\
  (forall ty, In ty (snd (getAvailableFilters this)) -> 0 < limit ->
     search h this query (Some (mkSearchFilters [] [ty])) limit <> Normal []).
Proof.
  intros Hb.
  assert (Hs : forall filters,
             search h this query (Some filters) limit
             = Normal (firstn limit (map browseResult
                         (filter (fun occ => matchesFilters occ filters)
                                 (occupations this))))).
  { intros filters. unfold search. rewrite (blank_trim query Hb). simpl.
    unfold JS.slice0. now rewrite getFilteredOccupations_eq. }
  assert (Hne : forall filters o, In o (occupations this) ->
                  matchesFilters o filters = true -> 0 < limit ->
                  search h this query (Some filters) limit <> Normal []).
  { intros filters o Hin Hm Hl. rewrite Hs. intros [= He].
    assert (Hf : In o (filter (fun occ => matchesFilters occ filters) (occupations this)))
      by (apply filter_In; now split).
    destruct (filter _ (occupations this)) as [| x l]; [destruct Hf |].
    destruct limit; [lia | discriminate]. }
  split; [| split].
  - intros filters H. rewrite Hs.
    replace (filter (fun occ => matchesFilters occ filters) (occupations this))
      with (@nil Occupation); [now rewrite firstn_nil |].
    symmetry. apply filter_nil_iff. intros o Hin.
    destruct (matchesFilters o filters) eqn:Hm; [| reflexivity]. exfalso.
    apply matchesFilters_spec in Hm as [Hm1 Hm2].
    destruct H as [[Hne' Habs] | [Hne' Habs]].
    + destruct Hm1 as [He | (c & Hc & Hin')]; [congruence |].
      apply (Habs c Hin'). apply availableMajors_In. eauto.
    + destruct Hm2 as [He | [Ht Hin']]; [congruence |].
      apply (Habs _ Hin'). apply availableTypes_In. eauto.
  - intros c Hc Hl. apply availableMajors_In in Hc as (o & Hin & Hc).
    apply (Hne _ o Hin); [| exact Hl].
    apply matchesFilters_spec. simpl. split; [right | now left].
    exists c. split; [exact Hc | now left].
  - intros ty Hty Hl. apply availableTypes_In in Hty as (Hne' & o & Hin & <-).
    apply (Hne _ o Hin); [| exact Hl].
    apply matchesFilters_spec. simpl. split; [now left | right].
    split; [exact Hne' | now left].
Qed.

Lemma filter_values_and_the_corpus_witness :
  search sampleHost
    (constructor sampleHost
       [occupationOf "2512" "Software developer"; occupationOf "1311" "Farm manager"])
    "" (Some (mkSearchFilters ["7"] [])) 10 = Normal [].
Proof.
  apply (proj1 (filter_values_and_the_corpus sampleHost _ "" 10 (Forall_nil _))).
  left. split; [discriminate |].
  intros c [<- | []]. vm_compute. intuition discriminate.
Defined.

(* ------------------------------------------------------------------ *)
(** *** When [search] throws, and what it returns when it does not *)

Import EnhancedSearchEngine.

Lemma filtered_candidates (this : t) (query : string) (filters : option SearchFilters)
  (limit : nat) :
  match filters with
  | Some f => applyFilters (map toSearchResult (fuse this query (limit * 2))) f
  | None => map toSearchResult (fuse this query (limit * 2))
  end = map toSearchResult (keptCandidates this query filters limit).
Proof.
  unfold keptCandidates, passes, applyFilters. destruct filters as [f |].
  - induction (fuse this query (limit * 2)) as [| x l IH]; simpl; [reflexivity |].
    destruct (matchesFilters (item x) f); simpl; now rewrite IH.
  - f_equal. induction (fuse this query (limit * 2)) as [| x l IH]; simpl; congruence.
Qed.

Lemma boostOne_throws (h : Host) (q : string) (x : SearchResult) :
  boostOne h q x = Throw_SyntaxError <-> RegExp_new h ("\b" ++ q) = Throw_SyntaxError.
Proof.
  unfold boostOne. destruct (RegExp_new h _); simpl; split; congruence.
Qed.

Lemma Array_map_throwing_throws {A B : Type} (f : A -> Completion B) (P : Prop)
  (l : list A) :
  (forall x, f x = Throw_SyntaxError <-> P) ->
  (Array_map_throwing f l = Throw_SyntaxError <-> l <> [] /\ P).
Proof.
  intros Hf. induction l as [| x l IH]; simpl.
  - split; [discriminate | intros [H _]; congruence].
  - destruct (f x) as [y |] eqn:Hx; simpl.
    + destruct (Array_map_throwing f l) as [ys |] eqn:Hl; simpl.
      * split; [discriminate |]. intros [_ HP]. apply (proj2 (Hf x)) in HP. congruence.
      * split; [intros _ | reflexivity]. split; [discriminate |].
        now apply IH.
    + split; [intros _ | reflexivity]. split; [discriminate | now apply (Hf x)].
Qed.

Lemma boostRelevance_throws_iff (h : Host) (results : list SearchResult) (query : string) :
  boostRelevance h results query = Throw_SyntaxError <->
  results <> [] /\ RegExp_new h ("\b" ++ JS.toLowerCase query) = Throw_SyntaxError.
Proof.
  unfold boostRelevance.
  rewrite <- (Array_map_throwing_throws (boostOne h (JS.toLowerCase query)) _ results
                (boostOne_throws h (JS.toLowerCase query))).
  destruct (Array_map_throwing _ results); simpl; split; congruence.
Qed.

(** X13: [search] throws exactly when the query is not blank, at least one
    candidate of the index passes the filters, and the expression built
    from the query does not compile; in every other case it returns. *)
Theorem search_throws_iff (h : Host) (this : t) (query : string)
  (filters : option SearchFilters) (limit : nat) :
  search h this query filters limit = Throw_SyntaxError <->
  JS.trim query <> "" /\
  keptCandidates this query filters limit <> [] /\
  RegExp_new h ("\b" ++ JS.toLowerCase query) = Throw_SyntaxError.
Proof.
  unfold search. destruct (JS.truthy (JS.trim query)) eqn:Ht; simpl.
  - apply truthy_true in Ht. rewrite filtered_candidates.
    destruct (boostRelevance h _ query) as [b |] eqn:Hb; simpl.
    + split; [discriminate |]. intros (_ & Hk & Hr).
      assert (H : boostRelevance h (map toSearchResult
                    (keptCandidates this query filters limit)) query = Throw_SyntaxError).
      { apply boostRelevance_throws_iff. split; [| exact Hr].
        intros He. apply map_eq_nil in He. congruence. }
      congruence.
    + apply boostRelevance_throws_iff in Hb as [Hne Hr].
      split; [intros _ | reflexivity]. repeat split; trivial.
      intros He. apply Hne. now rewrite He.
  - apply truthy_false in Ht. split; [discriminate |]. intros [H _]. congruence.
Qed.

Lemma boostOne_fields (h : Host) (q : string) (x y : SearchResult) :
  boostOne h q x = Normal y ->
  occupation y = occupation x /\ matches y = matches x /\ breadcrumb y = breadcrumb x.
Proof.
  unfold boostOne. destruct (RegExp_new h _); simpl; [| discriminate].
  intros [= <-]. now repeat split.
Qed.

(** X14: when [search] returns on a query that is not blank, it returns the
    first [limit] of a reordering of the candidates that pass the filters:
    as many results as there are such candidates, up to [limit]; each with
    the record and the matches of its candidate, and the breadcrumb of its
    record. *)
Theorem search_results_shape (h : Host) (this : t) (query : string)
  (filters : option SearchFilters) (limit : nat) (results : list SearchResult) :
  JS.trim query <> "" ->
  search h this query filters limit = Normal results ->
  let kept := map toSearchResult (keptCandidates this query filters limit) in
  List.length results = Nat.min limit (List.length kept) /\
  (exists boosted,
     results = firstn limit boosted /\
     Permutation (map (fun r => (occupation r, matches r, breadcrumb r)) boosted)
                 (map (fun r => (occupation r, matches r, breadcrumb r)) kept)) /\
  Forall (fun r => breadcrumb r = generateBreadcrumb (occupation r)) results.
Proof.
  intros Ht Hs kept. apply truthy_true in Ht. unfold search in Hs.
  rewrite Ht in Hs. simpl in Hs. rewrite filtered_candidates in Hs. fold kept in Hs.
  unfold boostRelevance in Hs.
  destruct (Array_map_throwing _ kept) as [ys |] eqn:Hm; simpl in Hs; [| discriminate].
  injection Hs as <-. apply Array_map_throwing_Normal in Hm.
  assert (Hfields : map (fun r => (occupation r, matches r, breadcrumb r)) ys
                    = map (fun r => (occupation r, matches r, breadcrumb r)) kept).
  { clear - Hm. induction Hm as [| x y l ys' Hxy _ IH]; [reflexivity |].
    simpl. apply boostOne_fields in Hxy as (-> & -> & ->). now rewrite IH. }
  assert (Hperm : Permutation
                    (map (fun r => (occupation r, matches r, breadcrumb r))
                         (JS.Array_sort compareScores ys))
                    (map (fun r => (occupation r, matches r, breadcrumb r)) kept)).
  { rewrite <- Hfields. apply Permutation_map, Array_sort_perm. }
  unfold JS.slice0. split; [| split].
  - rewrite length_firstn. f_equal.
    apply Permutation_length in Hperm. now rewrite !length_map in Hperm.
  - exists (JS.Array_sort compareScores ys). now split.
  - apply Forall_forall. intros r Hr. apply In_firstn in Hr.
    assert (Hin : In (occupation r, matches r, breadcrumb r)
                     (map (fun r => (occupation r, matches r, breadcrumb r)) kept)).
    { eapply Permutation_in; [exact Hperm |].
      apply in_map_iff. now exists r. }
    apply in_map_iff in Hin as (x & [= Ho _ Hb] & Hx).
    unfold kept in Hx. apply in_map_iff in Hx as (c & <- & _).
    rewrite <- Hb, <- Ho. reflexivity.
Qed.

Lemma search_results_shape_witness :
  let this := constructor sampleHost
                [occupationOf "2512" "Software developer";
                 occupationOf "1311" "Farm manager"] in
  exists results,
    search sampleHost this "developer" None 1 = Normal results /\
    List.length results = 1.
Proof.
  intros this. eexists. split.
  - vm_compute. reflexivity.
  - refine (proj1 (search_results_shape sampleHost this "developer" None 1 _ _ _)).
    + discriminate.
    + vm_compute. reflexivity.
Defined.

(* ================================================================== *)
(** ** The highlighting of the matches *)

Lemma append_nil_r (s : string) : (s ++ "")%string = s.
Proof. induction s; simpl; congruence. Qed.

Lemma append_assoc (a b c : string) : ((a ++ b) ++ c)%string = (a ++ (b ++ c))%string.
Proof. induction a; simpl; congruence. Qed.

Lemma joinAll_app (l1 l2 : list string) :
  joinAll (l1 ++ l2) = (joinAll l1 ++ joinAll l2)%string.
Proof.
  induction l1 as [| x l1 IH]; simpl; [reflexivity |].
  now rewrite IH, append_assoc.
Qed.

Lemma substring_zero (n : nat) (s : string) : substring n 0 s = "".
Proof. revert n. induction s as [| c s IH]; intros [| n]; simpl; auto. Qed.

Lemma slice_empty (text : string) (a b : nat) : b <= a -> JS.slice text a b = "".
Proof.
  intros H. unfold JS.slice. replace (b - a) with 0 by lia. apply substring_zero.
Qed.

Lemma substring0_slice (text : string) :
  forall a b, a <= b ->
    (JS.substring0 a text ++ JS.slice text a b)%string = JS.substring0 b text.
Proof.
  unfold JS.substring0, JS.slice.
  induction text as [| c t IH]; intros a b H.
  - destruct a, b; reflexivity.
  - destruct a as [| a].
    + simpl. now rewrite Nat.sub_0_r.
    + destruct b as [| b]; [lia |]. simpl. f_equal. apply IH. lia.
Qed.

Lemma substring0_beyond (text : string) (n : nat) :
  String.length text <= n -> JS.substring0 n text = text.
Proof.
  unfold JS.substring0. revert n.
  induction text as [| c t IH]; intros [| n] H; simpl in *; try reflexivity; try lia.
  f_equal. apply IH. lia.
Qed.

Lemma substring0_sliceFrom (text : string) (a : nat) :
  (JS.substring0 a text ++ JS.sliceFrom text a)%string = text.
Proof.
  unfold JS.sliceFrom. fold (JS.slice text a (String.length text)).
  destruct (Nat.le_gt_cases a (String.length text)) as [H | H].
  - rewrite substring0_slice by exact H. apply substring0_beyond. lia.
  - rewrite slice_empty by lia. rewrite append_nil_r. apply substring0_beyond. lia.
Qed.

(** The loop of [HighlightedText] on ranges without overlap keeps, as the
    text of its nodes, the text up to [lastIndex]. *)
Lemma highlightNode_text (text : string) (ms : list (nat * nat)) :
  forall result lastIndex index,
    disjointFrom lastIndex ms ->
    joinAll (map nodeText result) = JS.substring0 lastIndex text ->
    let '(result', lastIndex', _) :=
      fold_left (SearchResultsView.highlightNode text) ms (result, lastIndex, index) in
    joinAll (map nodeText result') = JS.substring0 lastIndex' text.
Proof.
  induction ms as [| [s e] ms IH]; intros result lastIndex index Hd Hr; simpl;
    [exact Hr |].
  destruct Hd as (H1 & H2 & Hd). apply IH; [exact Hd |].
  rewrite map_app, joinAll_app. simpl. rewrite append_nil_r.
  rewrite <- (substring0_slice text s (e + 1)) by lia. f_equal.
  destruct (lastIndex <? s)%nat eqn:E.
  - rewrite map_app, joinAll_app. simpl. rewrite append_nil_r, Hr.
    apply substring0_slice. exact H1.
  - apply Nat.ltb_ge in E. assert (lastIndex = s) by lia. now subst.
Qed.

(** X15: when the ranges, put in order of start, follow one another without
    overlap, the nodes of [HighlightedText] show the text itself: every
    character once, in order, in a marked or an unmarked part. *)
Theorem HighlightedText_shows_the_text (text : string) (matches : list (nat * nat)) :
  disjointFrom 0 (JS.Array_sort SearchUtil.compareStarts matches) ->
  textContent (SearchResultsView.HighlightedText text matches) = text.
Proof.
  intros Hd. unfold SearchResultsView.HighlightedText.
  destruct (List.length matches =? 0)%nat; [reflexivity |].
  pose proof (highlightNode_text text _ [] 0 0 Hd) as H.
  destruct (fold_left _ _ _) as [[result lastIndex] index].
  specialize (H ltac:(now destruct text)).
  destruct (lastIndex <? String.length text)%nat eqn:E; simpl.
  - rewrite map_app, joinAll_app. simpl. rewrite append_nil_r, H.
    apply substring0_sliceFrom.
  - apply Nat.ltb_ge in E. rewrite H. now apply substring0_beyond.
Qed.

Lemma HighlightedText_shows_the_text_witness :
  textContent (SearchResultsView.HighlightedText "Software developer" [(9, 12); (0, 3)])
  = "Software developer".
Proof.
  apply HighlightedText_shows_the_text. vm_compute. repeat split; lia.
Defined.

Lemma highlight_agree (text : string) (ms : list (nat * nat)) :
  forall str result lastIndex index,
    str = joinAll (map nodeMarkup result) ->
    let '(str', last1) := fold_left (SearchUtil.highlightStep text) ms (str, lastIndex) in
    let '(result', last2, _) :=
      fold_left (SearchResultsView.highlightNode text) ms (result, lastIndex, index) in
    str' = joinAll (map nodeMarkup result') /\ last1 = last2.
Proof.
  induction ms as [| [s e] ms IH]; intros str result lastIndex index Hs; simpl;
    [now split |].
  apply IH. subst str.
  rewrite map_app, joinAll_app. simpl. rewrite append_nil_r.
  f_equal.
  destruct (lastIndex <? s)%nat eqn:E.
  - rewrite map_app, joinAll_app. simpl. now rewrite append_nil_r.
  - apply Nat.ltb_ge in E. now rewrite slice_empty, append_nil_r by exact E.
Qed.

Lemma sliceFrom_beyond (text : string) (a : nat) :
  String.length text <= a -> JS.sliceFrom text a = "".
Proof.
  intros H. unfold JS.sliceFrom. replace (String.length text - a) with 0 by lia.
  apply substring_zero.
Qed.

(** X16: for every text and every list of ranges, in order or not,
    overlapping or not, the string of [highlightMatches] is the rendering of
    [HighlightedText] with the two tags around each marked part: the utility
    and the component cut the text at the same places. *)
Theorem highlightMatches_renders_HighlightedText (text : string)
  (matches : list (nat * nat)) :
  SearchUtil.highlightMatches text matches
  = markupOf (SearchResultsView.HighlightedText text matches).
Proof.
  unfold SearchUtil.highlightMatches, SearchResultsView.HighlightedText.
  destruct (List.length matches =? 0)%nat; [reflexivity |].
  pose proof (highlight_agree text (JS.Array_sort SearchUtil.compareStarts matches)
                "" [] 0 0 eq_refl) as H.
  destruct (fold_left (SearchUtil.highlightStep text) _ _) as [str last1].
  destruct (fold_left (SearchResultsView.highlightNode text) _ _)
    as [[result last2] index].
  destruct H as [-> ->].
  destruct (last2 <? String.length text)%nat eqn:E; simpl.
  - rewrite map_app, joinAll_app. simpl. now rewrite append_nil_r.
  - apply Nat.ltb_ge in E. now rewrite sliceFrom_beyond, append_nil_r by exact E.
Qed.

(* ================================================================== *)
(** ** The names of the engine and of the taxonomy *)

Lemma lookup_In (table : list (string * string)) (c n : string) :
  lookup table c = Some n -> In (c, n) table.
Proof.
  induction table as [| [k v] table IH]; simpl; [discriminate |].
  destruct (String.eqb k c) eqn:E.
  - apply String.eqb_eq in E. intros [= ->]. left. now subst.
  - intros H. right. now apply IH.
Qed.

Lemma nameOr_subtable (t1 t2 : list (string * string)) :
  Forall (fun kv => lookup t2 (fst kv) = Some (snd kv)) t1 ->
  forall c, nameOr t1 c = nameOr t2 c \/ nameOr t1 c = ("Group " ++ c)%string.
Proof.
  intros H c. unfold nameOr at 1 3.
  destruct (lookup t1 c) as [n |] eqn:E; [| now right].
  apply lookup_In in E. rewrite Forall_forall in H. specialize (H _ E). simpl in H.
  destruct (JS.truthy n) eqn:Ht; [| now right].
  left. unfold nameOr. now rewrite H, Ht.
Qed.

(** X17: the engine never gives a group a name that differs from the name of
    the taxonomy, except the synthetic ["Group " ++ code] where its own
    tables have no entry: the two tables of major groups agree on every
    code, and for sub-major and minor groups the name of the engine is the
    name of the taxonomy or the synthetic one. *)
Theorem engine_names_agree_with_the_taxonomy (c : string) :
  EnhancedSearchEngine.getMajorGroupName c = Occupations.getMajorGroupName c /\
  (EnhancedSearchEngine.getSubMajorGroupName c = Occupations.getSubMajorGroupName c \/
   EnhancedSearchEngine.getSubMajorGroupName c = ("Group " ++ c)%string) /\
  (EnhancedSearchEngine.getMinorGroupName c = Occupations.getMinorGroupName c \/
   EnhancedSearchEngine.getMinorGroupName c = ("Group " ++ c)%string).
Proof.
  split; [reflexivity |]. split.
  - apply nameOr_subtable. repeat (constructor; [reflexivity |]). constructor.
  - apply nameOr_subtable. repeat (constructor; [reflexivity |]). constructor.
Qed.

Lemma nameOr_nonempty (table : list (string * string)) (c : string) :
  nameOr table c <> "".
Proof.
  unfold nameOr. destruct (lookup table c) as [n |]; [| discriminate].
  destruct (JS.truthy n) eqn:Ht; [| discriminate]. now apply truthy_true.
Qed.

(** X18: every group of a returned tree has a name that is not empty: an
    entry of a table, or the synthetic name. *)
Theorem group_names_are_not_empty (L : JS.Collation) (occupations : list Occupation)
  (gc gn : string) (k : list Child) :
  In (GroupChild gc gn k) (allGroups (organizeOccupations L occupations)) -> gn <> "".
Proof.
  unfold allGroups. rewrite organizeOccupations_sortForest. intros Hg.
  apply in_flat_map in Hg as (x & Hx & Hg).
  apply Array_sort_In, in_map_iff in Hx as (y & <- & Hy).
  pose proof (unsorted_labelled occupations) as Hl. rewrite Forall_forall in Hl.
  destruct (labelled_subgroups _ 0 (sortChild_labelled L y 0 (Hl y Hy)) gc gn k Hg)
    as (l & _ & ->).
  destruct l as [| [| [| l]]]; apply nameOr_nonempty.
Qed.

Lemma group_names_are_not_empty_witness :
  "Group 9999" <> "".
Proof.
  apply (group_names_are_not_empty codeUnits [occupationOf "9999" "Unknown"] "9999" "Group 9999"
           [OccChild (occupationOf "9999" "Unknown")]).
  vm_compute. tauto.
Defined.

(* ------------------------------------------------------------------ *)
(** *** The breadcrumb and the tree *)

(** X19: for a record that the tree holds and whose code has no dot among
    its first three characters, the breadcrumb lists the first three groups
    above the record in the tree (all of them when there are fewer), in
    order, each as its code, [" - "] and the name that the engine gives it,
    with [" > "] in between. *)
Theorem breadcrumb_follows_the_tree_path (o : Occupation) :
  placed o = true ->
  JS.substring0 3 (code o) = JS.substring0 3 (mainCodeOf o) ->
  EnhancedSearchEngine.generateBreadcrumb o
  = JS.join " > " (crumbs (placementPath (mainCodeOf o))).
Proof.
  unfold placed, mainCodeOf, EnhancedSearchEngine.generateBreadcrumb.
  destruct (code o) as [| a [| b [| d r]]]; cbn [JS.split_first];
    [discriminate | | |].
  - destruct (Ascii.eqb a "."); [discriminate | reflexivity].
  - destruct (Ascii.eqb a "."); [discriminate |]. cbn [JS.split_first].
    destruct (Ascii.eqb b "."); [discriminate | reflexivity].
  - destruct (Ascii.eqb a "."); [discriminate |]. cbn [JS.split_first].
    destruct (Ascii.eqb b "."); [discriminate |]. cbn [JS.split_first].
    destruct (Ascii.eqb d "."); [discriminate |].
    intros _ _. unfold JS.substring0.
    destruct (JS.split_first "." r) as [| e [| f m]];
      cbn; rewrite ?substring_zero; reflexivity.
Qed.

Lemma breadcrumb_follows_the_tree_path_witness :
  EnhancedSearchEngine.generateBreadcrumb (occupationOf "2112.3" "Weather forecaster")
  = "2 - Professionals > 21 - Science and engineering professionals > 211 - Physical and earth science professionals".
Proof.
  apply (breadcrumb_follows_the_tree_path (occupationOf "2112.3" "Weather forecaster"));
    reflexivity.
Defined.

(* ================================================================== *)
(** ** The browser *)

Lemma search_length (h : Host) (this : EnhancedSearchEngine.t) (query : string)
  (filters : option EnhancedSearchEngine.SearchFilters) (limit : nat)
  (results : list EnhancedSearchEngine.SearchResult) :
  EnhancedSearchEngine.search h this query filters limit = Normal results ->
  List.length results <= limit.
Proof.
  unfold EnhancedSearchEngine.search. destruct (negb _).
  - intros [= <-]. apply firstn_le_length.
  - destruct (EnhancedSearchEngine.boostRelevance _ _ _); simpl; [| discriminate].
    intros [= <-]. apply firstn_le_length.
Qed.

Lemma length_pos_truthy (s : string) : (0 <? String.length s)%nat = JS.truthy s.
Proof. now destruct s. Qed.

(** X20: the two views of the browser exclude each other.  With a term that
    is not blank the tree is empty and the results, when the search
    returns, are at most 50; with a blank term there is no result, the
    engine is not asked, and the tree is the tree of all the records. *)
Theorem browser_views_exclude_each_other (L : JS.Collation) (h : Host)
  (searchEngine : option EnhancedSearchEngine.t) (occupations : list Occupation)
  (term : string) (filters : EnhancedSearchEngine.SearchFilters) :
  (Browser.isSearchMode term = true ->
   Browser.organizedOccupations L occupations term = [] /\
   forall results, Browser.searchResults h searchEngine term filters = Normal results ->
                   List.length results <= 50) /\
  (Browser.isSearchMode term = false ->
   Browser.searchResults h searchEngine term filters = Normal [] /\
   Browser.organizedOccupations L occupations term = organizeOccupations L occupations).
Proof.
  unfold Browser.isSearchMode, Browser.organizedOccupations, Browser.searchResults.
  rewrite length_pos_truthy. split; intros ->; simpl.
  - split; [reflexivity |]. intros results.
    destruct searchEngine as [engine |]; [apply search_length |].
    intros [= <-]. simpl. lia.
  - split; [| reflexivity]. now destruct searchEngine.
Qed.

Lemma browser_views_exclude_each_other_witness :
  let occupations := [occupationOf "2512" "Software developer"] in
  let nbsp := String (ascii_of_nat 160) "" in
  Browser.organizedOccupations codeUnits occupations "dev" = [] /\
  Browser.organizedOccupations codeUnits occupations nbsp
  = organizeOccupations codeUnits occupations.
Proof.
  intros occupations nbsp.
  pose (filters := EnhancedSearchEngine.mkSearchFilters [] []).
  split.
  - apply (proj1 (proj1 (browser_views_exclude_each_other codeUnits sampleHost None
                           occupations "dev" filters) eq_refl)).
  - apply (proj2 (proj2 (browser_views_exclude_each_other codeUnits sampleHost None
                           occupations nbsp filters) eq_refl)).
Defined.

(* ------------------------------------------------------------------ *)
(** *** Toggles *)

Section Toggle.
Variable value : string.

Let removed (l : list string) : list string :=
  filter (fun v => negb (String.eqb v value)) l.

Lemma In_removed (l : list string) (v : string) :
  In v (removed l) <-> In v l /\ v <> value.
Proof.
  unfold removed. rewrite filter_In, negb_true_iff, String.eqb_neq. tauto.
Qed.

Lemma NoDup_removed (l : list string) : NoDup l -> NoDup (removed l).
Proof. apply NoDup_filter. Qed.

Lemma NoDup_added (l : list string) : ~ In value l -> NoDup l -> NoDup (l ++ [value]).
Proof.
  intros Hn Hl. apply NoDup_app; [exact Hl | repeat constructor; intros [] |].
  intros x Hx [<- | []]. now apply Hn.
Qed.
End Toggle.

Lemma toggleFilter_facet (type : Browser.FilterType) (value : string)
  (prev : EnhancedSearchEngine.SearchFilters) :
  Browser.facet type (Browser.toggleFilter type value prev)
  = if JS.Array_includes (Browser.facet type prev) value
    then filter (fun v => negb (String.eqb v value)) (Browser.facet type prev)
    else Browser.facet type prev ++ [value].
Proof. now destruct type. Qed.

Lemma toggleFilter_members (type : Browser.FilterType) (value : string)
  (prev : EnhancedSearchEngine.SearchFilters) :
  (In value (Browser.facet type (Browser.toggleFilter type value prev))
   <-> ~ In value (Browser.facet type prev)) /\
  (forall v, v <> value ->
     (In v (Browser.facet type (Browser.toggleFilter type value prev))
      <-> In v (Browser.facet type prev))) /\
  (forall other, other <> type ->
     Browser.facet other (Browser.toggleFilter type value prev)
     = Browser.facet other prev).
Proof.
  rewrite toggleFilter_facet.
  assert (Hother : forall other, other <> type ->
            Browser.facet other (Browser.toggleFilter type value prev)
            = Browser.facet other prev).
  { intros other Hne. destruct type, other; try reflexivity; congruence. }
  destruct (JS.Array_includes (Browser.facet type prev) value) eqn:E.
  - apply Array_includes_In in E.
    split; [| split]; [| | exact Hother].
    + rewrite In_removed. tauto.
    + intros v Hv. rewrite In_removed. tauto.
  - assert (Hn : ~ In value (Browser.facet type prev))
      by (intros H; apply Array_includes_In in H; congruence).
    split; [| split]; [| | exact Hother].
    + rewrite in_app_iff. simpl. tauto.
    + intros v Hv. rewrite in_app_iff. simpl. split; [| tauto].
      intros [H | [H | []]]; [exact H | congruence].
Qed.

(** X21: [toggleFilter] flips the presence of the value in the facet, keeps
    every other value of the facet, keeps the other facet as it is, and
    never makes a value appear twice. *)
Theorem toggleFilter_flips_one_value (type : Browser.FilterType) (value : string)
  (prev : EnhancedSearchEngine.SearchFilters) :
  (In value (Browser.facet type (Browser.toggleFilter type value prev))
   <-> ~ In value (Browser.facet type prev)) /\
  (forall v, v <> value ->
     (In v (Browser.facet type (Browser.toggleFilter type value prev))
      <-> In v (Browser.facet type prev))) /\
  (forall other, other <> type ->
     Browser.facet other (Browser.toggleFilter type value prev)
     = Browser.facet other prev) /\
  (NoDup (Browser.facet type prev) ->
   NoDup (Browser.facet type (Browser.toggleFilter type value prev))).
Proof.
  destruct (toggleFilter_members type value prev) as (A & B & C).
  repeat (split; [assumption |]).
  rewrite toggleFilter_facet.
  destruct (JS.Array_includes (Browser.facet type prev) value) eqn:E.
  - apply NoDup_removed.
  - apply NoDup_added. intros H. apply Array_includes_In in H. congruence.
Qed.

Lemma toggleFilter_flips_one_value_witness :
  NoDup (Browser.facet Browser.IscoMajorGroups
           (Browser.toggleFilter Browser.IscoMajorGroups "2"
              (EnhancedSearchEngine.mkSearchFilters ["1"; "2"; "3"] ["Skill"]))).
Proof.
  apply (proj2 (proj2 (proj2 (toggleFilter_flips_one_value Browser.IscoMajorGroups "2"
                  (EnhancedSearchEngine.mkSearchFilters ["1"; "2"; "3"] ["Skill"]))))).
  simpl. repeat constructor; simpl; intuition discriminate.
Defined.

Lemma nil_iff_no_member {A : Type} (l : list A) : l = [] <-> forall x, ~ In x l.
Proof.
  destruct l as [| a l]; split.
  - intros _ x [].
  - reflexivity.
  - discriminate.
  - intros H. exfalso. apply (H a). now left.
Qed.

Lemma matchesFilters_same_values (occ : Occupation)
  (f1 f2 : EnhancedSearchEngine.SearchFilters) :
  (forall x, In x (EnhancedSearchEngine.iscoMajorGroups f1)
             <-> In x (EnhancedSearchEngine.iscoMajorGroups f2)) ->
  (forall x, In x (EnhancedSearchEngine.occupationTypes f1)
             <-> In x (EnhancedSearchEngine.occupationTypes f2)) ->
  EnhancedSearchEngine.matchesFilters occ f1 = EnhancedSearchEngine.matchesFilters occ f2.
Proof.
  intros H1 H2.
  assert (He1 : EnhancedSearchEngine.iscoMajorGroups f1 = []
                <-> EnhancedSearchEngine.iscoMajorGroups f2 = []).
  { rewrite !nil_iff_no_member. split; intros H x Hx; apply (H x), H1, Hx. }
  assert (He2 : EnhancedSearchEngine.occupationTypes f1 = []
                <-> EnhancedSearchEngine.occupationTypes f2 = []).
  { rewrite !nil_iff_no_member. split; intros H x Hx; apply (H x), H2, Hx. }
  pose proof (matchesFilters_spec occ f1) as S1.
  pose proof (matchesFilters_spec occ f2) as S2.
  destruct (EnhancedSearchEngine.matchesFilters occ f1);
    destruct (EnhancedSearchEngine.matchesFilters occ f2); try reflexivity.
  - destruct (proj1 S1 eq_refl) as [A B]. symmetry. apply S2. split.
    + destruct A as [A | (c & Hc & Hin)]; [left; tauto | right; exists c; split; trivial].
      now apply H1.
    + destruct B as [B | [Hn Hin]]; [left; tauto | right; split; trivial]. now apply H2.
  - destruct (proj1 S2 eq_refl) as [A B]. apply S1. split.
    + destruct A as [A | (c & Hc & Hin)]; [left; tauto | right; exists c; split; trivial].
      now apply H1.
    + destruct B as [B | [Hn Hin]]; [left; tauto | right; split; trivial]. now apply H2.
Qed.

Lemma toggle_twice_In (type : Browser.FilterType) (value : string)
  (prev : EnhancedSearchEngine.SearchFilters) (other : Browser.FilterType) (x : string) :
  In x (Browser.facet other
          (Browser.toggleFilter type value (Browser.toggleFilter type value prev)))
  <-> In x (Browser.facet other prev).
Proof.
  destruct (toggleFilter_members type value prev) as (A1 & B1 & C1).
  destruct (toggleFilter_members type value
              (Browser.toggleFilter type value prev)) as (A2 & B2 & C2).
  assert (Hd : other = type \/ other <> type)
    by (destruct other, type; auto; right; discriminate).
  destruct Hd as [-> | Hne].
  - destruct (string_dec x value) as [-> | Hx].
    + rewrite A2, A1.
      destruct (in_dec string_dec value (Browser.facet type prev)); tauto.
    + now rewrite (B2 x Hx), (B1 x Hx).
  - now rewrite (C2 other Hne), (C1 other Hne).
Qed.

Lemma toggle_twice_matches (type : Browser.FilterType) (value : string)
  (prev : EnhancedSearchEngine.SearchFilters) (occ : Occupation) :
  EnhancedSearchEngine.matchesFilters occ
    (Browser.toggleFilter type value (Browser.toggleFilter type value prev))
  = EnhancedSearchEngine.matchesFilters occ prev.
Proof.
  apply matchesFilters_same_values; intros x.
  - apply (toggle_twice_In type value prev Browser.IscoMajorGroups).
  - apply (toggle_twice_In type value prev Browser.OccupationTypes).
Qed.

(** X22: toggling the same filter value twice gives the search of before,
    for every query and limit, although the value may have moved to the
    end of its list; so it is for the results the browser shows. *)
Theorem toggling_twice_restores_the_results (h : Host)
  (type : Browser.FilterType) (value : string)
  (prev : EnhancedSearchEngine.SearchFilters) :
  (forall this query limit,
     EnhancedSearchEngine.search h this query
       (Some (Browser.toggleFilter type value (Browser.toggleFilter type value prev))) limit
     = EnhancedSearchEngine.search h this query (Some prev) limit) /\
  (forall searchEngine term,
     Browser.searchResults h searchEngine term
       (Browser.toggleFilter type value (Browser.toggleFilter type value prev))
     = Browser.searchResults h searchEngine term prev).
Proof.
  assert (Hs : forall this query limit,
     EnhancedSearchEngine.search h this query
       (Some (Browser.toggleFilter type value (Browser.toggleFilter type value prev))) limit
     = EnhancedSearchEngine.search h this query (Some prev) limit).
  { intros this query limit.
    unfold EnhancedSearchEngine.search, EnhancedSearchEngine.getFilteredOccupations,
      EnhancedSearchEngine.applyFilters.
    rewrite (filter_ext _ (fun occ => EnhancedSearchEngine.matchesFilters occ prev)
               (toggle_twice_matches type value prev)).
    rewrite (filter_ext _ (fun result => EnhancedSearchEngine.matchesFilters
                             (EnhancedSearchEngine.occupation result) prev)
               (fun r => toggle_twice_matches type value prev _)).
    reflexivity. }
  split; [exact Hs |].
  intros searchEngine term. unfold Browser.searchResults.
  destruct searchEngine as [engine |]; [| reflexivity].
  destruct (negb _); [reflexivity | apply Hs].
Qed.

(** X23: [toggleGroup] flips the presence of the code in the set of the
    expanded groups, keeps every other code, and keeps the set free of
    duplicates. *)
Theorem toggleGroup_flips_one_code (code : string) (prev : list string) :
  (In code (Browser.toggleGroup code prev) <-> ~ In code prev) /\
  (forall c, c <> code -> (In c (Browser.toggleGroup code prev) <-> In c prev)) /\
  (NoDup prev -> NoDup (Browser.toggleGroup code prev)).
Proof.
  unfold Browser.toggleGroup, Browser.Set_add, Browser.Set_delete.
  destruct (Browser.Set_has prev code) eqn:E; unfold Browser.Set_has in E.
  - assert (Hin : In code prev).
    { apply existsb_exists in E as (x & Hx & Heq). apply String.eqb_eq in Heq. now subst. }
    split; [| split].
    + rewrite In_removed. tauto.
    + intros c Hc. rewrite In_removed. tauto.
    + apply NoDup_removed.
  - assert (Hn : ~ In code prev).
    { intros H. assert (existsb (String.eqb code) prev = true); [| congruence].
      apply existsb_exists. exists code. split; [exact H | apply String.eqb_refl]. }
    split; [| split].
    + rewrite in_app_iff. simpl. tauto.
    + intros c Hc. rewrite in_app_iff. simpl. split; [| tauto].
      intros [H | [H | []]]; [exact H | congruence].
    + now apply NoDup_added.
Qed.

Lemma toggleGroup_flips_one_code_witness :
  NoDup (Browser.toggleGroup "25" ["2"; "25"; "251"]).
Proof.
  apply (proj2 (proj2 (toggleGroup_flips_one_code "25" ["2"; "25"; "251"]))).
  repeat constructor; simpl; intuition discriminate.
Defined.

(* ------------------------------------------------------------------ *)
(** *** The browser without the engine *)

Lemma filteredOccupations_filter (occupations : list Occupation) (searchTerm : string) :
  PlainBrowser.filteredOccupations occupations searchTerm
  = filter (termMatches searchTerm) occupations.
Proof.
  unfold PlainBrowser.filteredOccupations, termMatches.
  destruct (JS.truthy searchTerm); simpl; [reflexivity |].
  induction occupations as [| o l IH]; simpl; congruence.
Qed.

(** X24: in the browser without the engine, the records of the tree are the
    records whose lowercased label, code, description or alternate
    designation contains the lowercased term and whose code gives a path,
    each as often as the list has it; with the empty term the tree is the
    tree of all the records. *)
Theorem plain_browser_tree_records (L : JS.Collation)
  (occupations : list Occupation) (searchTerm : string) :
  Permutation (recordsOfTree (PlainBrowser.organizedOccupations L occupations searchTerm))
              (filter (fun o => termMatches searchTerm o && placed o) occupations) /\
  PlainBrowser.organizedOccupations L occupations "" = organizeOccupations L occupations.
Proof.
  split; [| reflexivity].
  unfold PlainBrowser.organizedOccupations. rewrite filteredOccupations_filter.
  eapply Permutation_trans; [apply records_organize |].
  induction occupations as [| o l IH]; simpl; [constructor |].
  destruct (termMatches searchTerm o); simpl; [| exact IH].
  destruct (placed o); [now constructor | exact IH].
Qed.

(** A term in capitals finds a label in small letters, beyond ASCII too:
    the term of the one letter U+00C9 finds the label that starts with
    U+00E9. *)
Example plain_browser_accented_term :
  let r := occupationOf "2641" (String (ascii_of_nat 233) "crivain") in
  PlainBrowser.filteredOccupations [r] (String (ascii_of_nat 201) "") = [r].
Proof. reflexivity. Qed.
